(** * lsviz: the in-memory index of [src/lsviz/main.py]

    A shallow embedding of the tree node ([FSNode]), the filter and sort
    engines, the batched fetch of [FSModel] and the tree builder of
    [HdfsExplorer.load_hdfs_file], followed by the properties of them.

    Python objects live in a store: a [heap] is the list of all [FSNode]
    objects ever constructed, an object reference is the index of the object
    in that list, and a list of children is a list of references.  Two
    lists that hold the same reference ([all_children], [visible_children],
    the [node_map] of the builder) therefore alias the same object, as in
    Python.  Python [int] is [Z], [str] is [string]: a character is its
    code point, and the strings of the model are those whose code points
    are below 256.  On these, [str.lower], [str.strip], [int] and the
    classes [\s], [\S] and [\d] of [re] are modelled in full. *)

From Stdlib Require Import ZArith String Ascii List Bool Sorting Permutation Lia.
From Stdlib Require Import DecimalString.
From stdpp Require Import base tactics option list sorting countable strings gmap.

Local Open Scope string_scope.
Local Open Scope list_scope.
Local Open Scope Z_scope.

(** ** Python strings *)

Module PyStr.

(** [str.lower] on the characters below U+0100: the letters [A] to [Z]
    and the capital letters of Latin-1, U+00C0 to U+00DE without the
    multiplication sign U+00D7, have their small letter 32 places on; no
    other character changes. *)
Definition lower_char (c : ascii) : ascii :=
  let n := N_of_ascii c in
  if ((65 <=? n) && (n <=? 90)
      || (192 <=? n) && (n <=? 222) && negb (n =? 215))%N
  then ascii_of_N (n + 32) else c.

Fixpoint lower (s : string) : string :=
  match s with
  | EmptyString => EmptyString
  | String c s' => String (lower_char c) (lower s')
  end.

(** [pat in s]: [pat] occurs in [s] as a contiguous substring. *)
Fixpoint str_in (pat s : string) : bool :=
  String.prefix pat s ||
  match s with
  | EmptyString => false
  | String _ s' => str_in pat s'
  end.

(** [not s]: the empty string is the only falsy string. *)
Definition is_empty (s : string) : bool :=
  match s with EmptyString => true | _ => false end.

(** [s.startswith(c)] for a one-character [c]. *)
Definition startswith_char (s : string) (c : ascii) : bool :=
  match s with
  | String c' _ => Ascii.eqb c' c
  | EmptyString => false
  end.

(** [str(z)] for an integer, as an f-string prints it. *)
Definition str_of_int (z : Z) : string := NilZero.string_of_int (Z.to_int z).

(** [int(s)]; [None] stands for [ValueError].  The string holds white
    space, an optional sign, decimal digits with single underscores between
    them, and white space; the digits are no more than 4300, the default of
    [sys.get_int_max_str_digits].  Below U+0100 the decimal digits are
    [0] to [9], and the white space that [int] takes is the ASCII one and
    U+0085 and U+00A0 (not the separators U+001C to U+001F, which
    [str.strip] removes). *)
Definition digit_of (c : ascii) : option Z :=
  let n := N_of_ascii c in
  if ((48 <=? n) && (n <=? 57))%N then Some (Z.of_N n - 48) else None.

Definition int_space (c : ascii) : bool :=
  let n := N_of_ascii c in
  ((9 <=? n) && (n <=? 13) || (n =? 32) || (n =? 133) || (n =? 160))%N.

Fixpoint skip_int_space (s : string) : string :=
  match s with
  | String c s' => if int_space c then skip_int_space s' else s
  | EmptyString => s
  end.

(** The digits and underscores from here on: the value, the number of
    digits, and what follows them.  An underscore stands before a digit. *)
Fixpoint int_digits (acc : Z) (count : nat) (s : string) : option (Z * nat * string) :=
  match s with
  | EmptyString => Some (acc, count, s)
  | String c s' =>
      match digit_of c with
      | Some d => int_digits (10 * acc + d) (S count) s'
      | None =>
          if Ascii.eqb c "_" then
            match s' with
            | String c' s'' =>
                match digit_of c' with
                | Some d => int_digits (10 * acc + d) (S count) s''
                | None => None
                end
            | EmptyString => None
            end
          else Some (acc, count, s)
      end
  end.

Definition int_max_str_digits : Z := 4300.

Definition int_of_str (s : string) : option Z :=
  let s1 := skip_int_space s in
  let '(negative, s2) :=
    match s1 with
    | String "-" r => (true, r)
    | String "+" r => (false, r)
    | _ => (false, s1)
    end in
  match s2 with
  | EmptyString => None
  | String c _ =>
      match digit_of c with
      | None => None
      | Some _ =>
          match int_digits 0 0 s2 with
          | None => None
          | Some (v, count, rest) =>
              if negb (is_empty (skip_int_space rest)) then None
              else if int_max_str_digits <? Z.of_nat count then None
              else Some (if negative : bool then - v else v)
          end
      end
  end.

(** [s.split(sep)] for a one-character separator. *)
Fixpoint split (sep : ascii) (s : string) : list string :=
  match s with
  | EmptyString => [EmptyString]
  | String c s' =>
      if Ascii.eqb c sep then EmptyString :: split sep s'
      else match split sep s' with
           | w :: ws => String c w :: ws
           | [] => [String c EmptyString]
           end
  end.

End PyStr.

(** ** pathlib paths

    A pure POSIX path after parsing: its anchor (the empty string, ["/"]
    or ["//"]) and its segments.  Equality of paths is equality of both,
    case-sensitive, as for [PurePosixPath]. *)

Record Path := { anchor : string; parts : list string }.

Global Instance Path_eq_dec : EqDecision Path.
Proof. solve_decision. Defined.

Global Instance Path_countable : Countable Path.
Proof.
  refine (inj_countable' (fun p => (anchor p, parts p))
                         (fun t => {| anchor := t.1; parts := t.2 |}) _).
  by intros [].
Defined.

Module PyPath.

(** [path.name]: the final segment, or the empty string. *)
Definition name (p : Path) : string := List.last (parts p) "".

(** [path.parents[::-1]]: the ancestors from the outermost one down to
    the immediate parent.  A path without segments has none. *)
Definition parents_rev (p : Path) : list Path :=
  map (fun k => {| anchor := anchor p; parts := take k (parts p) |})
      (seq 0 (List.length (parts p))).

(** The root of a POSIX path string: exactly two leading slashes are
    kept apart from one, three or more collapse to one. *)
Definition splitroot (s : string) : string :=
  match s with
  | String "/" (String "/" (String "/" _)) => "/"
  | String "/" (String "/" _) => "//"
  | String "/" _ => "/"
  | _ => ""
  end.

(** [Path(s)]: the segments between slashes, without the empty ones and
    the single dots. *)
Definition of_str (s : string) : Path :=
  {| anchor := splitroot s;
     parts := List.filter (fun x => negb (PyStr.is_empty x) && negb (String.eqb x "."))
                          (PyStr.split "/" s) |}.

Definition root_path : Path := of_str "/".   (* Path("/") *)
Definition empty_path : Path := of_str "".   (* Path() *)

End PyPath.

(** ** Sort specification *)

(** [Qt.SortOrder] *)
Inductive SortOrder := AscendingOrder | DescendingOrder.

Global Instance SortOrder_eq_dec : EqDecision SortOrder.
Proof. solve_decision. Defined.

(** [class Column(IntEnum)] *)
Module Column.
Definition Name : Z := 0.
Definition Size : Z := 1.
Definition Modified : Z := 2.
Definition Permissions : Z := 3.
Definition Owner : Z := 4.
End Column.

(** [@dataclass class Sorting]: its generated [__eq__] compares the two
    fields, which is Leibniz equality here. *)
Record Sorting := { column : Z; order : SortOrder }.

Global Instance Sorting_eq_dec : EqDecision Sorting.
Proof. solve_decision. Defined.

(** ** Tree nodes *)

Record FSNode := {
  path : Path;
  name : string;
  name_lower : string;
  is_dir : bool;
  parent : option nat;
  all_children : list nat;
  visible_children : list nat;
  BATCH : Z;
  fetched_items : Z;
  size : Z;
  modified : string;
  permissions : string;
  owner : string;
  current_sort_state : option Sorting
}.

Abbreviation heap := (list FSNode).

(** [FSNode.__init__] *)
Definition FSNode_init (path : Path) (size : Z) (modified permissions owner : string)
    (parent : option nat) : FSNode :=
  {| path := path;
     name := PyPath.name path;
     name_lower := PyStr.lower (PyPath.name path);
     is_dir := PyStr.is_empty permissions || PyStr.startswith_char permissions "d";
     parent := parent;
     all_children := [];
     visible_children := [];
     BATCH := 10000;
     fetched_items := 10000;
     size := size;
     modified := modified;
     permissions := permissions;
     owner := owner;
     current_sort_state := None |}.

(** Construction of an object: the new node is stored at the end of the
    heap and its reference is returned. *)
Definition new_node (nd : FSNode) (h : heap) : nat * heap := (List.length h, h ++ [nd]).

(** Attribute assignments. *)
Definition set_children (all vis : list nat) (st : option Sorting) (nd : FSNode) : FSNode :=
  {| path := path nd; name := name nd; name_lower := name_lower nd;
     is_dir := is_dir nd; parent := parent nd;
     all_children := all; visible_children := vis;
     BATCH := BATCH nd; fetched_items := fetched_items nd;
     size := size nd; modified := modified nd;
     permissions := permissions nd; owner := owner nd;
     current_sort_state := st |}.

Definition set_visible_children (vis : list nat) (nd : FSNode) : FSNode :=
  set_children (all_children nd) vis (current_sort_state nd) nd.

Definition set_fetched_items (n : Z) (nd : FSNode) : FSNode :=
  {| path := path nd; name := name nd; name_lower := name_lower nd;
     is_dir := is_dir nd; parent := parent nd;
     all_children := all_children nd; visible_children := visible_children nd;
     BATCH := BATCH nd; fetched_items := n;
     size := size nd; modified := modified nd;
     permissions := permissions nd; owner := owner nd;
     current_sort_state := current_sort_state nd |}.

(** [FSNode.append_child].  A reference that is not in the heap cannot be
    held in Python; the model answers [None] there. *)
Definition append_child (self child : nat) (h : heap) : option heap :=
  nd ← h !! self;
  Some (<[self := set_children (all_children nd ++ [child])
                               (visible_children nd ++ [child]) None nd]> h).

(** *** Filter engine *)

(** The list comprehension of [apply_filter]: the children that pass
    [filter_text in child.name_lower or child.is_dir], in order. *)
Fixpoint filter_children (h : heap) (filter_text : string) (cs : list nat)
    : option (list nat) :=
  match cs with
  | [] => Some []
  | c :: cs' =>
      child ← h !! c;
      rest ← filter_children h filter_text cs';
      Some (if PyStr.str_in filter_text (name_lower child) || is_dir child
            then c :: rest else rest)
  end.

(** A [for] loop over a list of references whose body updates the heap. *)
Fixpoint for_each (body : nat → heap → option heap) (cs : list nat) (h : heap)
    : option heap :=
  match cs with
  | [] => Some h
  | c :: cs' => h' ← body c h; for_each body cs' h'
  end.

(** [FSNode.apply_filter].  The recursion follows the references of the
    heap, so it is bounded by [fuel], the depth the recursion may reach;
    [None] is returned when the bound is hit (or on a dangling reference). *)
Fixpoint apply_filter (fuel : nat) (self : nat) (filter_text : string) (h : heap)
    : option heap :=
  match fuel with
  | O => None
  | S fuel' =>
      nd ← h !! self;
      vis ← (if PyStr.is_empty filter_text then Some (all_children nd)
             else filter_children h filter_text (all_children nd));
      for_each
        (fun c h' =>
           child ← h' !! c;
           if is_dir child then apply_filter fuel' c filter_text h' else Some h')
        (all_children nd)
        (<[self := set_visible_children vis nd]> h)
  end.

(** *** Sort engine *)

(** Python exceptions met in the sort. *)
Inductive exn := ValueError (msg : string) | TypeError.

(** The result of a call that may raise.  [Dangling] stands for the use
    of a reference that is not in the heap, which Python cannot express. *)
Inductive outcome (A : Type) := Ok (a : A) | Raise (e : exn) | Dangling.
Arguments Ok {A} a.
Arguments Raise {A} e.
Arguments Dangling {A}.

Global Instance outcome_ret : MRet outcome := @Ok.
Global Instance outcome_bind : MBind outcome := λ A B f m,
  match m with
  | Ok a => f a
  | Raise e => Raise e
  | Dangling => Dangling
  end.

(** The second component of a sort key is a [str] or an [int]. *)
Inductive pyval := VStr (s : string) | VInt (z : Z).

Global Instance pyval_eq_dec : EqDecision pyval.
Proof. solve_decision. Defined.

Abbreviation key := (bool * pyval)%type.

Module PyCmp.

(** [a == b]: values of different types are unequal. *)
Definition val_eq (a b : pyval) : bool :=
  match a, b with
  | VStr s, VStr t => String.eqb s t
  | VInt x, VInt y => Z.eqb x y
  | _, _ => false
  end.

(** [a < b]: strings by code points, integers by value, and a
    [TypeError] between a string and an integer. *)
Definition val_lt (a b : pyval) : outcome bool :=
  match a, b with
  | VStr s, VStr t => Ok (String.ltb s t)
  | VInt x, VInt y => Ok (Z.ltb x y)
  | _, _ => Raise TypeError
  end.

(** [a < b] on pairs: the first components that differ decide, and
    only those are compared with [<]; [False < True]. *)
Definition key_lt (a b : key) : outcome bool :=
  if negb (Bool.eqb a.1 b.1) then Ok (negb a.1 && b.1)
  else if negb (val_eq a.2 b.2) then val_lt a.2 b.2
  else Ok false.

(** [list.sort] is a stable sort that compares keys with [<] only.  It is
    modelled by straight insertion, which moves an element past the ones
    that are strictly smaller and no further. *)
Fixpoint insert_sorted {A} (x : key * A) (l : list (key * A))
    : outcome (list (key * A)) :=
  match l with
  | [] => Ok [x]
  | y :: l' =>
      b ← key_lt y.1 x.1;
      if b : bool then r ← insert_sorted x l'; Ok (y :: r)
      else Ok (x :: y :: l')
  end.

Fixpoint sort_pairs {A} (l : list (key * A)) : outcome (list (key * A)) :=
  match l with
  | [] => Ok []
  | x :: l' => r ← sort_pairs l'; insert_sorted x r
  end.

(** [l.sort(key=f, reverse=r)]: the keys are computed first, in order;
    with [reverse] the list is reversed before and after the stable sort,
    which is how equal keys keep their order in a descending sort. *)
Definition list_sort {A} (f : A → outcome key) (reverse : bool) (l : list A)
    : outcome (list A) :=
  keys ← mapM f l;
  let kl := zip keys l in
  r ← sort_pairs (if reverse then rev kl else kl);
  Ok (map snd (if reverse then rev r else r)).

End PyCmp.

(** The local function [sort_key] of [FSNode.sort]. *)
Definition sort_key (sorting : Sorting) (reverse : bool) (node : FSNode) : outcome key :=
  let dir_first := Bool.eqb (is_dir node) reverse in
  if column sorting =? Column.Name then
    Ok (dir_first, VStr (name_lower node))
  else if column sorting =? Column.Size then
    Ok (dir_first, if is_dir node then VStr (name_lower node) else VInt (size node))
  else if column sorting =? Column.Modified then
    Ok (false, VStr (modified node))
  else if column sorting =? Column.Permissions then
    Ok (false, VStr (permissions node))
  else if column sorting =? Column.Owner then
    Ok (false, VStr (owner node))
  else
    Raise (ValueError ("Unknown column index " ++ PyStr.str_of_int (column sorting))%string).

(** [sort_key] on a reference. *)
Definition sort_key_ref (h : heap) (sorting : Sorting) (reverse : bool) (c : nat)
    : outcome key :=
  match h !! c with
  | Some node => sort_key sorting reverse node
  | None => Dangling
  end.

(** [FSNode.sort].  Nothing is written before the keys have been computed:
    when [sort_key] raises, [list.sort] leaves the list as it was and
    [current_sort_state] is not assigned, so the heap after [Raise] is the
    heap of the call.  (The [print] of the guard is not modelled.) *)
Definition sort (self : nat) (sorting : Sorting) (h : heap) : outcome heap :=
  match h !! self with
  | None => Dangling
  | Some nd =>
      if decide (current_sort_state nd = Some sorting) then Ok h
      else
        let reverse := bool_decide (order sorting = DescendingOrder) in
        vis ← PyCmp.list_sort (sort_key_ref h sorting reverse) reverse
                              (visible_children nd);
        Ok (<[self := set_children (all_children nd) vis (Some sorting) nd]> h)
  end.

(** ** The item model *)

(** [QModelIndex]: the invalid index, or an index made by [createIndex]
    with its row, column and internal pointer. *)
Inductive QModelIndex :=
  | InvalidIndex
  | createIndex (row column : Z) (internalPointer : nat).

(** The part of [FSModel] the index uses: the root node and the sorting
    set by the view. *)
Record FSModel := { root_node : nat; sorting : option Sorting }.

(** [parent.internalPointer() if parent.isValid() else self.root_node] *)
Definition p_item_of (m : FSModel) (parent : QModelIndex) : nat :=
  match parent with
  | createIndex _ _ p => p
  | InvalidIndex => root_node m
  end.

(** [len(l)] *)
Definition len {A} (l : list A) : Z := Z.of_nat (List.length l).

(** [l[i]]: a negative index counts from the end; [None] is [IndexError]. *)
Definition getitem {A} (l : list A) (i : Z) : option A :=
  if 0 <=? i then l !! Z.to_nat i
  else if 0 <=? len l + i then l !! Z.to_nat (len l + i)
  else None.

(** [FSModel.index] *)
Definition index (m : FSModel) (h : heap) (row column : Z) (parent : QModelIndex)
    : option QModelIndex :=
  nd ← h !! p_item_of m parent;
  c ← getitem (visible_children nd) row;
  Some (createIndex row column c).

(** [FSModel.rowCount] *)
Definition rowCount (m : FSModel) (h : heap) (parent : QModelIndex) : option Z :=
  nd ← h !! p_item_of m parent;
  Some (Z.min (len (visible_children nd)) (fetched_items nd)).

(** [FSModel.canFetchMore] *)
Definition canFetchMore (h : heap) (parent : QModelIndex) : option bool :=
  match parent with
  | InvalidIndex => Some false
  | createIndex _ _ p =>
      nd ← h !! p;
      Some (fetched_items nd <? len (visible_children nd))
  end.

(** The arguments of [beginInsertRows]. *)
Record InsertRows := { ins_parent : QModelIndex; ins_first : Z; ins_last : Z }.

(** [FSModel.fetchMore]: the new heap and the rows announced. *)
Definition fetchMore (m : FSModel) (h : heap) (parent : QModelIndex)
    : option (heap * InsertRows) :=
  let p_item := p_item_of m parent in
  nd ← h !! p_item;
  let prev_fetched_items := fetched_items nd in
  let fetched := Z.min (fetched_items nd + BATCH nd) (len (visible_children nd)) in
  Some (<[p_item := set_fetched_items fetched nd]> h,
        {| ins_parent := parent; ins_first := prev_fetched_items; ins_last := fetched - 1 |}).

(** [FSModel.sort]: records the sorting asked by the view. *)
Definition FSModel_sort (m : FSModel) (column : Z) (order : SortOrder) : FSModel :=
  {| root_node := root_node m; sorting := Some {| column := column; order := order |} |}.

(** [FSModel.update_filter] *)
Definition update_filter (fuel : nat) (m : FSModel) (text : string) (h : heap) : option heap :=
  apply_filter fuel (root_node m) (PyStr.lower text) h.

(** ** The tree builder *)

(** [class FSItem(TypedDict)]: the groups of one matched line. *)
Record FSItem := {
  item_perms : string;
  item_replicas : string;
  item_owner : string;
  item_group : string;
  item_size : string;
  item_dt_mod : string;
  item_path : string
}.

(** The generator [_children_indices(index)].  Its body runs on the first
    [next]: only then are [self.model] and [rowCount] read; afterwards it
    holds the next row and the number of rows left in its [range]. *)
Inductive children_gen :=
  | GenStart (index : QModelIndex)
  | GenRange (index : QModelIndex) (i : Z) (remaining : nat)
  | GenDone.

(** [next((i for i in cur_children if i.internalPointer().path == parent), None)]
    from a generator that is already in its range: the first index made
    from here on whose node has the path, and the generator after it. *)
Fixpoint find_in_range (m : FSModel) (h : heap) (index_ : QModelIndex) (parent : Path)
    (i : Z) (remaining : nat) : option (option QModelIndex * children_gen) :=
  match remaining with
  | O => Some (None, GenDone)
  | S remaining' =>
      x ← index m h i 0 index_;
      match x with
      | InvalidIndex => None
      | createIndex _ _ p =>
          nd ← h !! p;
          if decide (path nd = parent) then Some (Some x, GenRange index_ (i + 1) remaining')
          else find_in_range m h index_ parent (i + 1) remaining'
      end
  end.

Definition find_child (model : option FSModel) (h : heap) (g : children_gen) (parent : Path)
    : option (option QModelIndex * children_gen) :=
  match g with
  | GenStart index_ =>
      match model with
      | None => Some (None, GenDone)
      | Some m =>
          n ← rowCount m h index_;
          find_in_range m h index_ parent 0 (Z.to_nat n)
      end
  | GenRange index_ i remaining =>
      m ← model; find_in_range m h index_ parent i remaining
  | GenDone => Some (None, GenDone)
  end.

(** The variables of the loop over the entries that its inner loop
    updates. *)
Record builder := {
  b_heap : heap;
  node_map : gmap Path nat;
  cur : nat;
  cur_children : children_gen
}.

(** The body of [for parent in path.parents[::-1]]. *)
Definition resolve_parent (model : option FSModel) (parent : Path) (b : builder)
    : option builder :=
  match node_map b !! parent with
  | Some node =>
      Some {| b_heap := b_heap b; node_map := node_map b; cur := node;
              cur_children := cur_children b |}
  | None =>
      '(found, g) ← find_child model (b_heap b) (cur_children b) parent;
      match found with
      | Some (createIndex r c node) =>
          Some {| b_heap := b_heap b; node_map := <[parent := node]> (node_map b);
                  cur := node; cur_children := GenStart (createIndex r c node) |}
      | Some InvalidIndex => None
      | None =>
          let '(node, h1) := new_node (FSNode_init parent 0 "" "" "" (Some (cur b)))
                                      (b_heap b) in
          h2 ← append_child (cur b) node h1;
          Some {| b_heap := h2; node_map := <[parent := node]> (node_map b);
                  cur := node; cur_children := g |}
      end
  end.

Fixpoint resolve_parents (model : option FSModel) (ps : list Path) (b : builder)
    : option builder :=
  match ps with
  | [] => Some b
  | parent :: ps' => b' ← resolve_parent model parent b; resolve_parents model ps' b'
  end.

(** The body of [for idx, i in enumerate(...)] after the cap test. *)
Definition load_entry (model : option FSModel) (root : nat) (i : FSItem)
    (st : heap * gmap Path nat) : option (heap * gmap Path nat) :=
  let path := PyPath.of_str (item_path i) in
  b ← resolve_parents model (PyPath.parents_rev path)
        {| b_heap := st.1; node_map := st.2; cur := root;
           cur_children := GenStart InvalidIndex |};
  sz ← PyStr.int_of_str (item_size i);
  let '(node, h1) :=
    new_node (FSNode_init path sz (item_dt_mod i) (item_perms i)
                          (item_owner i ++ ":" ++ item_group i)%string (Some (cur b)))
             (b_heap b) in
  h2 ← append_child (cur b) node h1;
  Some (h2, <[path := node]> (node_map b)).

(** The loop over the entries, with its cap of 300000 records. *)
Fixpoint load_entries (model : option FSModel) (root : nat) (idx : Z) (items : list FSItem)
    (st : heap * gmap Path nat) : option (heap * gmap Path nat) :=
  match items with
  | [] => Some st
  | i :: items' =>
      if idx =? 300000 then Some st
      else st' ← load_entry model root i st;
           load_entries model root (idx + 1) items' st'
  end.

(** [HdfsExplorer.load_hdfs_file] from the choice of the root to
    ["NODES CREATED"] and the creation of the model, on the entries that
    [_parse_filelist_file] yields.  The steps of the view that follow
    (column width, expansion, sort of the expanded nodes) create no node
    and assign no [path]. *)
Definition load_hdfs_file (model : option FSModel) (h : heap) (items : list FSItem)
    : option (FSModel * heap * gmap Path nat) :=
  let '(root, h0) :=
    match model with
    | Some m => (root_node m, h)
    | None => new_node (FSNode_init PyPath.empty_path 0 "" "" "" None) h
    end in
  '(h', nm) ← load_entries model root 0 items (h0, {[ PyPath.root_path := root ]});
  let m' := match model with
            | Some m => m
            | None => {| root_node := root; sorting := None |}
            end in
  Some (m', h', nm).

(** ** Notions used by the statements *)

(** Attributes read through a reference. *)
Definition is_dir_ref (h : heap) (c : nat) : bool := from_option is_dir false (h !! c).
Definition name_lower_ref (h : heap) (c : nat) : string := from_option name_lower "" (h !! c).

(** The references a node holds are in the heap. *)
Definition children_valid (h : heap) (cs : list nat) : Prop :=
  Forall (λ c, is_Some (h !! c)) cs.

(** The visibility rule in the words of the design: a child is visible iff
    the pattern is empty, or it is a directory, or its lower-cased name
    contains the pattern. *)
Definition spec_visible (h : heap) (pattern : string) (c : nat) : bool :=
  PyStr.is_empty pattern || is_dir_ref h c || PyStr.str_in pattern (name_lower_ref h c).

Definition spec_filter (h : heap) (pattern : string) (nd : FSNode) : list nat :=
  List.filter (spec_visible h pattern) (all_children nd).

(** [dir_reachable h a n]: [n] is [a], or a descendant of [a] through
    children that are all directories.  These are the nodes a call of
    [apply_filter] on [a] visits. *)
Inductive dir_reachable (h : heap) : nat → nat → Prop :=
  | dir_reachable_self a : dir_reachable h a a
  | dir_reachable_child a nd c child n :
      h !! a = Some nd → c ∈ all_children nd →
      h !! c = Some child → is_dir child = true →
      dir_reachable h c n → dir_reachable h a n.

(** Children are constructed after their parent and are in the heap: the
    shape of every heap the builder makes, on which the recursion of
    [apply_filter] ends. *)
Definition forward (h : heap) : Prop :=
  ∀ n nd c, h !! n = Some nd → c ∈ all_children nd → (n < c < List.length h)%nat.

(** Two heaps that differ in the [visible_children] of their nodes only. *)
Definition same_skeleton (h g : heap) : Prop :=
  Forall2 (λ a b, ∃ v, b = set_visible_children v a) h g.

(** The orders of the sort keys, total on all keys; [key_lt] agrees with
    them wherever it does not raise. *)
Definition val_compare (a b : pyval) : comparison :=
  match a, b with
  | VStr s, VStr t => String.compare s t
  | VInt x, VInt y => Z.compare x y
  | VStr _, VInt _ => Lt
  | VInt _, VStr _ => Gt
  end.

Definition key_compare (a b : key) : comparison :=
  match Bool.compare a.1 b.1 with
  | Eq => val_compare a.2 b.2
  | c => c
  end.

Definition key_le (a b : key) : Prop := key_compare a b ≠ Gt.

(** Keyed elements by their keys. *)
Definition pair_le {A} : relation (key * A) := λ a b, key_le a.1 b.1.

(** The order of the result of a sort with key function [f]: the keys never
    decrease, or, with [reverse], never increase. *)
Definition sorted_by {A} (f : A → outcome key) (reverse : bool) : relation A := λ a b,
  ∃ ka kb, f a = Ok ka ∧ f b = Ok kb ∧
           if reverse then key_le kb ka else key_le ka kb.

(** Order of two references by lower-cased name. *)
Definition name_le (h : heap) (a b : nat) : Prop :=
  String.leb (name_lower_ref h a) (name_lower_ref h b) = true.

(** The elements to which the key function [f] gives the key [k]. *)
Definition has_key {A} (f : A → outcome key) (k : key) (x : A) : bool :=
  match f x with
  | Ok k' => bool_decide (k' = k)
  | _ => false
  end.

(** The children of one kind and one lower-cased name. *)
Definition same_kind_and_name (h : heap) (d : bool) (n : string) (c : nat) : bool :=
  Bool.eqb (is_dir_ref h c) d && String.eqb (name_lower_ref h c) n.

(** The sort specifications by name and by size. *)
Definition by_name (o : SortOrder) : Sorting := {| column := Column.Name; order := o |}.
Definition by_size (o : SortOrder) : Sorting := {| column := Column.Size; order := o |}.

(** [reverse] of [FSNode.sort]. *)
Definition descending (o : SortOrder) : bool := bool_decide (o = DescendingOrder).

(** Order of the names in a group, in the direction of the sort. *)
Definition name_order (h : heap) (o : SortOrder) (a b : nat) : Prop :=
  if descending o then name_le h b a else name_le h a b.

(** Folders first, and by name within the folders and within the files. *)
Definition folders_first (h : heap) (o : SortOrder) (a b : nat) : Prop :=
  (is_dir_ref h a = true ∧ is_dir_ref h b = false)
  ∨ (is_dir_ref h a = is_dir_ref h b ∧ name_order h o a b).

(** The columns of the view. *)
Definition known_column (c : Z) : Prop := 0 ≤ c ≤ 4.

(** The references that the [node_map] of the builder holds are in the
    heap. *)
Definition map_valid (h : heap) (nm : gmap Path nat) : Prop :=
  ∀ p n, nm !! p = Some n → (n < List.length h)%nat.

(** What the loops of the builder keep: the heap is [forward], and the
    [node_map] and the current node refer to it. *)
Definition builder_ok (b : builder) : Prop :=
  forward (b_heap b) ∧ map_valid (b_heap b) (node_map b)
  ∧ (cur b < List.length (b_heap b))%nat.

(** A generator that has not entered its range, as all are while no model
    exists. *)
Definition gen_idle (g : children_gen) : Prop :=
  match g with
  | GenRange _ _ _ => False
  | _ => True
  end.

(** A test of [forward] that computes. *)
Definition forwardb (h : heap) : bool :=
  forallb (λ '(n, nd),
             forallb (λ c, (n <? c)%nat && (c <? List.length h)%nat) (all_children nd))
          (zip (seq 0 (List.length h)) h).

(** ** Sample inputs *)

Definition sample_item (perms size_ path_ : string) : FSItem :=
  {| item_perms := perms; item_replicas := "3"; item_owner := "hdfs";
     item_group := "supergroup"; item_size := size_;
     item_dt_mod := "2024-01-01 10:00"; item_path := path_ |}.

Definition file_item (path_ size_ : string) : FSItem := sample_item "-rw-r--r--" size_ path_.
Definition dir_item (path_ : string) : FSItem := sample_item "drwxr-xr-x" "0" path_.

(** The heap after a first load of the entries. *)
Definition loaded (items : list FSItem) : heap :=
  match load_hdfs_file None [] items with
  | Some (_, h, _) => h
  | None => []
  end.

(** The model that a first load creates: its root is the first object. *)
Definition first_model : FSModel := {| root_node := 0; sorting := None |}.

(** Two folders and two files under the root: [/b] is node 1, [/d] node
    2, [/a] node 3 and [/c] node 4. *)
Definition heap_mixed : heap :=
  loaded [dir_item "/b"; file_item "/d" "1"; dir_item "/a"; file_item "/c" "2"].

(** The scenario of the design: [/a] is node 1, [/a/b] node 2,
    [f1.txt] node 3, [f2.log] node 4 and [/a/c] node 5. *)
Definition heap_scenario : heap :=
  loaded [file_item "/a/b/f1.txt" "100"; file_item "/a/b/f2.log" "50"; dir_item "/a/c"].

(** A regular file entry [/x] (node 1) that later entries extend:
    [/x/x.txt] is node 2 and [/x/y.log] node 3. *)
Definition heap_file_parent : heap :=
  loaded [file_item "/x" "7"; file_item "/x/x.txt" "1"; file_item "/x/y.log" "2"].

(** A folder (node 1) with 12001 files (nodes 2 to 12002) under the root. *)
Definition heap_large : heap :=
  let files := seq 2 (Z.to_nat 12001) in
  let folder := PyPath.of_str "/d" in
  set_children [1%nat] [1%nat] None (FSNode_init PyPath.empty_path 0 "" "" "" None)
  :: set_children files files None (FSNode_init folder 0 "" "" "" (Some 0%nat))
  :: map (λ i, FSNode_init {| anchor := "/"; parts := ["d"; PyStr.str_of_int (Z.of_nat i)] |}
                           1 "2024-01-01 10:00" "-rw-r--r--" "hdfs:supergroup" (Some 1%nat))
         files.

(** [heap_mixed] after a sort of its root by ascending name. *)
Definition heap_mixed_sorted : heap :=
  match sort 0 (by_name AscendingOrder) heap_mixed with
  | Ok h => h
  | _ => []
  end.

(** An unknown sort criterion. *)
Definition unknown_sorting : Sorting := {| column := 7; order := AscendingOrder |}.

(** ** Further notions: the shape of the tree *)

(** Every child refers back to the node that holds it. *)
Definition well_linked (h : heap) : Prop :=
  ∀ n nd c, h !! n = Some nd → c ∈ all_children nd →
            parent <$> h !! c = Some (Some n).

(** No child is held twice, and the visible children are among the
    children. *)
Definition views_ok (h : heap) : Prop :=
  ∀ n nd, h !! n = Some nd →
          NoDup (all_children nd) ∧ visible_children nd ⊆+ all_children nd.

(** What a node keeps for life: all but its lists of children and its
    recorded sorting. *)
Definition same_attributes (a b : FSNode) : Prop :=
  path a = path b ∧ name a = name b ∧ name_lower a = name_lower b
  ∧ is_dir a = is_dir b ∧ parent a = parent b ∧ size a = size b
  ∧ modified a = modified b ∧ permissions a = permissions b ∧ owner a = owner b
  ∧ BATCH a = BATCH b ∧ fetched_items a = fetched_items b.

(** The construction steps of the builder: a new node without children,
    whose parent is a node of the heap, is appended to that node. *)
Inductive grows : heap → heap → Prop :=
  | grows_refl h : grows h h
  | grows_step h cur_ nd h1 h2 :
      (cur_ < List.length h)%nat →
      all_children nd = [] → visible_children nd = [] → parent nd = Some cur_ →
      append_child cur_ (List.length h) (h ++ [nd]) = Some h1 →
      grows h1 h2 → grows h h2.

(** The node that the builder makes for an entry. *)
Definition entry_node (i : FSItem) (nd : FSNode) : Prop :=
  path nd = PyPath.of_str (item_path i)
  ∧ name nd = PyPath.name (PyPath.of_str (item_path i))
  ∧ PyStr.int_of_str (item_size i) = Some (size nd)
  ∧ modified nd = item_dt_mod i
  ∧ permissions nd = item_perms i
  ∧ owner nd = (item_owner i ++ ":" ++ item_group i)%string
  ∧ is_dir nd = (PyStr.is_empty (item_perms i) || PyStr.startswith_char (item_perms i) "d").

(** An entry whose size [int] reads: the digits that the parser took for
    it are no more than [int] accepts. *)
Definition size_readable (i : FSItem) : Prop :=
  Z.of_nat (String.length (item_size i)) ≤ PyStr.int_max_str_digits.

(** The heap in which a load starts to append: the given one, or the given
    one with a new root. *)
Definition load_start (model : option FSModel) (h : heap) : heap :=
  match model with
  | Some _ => h
  | None => h ++ [FSNode_init PyPath.empty_path 0 "" "" "" None]
  end.

(** ** The entry parser

    The pattern of [_parse_filelist_file] and the matching that
    [pattern.match] does for it: every quantifier of the pattern is a [+]
    or a count on a class of single characters, taken greedily and given
    back one character at a time when the rest of the pattern fails. *)

Module Re.

(** [\s] and the characters that [str.strip] removes: of the characters
    below U+0100, the ASCII white space, the separators U+001C to U+001F,
    the next-line character U+0085 and the no-break space U+00A0. *)
Definition is_space (c : ascii) : bool :=
  let n := N_of_ascii c in
  ((9 <=? n) && (n <=? 13) || (28 <=? n) && (n <=? 32)
   || (n =? 133) || (n =? 160))%N.

(** [\d]: below U+0100 the decimal digits are [0] to [9]. *)
Definition is_digit (c : ascii) : bool :=
  let n := N_of_ascii c in ((48 <=? n) && (n <=? 57))%N.

(** [[drwx-]] *)
Definition is_perm (c : ascii) : bool :=
  Ascii.eqb c "d" || Ascii.eqb c "r" || Ascii.eqb c "w" || Ascii.eqb c "x"
  || Ascii.eqb c "-".

(** [[\d-]] *)
Definition is_digit_or_dash (c : ascii) : bool := is_digit c || Ascii.eqb c "-".

(** [\S] *)
Definition not_space (c : ascii) : bool := negb (is_space c).

(** [.], which matches all but the newline. *)
Definition not_newline (c : ascii) : bool := negb (Ascii.eqb c "010").

(** The atoms of the pattern: [cls+], [cls{n}] and a literal character. *)
Inductive atom :=
  | Plus (cls : ascii → bool)
  | Rep (n : nat) (cls : ascii → bool)
  | Lit (c : ascii).

(** An atom, a named group of atoms, or [$]. *)
Inductive elem :=
  | Atom (a : atom)
  | Group (name : string) (body : list atom)
  | EndOfString.

(** [cls*], greedy: the longer matches are tried first. *)
Fixpoint many {R} (cls : ascii → bool) (s : string) (k : string → option R) : option R :=
  match s with
  | String c s' =>
      if cls c then
        match many cls s' k with
        | Some r => Some r
        | None => k s
        end
      else k s
  | EmptyString => k s
  end.

Fixpoint rep {R} (n : nat) (cls : ascii → bool) (s : string) (k : string → option R)
    : option R :=
  match n with
  | O => k s
  | S n' =>
      match s with
      | String c s' => if cls c then rep n' cls s' k else None
      | EmptyString => None
      end
  end.

Definition match_atom {R} (a : atom) (s : string) (k : string → option R) : option R :=
  match a with
  | Plus cls =>
      match s with
      | String c s' => if cls c then many cls s' k else None
      | EmptyString => None
      end
  | Rep n cls => rep n cls s k
  | Lit c =>
      match s with
      | String c' s' => if Ascii.eqb c' c then k s' else None
      | EmptyString => None
      end
  end.

Fixpoint match_atoms {R} (l : list atom) (s : string) (k : string → option R) : option R :=
  match l with
  | [] => k s
  | a :: l' => match_atom a s (λ s', match_atoms l' s' k)
  end.

(** The part of [s] that was consumed when [s'] is what is left of it. *)
Definition consumed (s s' : string) : string :=
  String.substring 0 (String.length s - String.length s') s.

(** The match from the start of [s]; the groups are collected in order.
    [$] holds at the end and before a newline that ends the string. *)
Fixpoint match_elems (l : list elem) (s : string) (caps : list (string * string))
    : option (list (string * string)) :=
  match l with
  | [] => Some caps
  | Atom a :: l' => match_atom a s (λ s', match_elems l' s' caps)
  | Group name_ body :: l' =>
      match_atoms body s (λ s', match_elems l' s' (caps ++ [(name_, consumed s s')]))
  | EndOfString :: l' =>
      if String.eqb s "" || String.eqb s (String "010" "")
      then match_elems l' s caps else None
  end.

(** [match.groupdict()[name]] *)
Fixpoint group (name_ : string) (caps : list (string * string)) : option string :=
  match caps with
  | [] => None
  | (n, v) :: caps' => if String.eqb n name_ then Some v else group name_ caps'
  end.

(** [s.strip()] *)
Fixpoint lstrip (s : string) : string :=
  match s with
  | String c s' => if is_space c then lstrip s' else s
  | EmptyString => EmptyString
  end.

Fixpoint rstrip (s : string) : string :=
  match s with
  | EmptyString => EmptyString
  | String c s' =>
      match rstrip s' with
      | EmptyString => if is_space c then EmptyString else String c EmptyString
      | r => String c r
      end
  end.

Definition strip (s : string) : string := rstrip (lstrip s).

End Re.

(** The pattern compiled in [_parse_filelist_file]. *)
Definition record_grammar : list Re.elem :=
  [ Re.Group "perms" [Re.Plus Re.is_perm];
    Re.Atom (Re.Plus Re.is_space);
    Re.Atom (Re.Plus Re.is_digit_or_dash);
    Re.Atom (Re.Plus Re.is_space);
    Re.Group "owner" [Re.Plus Re.not_space];
    Re.Atom (Re.Plus Re.is_space);
    Re.Group "group" [Re.Plus Re.not_space];
    Re.Atom (Re.Plus Re.is_space);
    Re.Group "size" [Re.Plus Re.is_digit];
    Re.Atom (Re.Plus Re.is_space);
    Re.Group "dt_mod"
      [Re.Rep 4 Re.is_digit; Re.Lit "-"; Re.Rep 2 Re.is_digit; Re.Lit "-";
       Re.Rep 2 Re.is_digit; Re.Plus Re.is_space;
       Re.Rep 2 Re.is_digit; Re.Lit ":"; Re.Rep 2 Re.is_digit];
    Re.Atom (Re.Plus Re.is_space);
    Re.Group "path" [Re.Plus Re.not_newline];
    Re.EndOfString ].

(** One turn of the loop of [_parse_filelist_file]: the groups of the line
    when [pattern.match(line.strip())] matches.  The pattern has no group
    for the replicas, so the dict has no such key; the field of the record
    is left empty and is never read. *)
Definition parse_line (line : string) : option FSItem :=
  caps ← Re.match_elems record_grammar (Re.strip line) [];
  perms ← Re.group "perms" caps;
  owner_ ← Re.group "owner" caps;
  group_ ← Re.group "group" caps;
  size_ ← Re.group "size" caps;
  dt_mod ← Re.group "dt_mod" caps;
  path_ ← Re.group "path" caps;
  Some {| item_perms := perms; item_replicas := ""; item_owner := owner_;
          item_group := group_; item_size := size_; item_dt_mod := dt_mod;
          item_path := path_ |}.

(** [_parse_filelist_file] on the lines of the file: the lines that do
    not match are passed over. *)
Definition _parse_filelist_file (lines : list string) : list FSItem :=
  omap parse_line lines.

(** All characters of a string are in a class. *)
Fixpoint all_chars (cls : ascii → bool) (s : string) : bool :=
  match s with
  | EmptyString => true
  | String c s' => cls c && all_chars cls s'
  end.

(** The first and the last character of a string, when it has one. *)
Definition first_char (s : string) : option ascii :=
  match s with String c _ => Some c | EmptyString => None end.

Fixpoint last_char (s : string) : option ascii :=
  match s with
  | EmptyString => None
  | String c EmptyString => Some c
  | String _ s' => last_char s'
  end.

(** The words of the pattern, declaratively: a nonempty word of a class
    for [cls+], a word of [n] characters of a class for [cls{n}], the
    character itself for a literal; a list of atoms matches the
    concatenation of words of its atoms. *)
Definition field (cls : ascii → bool) (w : string) : Prop :=
  w ≠ "" ∧ all_chars cls w = true.

Definition chars (n : nat) (cls : ascii → bool) (w : string) : Prop :=
  String.length w = n ∧ all_chars cls w = true.

Definition atom_match (a : Re.atom) (w : string) : Prop :=
  match a with
  | Re.Plus cls => field cls w
  | Re.Rep n cls => chars n cls w
  | Re.Lit c => w = String c ""
  end.

Fixpoint atoms_match (l : list Re.atom) (w : string) : Prop :=
  match l with
  | [] => w = ""
  | a :: l' => ∃ w1 w2, w = (w1 ++ w2)%string ∧ atom_match a w1 ∧ atoms_match l' w2
  end.

(** A string is in the language of a pattern, with the words of its
    groups. *)
Fixpoint elems_match (l : list Re.elem) (s : string) (caps out : list (string * string))
    : Prop :=
  match l with
  | [] => out = caps
  | Re.Atom a :: l' =>
      ∃ w rest, s = (w ++ rest)%string ∧ atom_match a w ∧ elems_match l' rest caps out
  | Re.Group name_ body :: l' =>
      ∃ w rest, s = (w ++ rest)%string ∧ atoms_match body w
                ∧ elems_match l' rest (caps ++ [(name_, w)]) out
  | Re.EndOfString :: l' =>
      (s = "" ∨ s = String "010" "") ∧ elems_match l' s caps out
  end.

(** A greedy [cls+] ends where the string ends or a character outside
    the class follows. *)
Definition stops (cls : ascii → bool) (rest : string) : Prop :=
  match rest with
  | String c _ => cls c = false
  | EmptyString => True
  end.

(** The date and time of a record: [YYYY-MM-DD], blanks, [HH:MM]. *)
Definition date_time (yyyy mm dd sp hh mi : string) : string :=
  (yyyy ++ "-" ++ mm ++ "-" ++ dd ++ sp ++ hh ++ ":" ++ mi)%string.

(** A path as a line can carry it: no newline, and no blank at either
    end. *)
Definition line_path (p : string) : Prop :=
  all_chars Re.not_newline p = true
  ∧ (∃ c, first_char p = Some c ∧ Re.is_space c = false)
  ∧ (∃ c, last_char p = Some c ∧ Re.is_space c = false).

(** A record of a listing, from its fields and the blanks between them. *)
Definition record_text (perms sp1 repl sp2 owner_ sp3 group_ sp4 size_ sp5
                        dt sp7 path_ : string) : string :=
  (perms ++ sp1 ++ repl ++ sp2 ++ owner_ ++ sp3 ++ group_ ++ sp4 ++ size_ ++ sp5
   ++ dt ++ sp7 ++ path_)%string.

(** The atoms of the [dt_mod] group. *)
Definition dt_mod_atoms : list Re.atom :=
  [Re.Rep 4 Re.is_digit; Re.Lit "-"; Re.Rep 2 Re.is_digit; Re.Lit "-";
   Re.Rep 2 Re.is_digit; Re.Plus Re.is_space;
   Re.Rep 2 Re.is_digit; Re.Lit ":"; Re.Rep 2 Re.is_digit].

(** What the fields of a parsed entry are: pieces of the stripped line, in
    order, between runs of blanks, each of the class of its group. *)
Definition parsed_from (line : string) (i : FSItem) : Prop :=
  ∃ sp1 repl sp2 sp3 sp4 sp5 sp7,
    Re.strip line
    = record_text (item_perms i) sp1 repl sp2 (item_owner i) sp3 (item_group i) sp4
                  (item_size i) sp5 (item_dt_mod i) sp7 (item_path i)
    ∧ field Re.is_space sp1 ∧ field Re.is_digit_or_dash repl ∧ field Re.is_space sp2
    ∧ field Re.is_space sp3 ∧ field Re.is_space sp4 ∧ field Re.is_space sp5
    ∧ field Re.is_space sp7
    ∧ field Re.is_perm (item_perms i)
    ∧ field Re.not_space (item_owner i)
    ∧ field Re.not_space (item_group i)
    ∧ field Re.is_digit (item_size i)
    ∧ atoms_match dt_mod_atoms (item_dt_mod i)
    ∧ field Re.not_newline (item_path i).

(** ** Further notions: the columns of the sort *)

(** The size read through a reference. *)
Definition size_ref (h : heap) (c : nat) : Z := from_option size 0 (h !! c).

(** The columns whose key is a text alone: Modified, Permissions, Owner. *)
Definition text_column (col : Z) : Prop := 2 ≤ col ≤ 4.

(** The attribute that a text column shows. *)
Definition text_of (col : Z) (nd : FSNode) : string :=
  if col =? Column.Modified then modified nd
  else if col =? Column.Permissions then permissions nd
  else owner nd.

Definition text_ref (h : heap) (col : Z) (c : nat) : string :=
  from_option (text_of col) "" (h !! c).

(** Order of the sizes and of the texts, in the direction of the sort. *)
Definition size_order (h : heap) (o : SortOrder) (a b : nat) : Prop :=
  if descending o then size_ref h b ≤ size_ref h a else size_ref h a ≤ size_ref h b.

Definition text_order (h : heap) (col : Z) (o : SortOrder) (a b : nat) : Prop :=
  if descending o then String.leb (text_ref h col b) (text_ref h col a) = true
  else String.leb (text_ref h col a) (text_ref h col b) = true.

(** Folders first and by name, the files after them and by size. *)
Definition folders_first_by_size (h : heap) (o : SortOrder) (a b : nat) : Prop :=
  (is_dir_ref h a = true ∧ is_dir_ref h b = false)
  ∨ (is_dir_ref h a = true ∧ is_dir_ref h b = true ∧ name_order h o a b)
  ∨ (is_dir_ref h a = false ∧ is_dir_ref h b = false ∧ size_order h o a b).

(** The files of one size, and the children of one text in a column. *)
Definition file_of_size (h : heap) (z : Z) (c : nat) : bool :=
  negb (is_dir_ref h c) && Z.eqb (size_ref h c) z.

Definition same_text (h : heap) (col : Z) (t : string) (c : nat) : bool :=
  String.eqb (text_ref h col c) t.

(** ** The item model: [parent], and repeated fetches *)

(** The indexes that the methods are modelled on: the invalid index, and
    an index made by [createIndex] from a row and a column that are not
    negative.  [isValid] refuses the others, which no caller makes. *)
Definition proper_index (index_ : QModelIndex) : Prop :=
  match index_ with
  | InvalidIndex => True
  | createIndex row column _ => 0 ≤ row ∧ 0 ≤ column
  end.

(** [l.index(x)]: the first position of [x]; [None] is [ValueError].
    Nodes have no [__eq__], so [==] is the identity of the reference. *)
Fixpoint list_index (x : nat) (l : list nat) : option nat :=
  match l with
  | [] => None
  | y :: l' => if decide (y = x) then Some 0%nat else S <$> list_index x l'
  end.

(** The message of the [ValueError] of [list.index].  It shows the object
    by its default [repr], which names the address; the reference stands
    for it. *)
Definition not_in_list (x : nat) : exn :=
  ValueError ("<FSNode object at " ++ PyStr.str_of_int (Z.of_nat x) ++ "> is not in list")%string.

(** [FSModel.parent].  An index made by [createIndex] is a valid one. *)
Definition FSModel_parent (m : FSModel) (h : heap) (index_ : QModelIndex)
    : outcome QModelIndex :=
  match index_ with
  | InvalidIndex => Ok InvalidIndex
  | createIndex _ _ child_item =>
      match h !! child_item with
      | None => Dangling
      | Some child =>
          match parent child with
          | None => Ok InvalidIndex
          | Some p_item =>
              if decide (p_item = root_node m) then Ok InvalidIndex
              else
                match h !! p_item with
                | None => Dangling
                | Some p_node =>
                    let grandparent := default (root_node m) (parent p_node) in
                    match h !! grandparent with
                    | None => Dangling
                    | Some g_node =>
                        match list_index p_item (visible_children g_node) with
                        | Some row => Ok (createIndex (Z.of_nat row) 0 p_item)
                        | None => Raise (not_in_list p_item)
                        end
                    end
                end
          end
      end
  end.

(** [k] calls of [fetchMore] on one index, as the view makes them while
    it scrolls. *)
Fixpoint fetchMore_times (k : nat) (m : FSModel) (h : heap) (parent_ : QModelIndex)
    : option heap :=
  match k with
  | O => Some h
  | S k' => '(h', _) ← fetchMore m h parent_; fetchMore_times k' m h' parent_
  end.

(** ** The window: what is expanded *)

(** Exceptions met in the methods of the window: those of the sort, the
    [AssertionError] of [assert self.model], the [AttributeError] of
    [self.model.sorting] while the view has set no sorting, and the
    [IndexError] of [FSModel.index]. *)
Inductive view_exn :=
  | SortError (e : exn)
  | AssertionError
  | AttributeError
  | IndexError.

(** The result of a method of the window.  [NoObject] stands for the use
    of a reference that is not in the heap, and [NoFuel] for a recursion
    deeper than the bound given. *)
Inductive result (A : Type) :=
  | Returns (a : A)
  | Raises (e : view_exn)
  | NoObject
  | NoFuel.
Arguments Returns {A} a.
Arguments Raises {A} e.
Arguments NoObject {A}.
Arguments NoFuel {A}.

Global Instance result_ret : MRet result := @Returns.
Global Instance result_bind : MBind result := λ A B f r,
  match r with
  | Returns a => f a
  | Raises e => Raises e
  | NoObject => NoObject
  | NoFuel => NoFuel
  end.

(** [self.model.index(i, 0, index)] as the generator [_children_indices]
    calls it. *)
Definition index_row (m : FSModel) (h : heap) (i : Z) (index_ : QModelIndex)
    : result QModelIndex :=
  match h !! p_item_of m index_ with
  | None => NoObject
  | Some _ =>
      match index m h i 0 index_ with
      | Some child_index => Returns child_index
      | None => Raises IndexError
      end
  end.

(** [node.sort(sorting)] inside a method of the window. *)
Definition sort_result (node : nat) (s : Sorting) (h : heap) : result heap :=
  match sort node s h with
  | Ok h' => Returns h'
  | Raise e => Raises (SortError e)
  | Dangling => NoObject
  end.

Section view.

(** [self.tree_view.isExpanded]: what the view holds for an index.  No
    method modelled here changes it. *)
Variable isExpanded : QModelIndex → bool.

(** The loop of [sort_expanded]
    [for child_index in self._children_indices(index):
       if self.tree_view.isExpanded(child_index): body(child_index)]
    from row [i] of a range with [remaining] rows left.  The generator makes
    each index when it is asked for it, from the heap of that moment. *)
Fixpoint for_expanded (body : QModelIndex → heap → result heap) (m : FSModel)
    (index_ : QModelIndex) (i : Z) (remaining : nat) (h : heap) : result heap :=
  match remaining with
  | O => Returns h
  | S remaining' =>
      child_index ← index_row m h i index_;
      h' ← (if isExpanded child_index then body child_index h else Returns h);
      for_expanded body m index_ (i + 1) remaining' h'
  end.

(** [HdfsExplorer.sort_expanded].  An index made by [createIndex] is a
    valid one. *)
Fixpoint sort_expanded (fuel : nat) (model : option FSModel) (index_ : QModelIndex)
    (h : heap) : result heap :=
  match fuel with
  | O => NoFuel
  | S fuel' =>
      match model with
      | None => Raises AssertionError
      | Some m =>
          let children h1 :=
            match rowCount m h1 index_ with
            | None => NoObject
            | Some n =>
                for_expanded (sort_expanded fuel' model) m index_ 0 (Z.to_nat n) h1
            end in
          match index_ with
          | InvalidIndex => children h
          | createIndex _ _ node =>
              match h !! node with
              | None => NoObject
              | Some nd =>
                  if negb (is_dir nd) then Returns h
                  else
                    match rowCount m h index_ with
                    | None => NoObject
                    | Some n =>
                        if 1 <? n then
                          match sorting m with
                          | None => Raises AttributeError
                          | Some s => h1 ← sort_result node s h; children h1
                          end
                        else children h
                    end
              end
          end
      end
  end.

(** The loop of [save_expansion_state], with the set [expanded_nodes] it
    fills.  Nodes have the hash of their identity: the set is a set of
    references. *)
Fixpoint collect_expanded (rec : QModelIndex → result (gset nat)) (m : FSModel)
    (h : heap) (index_ : QModelIndex) (i : Z) (remaining : nat)
    (expanded_nodes : gset nat) : result (gset nat) :=
  match remaining with
  | O => Returns expanded_nodes
  | S remaining' =>
      child_idx ← index_row m h i index_;
      if negb (isExpanded child_idx) then
        collect_expanded rec m h index_ (i + 1) remaining' expanded_nodes
      else
        match child_idx with
        | InvalidIndex => NoObject
        | createIndex _ _ node =>
            below ← rec child_idx;
            collect_expanded rec m h index_ (i + 1) remaining'
              (expanded_nodes ∪ {[node]} ∪ below)
        end
  end.

(** [HdfsExplorer.save_expansion_state]: without a model the generator
    yields nothing. *)
Fixpoint save_expansion_state (fuel : nat) (model : option FSModel) (h : heap)
    (index_ : QModelIndex) : result (gset nat) :=
  match fuel with
  | O => NoFuel
  | S fuel' =>
      match model with
      | None => Returns ∅
      | Some m =>
          match rowCount m h index_ with
          | None => NoObject
          | Some n =>
              collect_expanded (save_expansion_state fuel' model h) m h index_
                               0 (Z.to_nat n) ∅
          end
      end
  end.

(** The nodes at the end of a chain of expanded rows below an index: each
    row is one that the model counts, and its index is expanded. *)
Inductive expanded_below (m : FSModel) (h : heap) : QModelIndex → nat → Prop :=
  | expanded_row index_ n i node :
      rowCount m h index_ = Some n → 0 ≤ i < n →
      index m h i 0 index_ = Some (createIndex i 0 node) →
      isExpanded (createIndex i 0 node) = true →
      expanded_below m h index_ node
  | expanded_deeper index_ n i node q :
      rowCount m h index_ = Some n → 0 ≤ i < n →
      index m h i 0 index_ = Some (createIndex i 0 node) →
      isExpanded (createIndex i 0 node) = true →
      expanded_below m h (createIndex i 0 node) q →
      expanded_below m h index_ q.

End view.

(** Two heaps that differ in the order of the visible children of their
    nodes and in the sorting recorded, which is the old one or [s]. *)
Definition reordered (s : Sorting) (h h' : heap) : Prop :=
  Forall2 (λ a b, ∃ vis st,
             b = set_children (all_children a) vis st a
             ∧ vis ≡ₚ visible_children a
             ∧ (st = current_sort_state a ∨ st = Some s)) h h'.
(** ** Strings *)

Section strings.

Lemma append_String (c : ascii) (a b : string) :
  (String c a ++ b)%string = String c (a ++ b)%string.
Proof. reflexivity. Qed.

Lemma append_empty (b : string) : ("" ++ b)%string = b.
Proof. reflexivity. Qed.

Lemma prefix_app (pat s : string) :
  String.prefix pat s = true ↔ ∃ b, s = (pat ++ b)%string.
Proof.
  revert s. induction pat as [|c pat IH]; intros s.
  - destruct s; simpl; split; eauto.
  - destruct s as [|c' s]; simpl.
    + split; [done | by intros [b ?]].
    + destruct (ascii_dec c c') as [->|Hne].
      * rewrite IH. split; intros [b Hb]; exists b;
          rewrite append_String in *; congruence.
      * split; [done | intros [b Hb]; rewrite append_String in Hb; congruence].
Qed.

Lemma str_in_nil (pat : string) :
  PyStr.str_in pat "" = String.prefix pat "" || false.
Proof. reflexivity. Qed.

Lemma str_in_cons (pat : string) (c : ascii) (s : string) :
  PyStr.str_in pat (String c s) = String.prefix pat (String c s) || PyStr.str_in pat s.
Proof. reflexivity. Qed.

(** [str_in] is substring containment. *)
Lemma str_in_spec (pat s : string) :
  PyStr.str_in pat s = true ↔ ∃ a b, s = (a ++ pat ++ b)%string.
Proof.
  induction s as [|c s IH].
  - rewrite str_in_nil, orb_false_r, prefix_app. split.
    + intros [b Hb]. by exists "", b.
    + intros ([|? a] & b & Hb); [by exists b | done].
  - rewrite str_in_cons, orb_true_iff, prefix_app, IH. split.
    + intros [[b Hb] | (a & b & Hb)].
      * by exists "", b.
      * exists (String c a), b. rewrite append_String. congruence.
    + intros ([|c' a] & b & Hb).
      * left. by exists b.
      * right. exists a, b. rewrite append_String in Hb. congruence.
Qed.

Lemma str_in_empty (s : string) : PyStr.str_in "" s = true.
Proof. destruct s; reflexivity. Qed.

Lemma is_empty_spec (s : string) : PyStr.is_empty s = true ↔ s = "".
Proof. by destruct s. Qed.

Lemma ascii_compare_refl (c : ascii) : Ascii.compare c c = Eq.
Proof. apply N.compare_refl. Qed.

Lemma string_compare_refl (s : string) : String.compare s s = Eq.
Proof. induction s; simpl; [done|]. by rewrite ascii_compare_refl. Qed.

Lemma ascii_compare_trans (c : comparison) (a b d : ascii) :
  Ascii.compare a b = c → Ascii.compare b d = c → Ascii.compare a d = c.
Proof.
  unfold Ascii.compare. destruct c.
  - rewrite !N.compare_eq_iff. congruence.
  - rewrite !N.compare_lt_iff. lia.
  - rewrite !N.compare_gt_iff. lia.
Qed.

Lemma string_compare_trans (c : comparison) (s t u : string) :
  String.compare s t = c → String.compare t u = c → String.compare s u = c.
Proof.
  revert t u. induction s as [|a s IH]; intros [|b t] [|d u]; simpl; try congruence.
  destruct (Ascii.compare a b) eqn:Hab, (Ascii.compare b d) eqn:Hbd; intros H1 H2;
    try congruence;
    try (rewrite (ascii_compare_trans _ a b d Hab Hbd); by eauto).
  - apply Ascii.compare_eq_iff in Hab. subst b. by rewrite Hbd.
  - apply Ascii.compare_eq_iff in Hab. subst b. by rewrite Hbd.
  - apply Ascii.compare_eq_iff in Hbd. subst d. by rewrite Hab.
  - apply Ascii.compare_eq_iff in Hbd. subst d. by rewrite Hab.
Qed.

Lemma string_leb_trans (s t u : string) :
  String.leb s t = true → String.leb t u = true → String.leb s u = true.
Proof.
  unfold String.leb.
  destruct (String.compare s t) eqn:Hst; [| |done];
    destruct (String.compare t u) eqn:Htu; try done; intros _ _.
  - apply String.compare_eq_iff in Hst as ->. by rewrite Htu.
  - apply String.compare_eq_iff in Hst as ->. by rewrite Htu.
  - apply String.compare_eq_iff in Htu as ->. by rewrite Hst.
  - by rewrite (string_compare_trans Lt s t u).
Qed.

End strings.

(** ** Nodes and the heap *)

Section nodes.

Lemma set_visible_children_twice (v w : list nat) (nd : FSNode) :
  set_visible_children v (set_visible_children w nd) = set_visible_children v nd.
Proof. reflexivity. Qed.

Lemma set_visible_children_id (nd : FSNode) :
  set_visible_children (visible_children nd) nd = nd.
Proof. by destruct nd. Qed.

Lemma lookup_insert_self (h : heap) (n : nat) (nd nd' : FSNode) :
  h !! n = Some nd → <[n := nd']> h !! n = Some nd'.
Proof. intros H. apply list_lookup_insert_eq. by eapply lookup_lt_Some. Qed.

(** A fresh node has no child and the whole batch as its cursor. *)
Lemma FSNode_init_fetched p sz md pm ow pr :
  fetched_items (FSNode_init p sz md pm ow pr) = 10000
  ∧ BATCH (FSNode_init p sz md pm ow pr) = 10000
  ∧ visible_children (FSNode_init p sz md pm ow pr) = []
  ∧ all_children (FSNode_init p sz md pm ow pr) = []
  ∧ current_sort_state (FSNode_init p sz md pm ow pr) = None.
Proof. done. Qed.

Lemma append_child_other (h h' : heap) (self child n : nat) :
  append_child self child h = Some h' → n ≠ self → h' !! n = h !! n.
Proof.
  unfold append_child. intros H Hne.
  destruct (h !! self) as [nd|] eqn:E; simplify_eq/=.
  by apply list_lookup_insert_ne.
Qed.

End nodes.

(** ** Batched fetch *)

Section fetch.

Lemma len_nonneg {A} (l : list A) : 0 ≤ len l.
Proof. unfold len. lia. Qed.

(** The rows a view may address never pass the visible children. *)
Lemma rowCount_bound (m : FSModel) (h : heap) (parent : QModelIndex) (nd : FSNode) :
  h !! p_item_of m parent = Some nd →
  ∃ n, rowCount m h parent = Some n ∧ n ≤ len (visible_children nd) ∧ n ≤ fetched_items nd.
Proof.
  intros H. unfold rowCount. rewrite H. simpl.
  eexists. split; [done|]. lia.
Qed.

Lemma fetchMore_eq (m : FSModel) (h : heap) (parent : QModelIndex) (nd : FSNode) :
  h !! p_item_of m parent = Some nd →
  fetchMore m h parent =
    Some (<[p_item_of m parent :=
              set_fetched_items (Z.min (fetched_items nd + BATCH nd)
                                       (len (visible_children nd))) nd]> h,
          {| ins_parent := parent; ins_first := fetched_items nd;
             ins_last := Z.min (fetched_items nd + BATCH nd)
                               (len (visible_children nd)) - 1 |}).
Proof. intros H. unfold fetchMore. by rewrite H. Qed.

(** When the view may fetch, the call materializes at least one row. *)
Lemma canFetchMore_true (h : heap) (r c : Z) (p : nat) (nd : FSNode) :
  h !! p = Some nd →
  canFetchMore h (createIndex r c p) = Some true ↔
  fetched_items nd < len (visible_children nd).
Proof.
  intros H. unfold canFetchMore. rewrite H. simpl.
  destruct (Z.ltb_spec (fetched_items nd) (len (visible_children nd)));
    split; intros; try done; try lia.
Qed.

End fetch.

(** ** Heaps with the same skeleton *)

Section skeleton.

Lemma same_skeleton_refl (h : heap) : same_skeleton h h.
Proof.
  apply Forall2_same_length_lookup. split; [done|].
  intros i a b Ha Hb. simplify_eq. exists (visible_children a).
  by rewrite set_visible_children_id.
Qed.

Lemma same_skeleton_sym (h g : heap) : same_skeleton h g → same_skeleton g h.
Proof.
  intros H. apply Forall2_flip. eapply Forall2_impl; [exact H|].
  intros a b [v ->]. exists (visible_children a). simpl.
  by destruct a.
Qed.

Lemma same_skeleton_trans (h g k : heap) :
  same_skeleton h g → same_skeleton g k → same_skeleton h k.
Proof.
  intros H1 H2. eapply Forall2_trans; [|exact H1|exact H2].
  intros a b c [v ->] [w ->]. by exists w.
Qed.

Lemma same_skeleton_length (h g : heap) :
  same_skeleton h g → List.length g = List.length h.
Proof. intros H. symmetry. by eapply Forall2_length. Qed.

Lemma same_skeleton_lookup (h g : heap) (n : nat) (a : FSNode) :
  same_skeleton h g → h !! n = Some a →
  ∃ v, g !! n = Some (set_visible_children v a).
Proof.
  intros H Ha. destruct (Forall2_lookup_l _ _ _ _ _ H Ha) as (b & Hb & v & ->).
  by exists v.
Qed.

Lemma same_skeleton_lookup_None (h g : heap) (n : nat) :
  same_skeleton h g → h !! n = None → g !! n = None.
Proof.
  intros H. rewrite !lookup_ge_None. by rewrite (same_skeleton_length h g).
Qed.

Lemma same_skeleton_insert (h : heap) (n : nat) (nd : FSNode) (v : list nat) :
  h !! n = Some nd → same_skeleton h (<[n := set_visible_children v nd]> h).
Proof.
  intros Hn. apply Forall2_same_length_lookup. split.
  - by rewrite length_insert.
  - intros i a b Ha Hb. destruct (decide (i = n)) as [->|Hne].
    + rewrite (lookup_insert_self h n nd) in Hb by done. simplify_eq. by exists v.
    + rewrite list_lookup_insert_ne in Hb by done. simplify_eq.
      exists (visible_children a). by rewrite set_visible_children_id.
Qed.

Lemma same_skeleton_is_dir_ref (h g : heap) (c : nat) :
  same_skeleton h g → is_dir_ref g c = is_dir_ref h c.
Proof.
  intros H. unfold is_dir_ref. destruct (h !! c) as [a|] eqn:Ha.
  - destruct (same_skeleton_lookup h g c a H Ha) as [v ->]. done.
  - by rewrite (same_skeleton_lookup_None h g c H Ha).
Qed.

Lemma same_skeleton_name_lower_ref (h g : heap) (c : nat) :
  same_skeleton h g → name_lower_ref g c = name_lower_ref h c.
Proof.
  intros H. unfold name_lower_ref. destruct (h !! c) as [a|] eqn:Ha.
  - destruct (same_skeleton_lookup h g c a H Ha) as [v ->]. done.
  - by rewrite (same_skeleton_lookup_None h g c H Ha).
Qed.

Lemma same_skeleton_spec_filter (h g : heap) (p : string) (nd : FSNode) (v : list nat) :
  same_skeleton h g →
  spec_filter g p (set_visible_children v nd) = spec_filter h p nd.
Proof.
  intros H. unfold spec_filter. simpl. apply List.filter_ext. intros c.
  unfold spec_visible.
  by rewrite (same_skeleton_is_dir_ref h g), (same_skeleton_name_lower_ref h g).
Qed.

Lemma same_skeleton_filter_children (h g : heap) (p : string) (cs : list nat) :
  same_skeleton h g → filter_children g p cs = filter_children h p cs.
Proof.
  intros H. induction cs as [|c cs IH]; simpl; [done|].
  destruct (h !! c) as [a|] eqn:Ha.
  - destruct (same_skeleton_lookup h g c a H Ha) as [v ->]. simpl. by rewrite IH.
  - by rewrite (same_skeleton_lookup_None h g c H Ha).
Qed.

Lemma same_skeleton_forward (h g : heap) :
  same_skeleton h g → forward h → forward g.
Proof.
  intros H Hf n nd c Hn Hc.
  destruct (same_skeleton_lookup g h n nd (same_skeleton_sym _ _ H) Hn) as [v Hv].
  rewrite (same_skeleton_length h g H). eapply Hf; [exact Hv|done].
Qed.

Lemma same_skeleton_dir_reachable (h g : heap) (a n : nat) :
  same_skeleton h g → dir_reachable h a n → dir_reachable g a n.
Proof.
  intros H. induction 1 as [a|a nd c child n Ha Hc Hch Hd _ IH].
  - constructor.
  - destruct (same_skeleton_lookup h g a nd H Ha) as [v Hv].
    destruct (same_skeleton_lookup h g c child H Hch) as [w Hw].
    by eapply dir_reachable_child; [exact Hv| |exact Hw| |].
Qed.

End skeleton.

(** ** The filter engine *)

Section filter.

(** The comprehension computes the filter of the design. *)
Lemma filter_children_spec (h : heap) (p : string) (cs : list nat) :
  children_valid h cs →
  filter_children h p cs =
    Some (List.filter (λ c, is_dir_ref h c || PyStr.str_in p (name_lower_ref h c)) cs).
Proof.
  induction 1 as [|c cs [child Hc] _ IH]; simpl; [done|].
  rewrite Hc, IH. simpl. unfold is_dir_ref, name_lower_ref. rewrite Hc. simpl.
  by rewrite orb_comm.
Qed.

Lemma filter_children_valid (h : heap) (p : string) (cs vis : list nat) :
  filter_children h p cs = Some vis → children_valid h cs.
Proof.
  revert vis. induction cs as [|c cs IH]; intros vis; simpl; [constructor|].
  destruct (h !! c) eqn:Hc; simpl; [|done].
  destruct (filter_children h p cs) eqn:Hf; simpl; [|done].
  intros _. constructor; [by rewrite Hc|by eapply IH].
Qed.

Lemma spec_filter_empty (h : heap) (nd : FSNode) (p : string) :
  PyStr.is_empty p = true → spec_filter h p nd = all_children nd.
Proof.
  intros Hp. unfold spec_filter, spec_visible. rewrite Hp. simpl.
  induction (all_children nd); simpl; congruence.
Qed.

Lemma spec_filter_nonempty (h : heap) (nd : FSNode) (p : string) :
  PyStr.is_empty p = false →
  spec_filter h p nd =
    List.filter (λ c, is_dir_ref h c || PyStr.str_in p (name_lower_ref h c))
                (all_children nd).
Proof. intros Hp. unfold spec_filter, spec_visible. by rewrite Hp. Qed.

(** The list that [apply_filter] assigns is [spec_filter]. *)
Lemma computed_filter_spec (h : heap) (p : string) (nd : FSNode) (vis : list nat) :
  (if PyStr.is_empty p then Some (all_children nd)
   else filter_children h p (all_children nd)) = Some vis →
  vis = spec_filter h p nd.
Proof.
  destruct (PyStr.is_empty p) eqn:Hp.
  - intros [= <-]. by rewrite spec_filter_empty.
  - intros Hf. pose proof (filter_children_valid _ _ _ _ Hf) as Hv.
    rewrite (filter_children_spec h p _ Hv) in Hf. simplify_eq.
    by rewrite spec_filter_nonempty.
Qed.

(** Loops over references. *)
Lemma for_each_inv (I : heap → Prop) body (cs : list nat) (h h' : heap) :
  I h →
  (∀ c g g', c ∈ cs → I g → body c g = Some g' → I g') →
  for_each body cs h = Some h' → I h'.
Proof.
  revert h. induction cs as [|c cs IH]; intros h Hh Hstep; simpl.
  - by intros [= <-].
  - destruct (body c h) as [g|] eqn:Hb; simpl; [|done].
    apply IH.
    + eapply Hstep; [left|exact Hh|exact Hb].
    + intros c' a a' Hc'. apply Hstep. by right.
Qed.

Lemma for_each_at (I Q : heap → Prop) body (cs : list nat) (c : nat) (h h' : heap) :
  c ∈ cs → I h →
  (∀ c' g g', c' ∈ cs → I g → body c' g = Some g' → I g') →
  (∀ g g', I g → body c g = Some g' → Q g') →
  (∀ c' g g', c' ∈ cs → I g → Q g → body c' g = Some g' → Q g') →
  for_each body cs h = Some h' → Q h'.
Proof.
  intros Hc Hh HI Hat HQ. revert h Hh.
  induction cs as [|c0 cs IH]; intros h Hh; [by apply not_elem_of_nil in Hc|].
  simpl. destruct (body c0 h) as [g|] eqn:Hb; simpl; [|done].
  assert (I g) as Hg by (eapply HI; [left|exact Hh|exact Hb]).
  apply elem_of_cons in Hc as [->|Hc].
  - assert (Q g) as Hq by (eapply Hat; [exact Hh|exact Hb]).
    intros Hl. apply (for_each_inv (λ g, I g ∧ Q g)) in Hl; [tauto|done|].
    intros c' a a' Hc' [Ha Hqa] Hba. split.
    + eapply HI; [by right|exact Ha|exact Hba].
    + eapply HQ; [by right|exact Ha|exact Hqa|exact Hba].
  - apply IH; [done| | |done].
    + intros c' a a' Hc'. apply HI. by right.
    + intros c' a a' Hc'. apply HQ. by right.
Qed.

Lemma for_each_rel (R : heap → heap → Prop) body (cs : list nat) (h g h' : heap) :
  R h g →
  (∀ c a b a', c ∈ cs → R a b → body c a = Some a' →
               ∃ b', body c b = Some b' ∧ R a' b') →
  for_each body cs h = Some h' →
  ∃ g', for_each body cs g = Some g' ∧ R h' g'.
Proof.
  revert h g. induction cs as [|c cs IH]; intros h g HR Hstep; simpl.
  - intros [= <-]. by exists g.
  - destruct (body c h) as [a'|] eqn:Hb; simpl; [|done].
    destruct (Hstep c h g a') as (b' & Hb' & HR'); [left|done|done|].
    rewrite Hb'. simpl. apply IH; [done|].
    intros c' a b a0 Hc'. apply Hstep. by right.
Qed.

Lemma for_each_is_Some (I : heap → Prop) body (cs : list nat) (h : heap) :
  I h →
  (∀ c g, c ∈ cs → I g → ∃ g', body c g = Some g' ∧ I g') →
  ∃ h', for_each body cs h = Some h' ∧ I h'.
Proof.
  revert h. induction cs as [|c cs IH]; intros h Hh Hstep; simpl.
  - by exists h.
  - destruct (Hstep c h) as (g' & Hb & Hg'); [left|done|].
    rewrite Hb. simpl. apply IH; [done|].
    intros c' g Hc'. apply Hstep. by right.
Qed.

(** One unfolding of [apply_filter]. *)
Lemma apply_filter_unfold (fuel self : nat) (p : string) (h h' : heap) :
  apply_filter (S fuel) self p h = Some h' →
  ∃ nd, h !! self = Some nd ∧
    (if PyStr.is_empty p then Some (all_children nd)
     else filter_children h p (all_children nd)) = Some (spec_filter h p nd) ∧
    for_each
      (λ c g, child ← g !! c;
              if is_dir child then apply_filter fuel c p g else Some g)
      (all_children nd)
      (<[self := set_visible_children (spec_filter h p nd) nd]> h) = Some h'.
Proof.
  simpl. destruct (h !! self) as [nd|] eqn:Hs; simpl; [|done].
  destruct (if PyStr.is_empty p then _ else _) as [vis|] eqn:Hv; simpl; [|done].
  intros H. exists nd. split; [done|].
  pose proof (computed_filter_spec h p nd vis Hv) as ->. done.
Qed.

(** The filter writes [visible_children] only. *)
Lemma apply_filter_skeleton (fuel self : nat) (p : string) (h h' : heap) :
  apply_filter fuel self p h = Some h' → same_skeleton h h'.
Proof.
  revert self h h'. induction fuel as [|fuel IH]; intros self h h' H; [discriminate H|].
  apply apply_filter_unfold in H as (nd & Hs & _ & Hloop).
  eapply (for_each_inv (same_skeleton h)); [|
    |exact Hloop].
  - by apply same_skeleton_insert.
  - intros c g g' _ Hg Hb.
    cbv beta in Hb.
    destruct (g !! c) as [child|]; simpl in Hb; [|done].
    destruct (is_dir child); simplify_eq; [|done].
    eapply same_skeleton_trans; [exact Hg|by eapply IH].
Qed.

(** A node that the filter changes is one it visits. *)
Lemma apply_filter_frame (fuel self : nat) (p : string) (h h' : heap) (n : nat) :
  apply_filter fuel self p h = Some h' →
  h' !! n = h !! n ∨ dir_reachable h self n.
Proof.
  revert self h h'. induction fuel as [|fuel IH]; intros self h h' H; [discriminate H|].
  apply apply_filter_unfold in H as (nd & Hs & _ & Hloop).
  destruct (decide (n = self)) as [->|Hne]; [right; constructor|].
  apply (for_each_inv
           (λ g, same_skeleton h g ∧ (g !! n = h !! n ∨ dir_reachable h self n)))
    in Hloop; [tauto| |].
  - split; [by apply same_skeleton_insert|].
    left. by apply list_lookup_insert_ne.
  - intros c g g' Hc [Hg Hn] Hb.
    cbv beta in Hb.
    destruct (g !! c) as [child|] eqn:Hgc; simpl in Hb; [|done].
    destruct (is_dir child) eqn:Hd; simplify_eq; [|done].
    split.
    { eapply same_skeleton_trans; [exact Hg|by eapply apply_filter_skeleton]. }
    destruct Hn as [Hn|Hn]; [|by right].
    destruct (IH _ _ _ Hb) as [Hn'|Hr]; [left; congruence|].
    right.
    destruct (same_skeleton_lookup g h c child (same_skeleton_sym _ _ Hg) Hgc)
      as [w Hw].
    eapply dir_reachable_child; [exact Hs|exact Hc|exact Hw|done|].
    apply (same_skeleton_dir_reachable g h); [by apply same_skeleton_sym|done].
Qed.

(** Every node the filter visits gets the filtered list of its children. *)
Lemma apply_filter_reach (fuel self : nat) (p : string) (h h' : heap) (n : nat)
    (nd : FSNode) :
  apply_filter fuel self p h = Some h' →
  dir_reachable h self n → h !! n = Some nd →
  h' !! n = Some (set_visible_children (spec_filter h p nd) nd).
Proof.
  revert self h h' nd. induction fuel as [|fuel IH]; intros self h h' nd H; [discriminate H|].
  intros Hr Hn.
  apply apply_filter_unfold in H as (nd0 & Hs & _ & Hloop).
  set (I := λ g : heap, same_skeleton h g).
  set (Q := λ g : heap,
         g !! n = Some (set_visible_children (spec_filter h p nd) nd)).
  assert (Hbody_I : ∀ c g g', I g →
            (child ← g !! c;
             if is_dir child then apply_filter fuel c p g else Some g) = Some g' →
            I g').
  { intros c g g' Hg Hb.
    cbv beta in Hb.
    destruct (g !! c) as [child|]; simpl in Hb; [|done].
    destruct (is_dir child); simplify_eq; [|done].
    eapply same_skeleton_trans; [exact Hg|by eapply apply_filter_skeleton]. }
  assert (Hbody_Q : ∀ c g g', I g → Q g →
            (child ← g !! c;
             if is_dir child then apply_filter fuel c p g else Some g) = Some g' →
            Q g').
  { intros c g g' Hg Hq Hb.
    cbv beta in Hb.
    destruct (g !! c) as [child|]; simpl in Hb; [|done].
    destruct (is_dir child); simplify_eq; [|done].
    unfold Q. destruct (apply_filter_frame _ _ _ _ _ n Hb) as [Hsame|Hr'].
    - by rewrite Hsame.
    - rewrite (IH _ _ _ _ Hb Hr' Hq).
      by rewrite (same_skeleton_spec_filter h g). }
  assert (I (<[self := set_visible_children (spec_filter h p nd0) nd0]> h)) as HI0
    by (by apply same_skeleton_insert).
  inversion Hr as [a E1 E2|a nd1 c child m Ha Hc Hch Hd Hr' E1 E2].
  - (* the node itself *)
    apply (for_each_inv (λ g, I g ∧ Q g)) in Hloop; [tauto| |].
    + split; [done|]. unfold Q. rewrite <- E2 in *.
      assert (nd0 = nd) as -> by congruence.
      by apply (lookup_insert_self h self nd).
    + intros c g g' _ [Hg Hq] Hb. split; eauto.
  - (* below a directory child *)
    assert (nd1 = nd0) as -> by congruence.
    eapply (for_each_at I Q); [exact Hc|exact HI0| | | |exact Hloop].
    + intros c' g g' _. apply Hbody_I.
    + intros g g' Hg Hb.
      destruct (same_skeleton_lookup h g c child Hg Hch) as [w Hw].
      cbv beta in Hb. rewrite Hw in Hb. simpl in Hb. rewrite Hd in Hb.
      destruct (same_skeleton_lookup h g n nd Hg Hn) as [v Hv].
      unfold Q. rewrite (IH _ _ _ _ Hb (same_skeleton_dir_reachable h g c n Hg Hr') Hv).
      by rewrite (same_skeleton_spec_filter h g).
    + intros c' g g' _. apply Hbody_Q.
Qed.

(** Whether the filter returns depends on the skeleton only. *)
Lemma apply_filter_skeleton_Some (fuel self : nat) (p : string) (h g h' : heap) :
  same_skeleton h g → apply_filter fuel self p h = Some h' →
  ∃ g', apply_filter fuel self p g = Some g'.
Proof.
  revert self h g h'. induction fuel as [|fuel IH]; intros self h g h' Hg H; [discriminate H|].
  pose proof H as H0.
  apply apply_filter_unfold in H as (nd & Hs & Hv & Hloop).
  destruct (same_skeleton_lookup h g self nd Hg Hs) as [v Hgs].
  simpl. rewrite Hgs. simpl.
  rewrite (same_skeleton_filter_children h g p _ Hg), Hv. simpl.
  eapply (for_each_rel same_skeleton) in Hloop as (g' & Hg' & _).
  - exists g'. exact Hg'.
  - eapply same_skeleton_trans; [apply same_skeleton_sym, same_skeleton_insert, Hs|].
    eapply same_skeleton_trans; [exact Hg|].
    apply (same_skeleton_insert g self (set_visible_children v nd)
                                (spec_filter h p nd)), Hgs.
  - intros c a b a' _ Hab Hb.
    cbv beta in Hb.
    destruct (a !! c) as [child|] eqn:Hac; simpl in Hb; [|done].
    destruct (same_skeleton_lookup a b c child Hab Hac) as [w Hw].
    rewrite Hw. simpl.
    destruct (is_dir child); simplify_eq; [|by exists b].
    destruct (IH _ _ _ _ Hab Hb) as [b' Hb'].
    exists b'. split; [done|].
    eapply same_skeleton_trans;
      [apply same_skeleton_sym; by eapply apply_filter_skeleton|].
    eapply same_skeleton_trans; [exact Hab|by eapply apply_filter_skeleton].
Qed.

(** On a heap whose children follow their parent the recursion ends. *)
Lemma apply_filter_terminates (fuel self : nat) (p : string) (h : heap) :
  forward h → (self < List.length h)%nat → (List.length h - self ≤ fuel)%nat →
  ∃ h', apply_filter fuel self p h = Some h'.
Proof.
  revert self h. induction fuel as [|fuel IH]; intros self h Hf Hs Hfuel; [lia|].
  destruct (lookup_lt_is_Some_2 h self Hs) as [nd Hnd].
  assert (children_valid h (all_children nd)) as Hv.
  { apply Forall_forall. intros c Hc. apply lookup_lt_is_Some.
    by apply (Hf self nd c Hnd). }
  simpl. rewrite Hnd. simpl.
  assert (∃ vis, (if PyStr.is_empty p then Some (all_children nd)
                  else filter_children h p (all_children nd)) = Some vis)
    as [vis ->].
  { destruct (PyStr.is_empty p); [by eexists|]. rewrite filter_children_spec by done.
    by eexists. }
  simpl.
  destruct (for_each_is_Some (same_skeleton h)
              (λ c g, child ← g !! c;
                      if is_dir child then apply_filter fuel c p g else Some g)
              (all_children nd) (<[self := set_visible_children vis nd]> h))
    as (h' & Hh' & _); [by apply same_skeleton_insert| |by exists h'].
  intros c g Hc Hg.
  pose proof (Hf self nd c Hnd Hc) as Hlt.
  pose proof (same_skeleton_length h g Hg) as Hlen.
  destruct (lookup_lt_is_Some_2 g c) as [child Hchild]; [lia|].
  rewrite Hchild. simpl.
  destruct (is_dir child); [|by exists g].
  destruct (IH c g) as [g' Hg']; [by eapply same_skeleton_forward|lia|lia|].
  exists g'. split; [done|].
  eapply same_skeleton_trans; [exact Hg|by eapply apply_filter_skeleton].
Qed.

End filter.

(** ** Comparison of sort keys *)

Section keys.

Lemma bool_compare_trans (c : comparison) (a b d : bool) :
  Bool.compare a b = c → Bool.compare b d = c → Bool.compare a d = c.
Proof. destruct a, b, d; simpl; congruence. Qed.

Lemma bool_compare_eq (a b : bool) : Bool.compare a b = Eq → a = b.
Proof. by destruct a, b. Qed.

Lemma val_compare_eq (a b : pyval) : val_compare a b = Eq → a = b.
Proof.
  destruct a, b; simpl; try done.
  - intros H. by apply String.compare_eq_iff in H as ->.
  - intros H. by apply Z.compare_eq in H as ->.
Qed.

Lemma val_compare_refl (a : pyval) : val_compare a a = Eq.
Proof. destruct a; simpl; [apply string_compare_refl|apply Z.compare_refl]. Qed.

Lemma val_compare_trans (c : comparison) (a b d : pyval) :
  val_compare a b = c → val_compare b d = c → val_compare a d = c.
Proof.
  destruct a, b, d; simpl; try congruence.
  - apply string_compare_trans.
  - destruct c.
    + rewrite !Z.compare_eq_iff. congruence.
    + rewrite !Z.compare_lt_iff. lia.
    + rewrite !Z.compare_gt_iff. lia.
Qed.

Lemma val_compare_antisym (a b : pyval) :
  val_compare a b = CompOpp (val_compare b a).
Proof.
  destruct a, b; simpl; try done.
  - apply String.compare_antisym.
  - apply Z.compare_antisym.
Qed.

Lemma key_compare_eq (a b : key) : key_compare a b = Eq → a = b.
Proof.
  destruct a as [a1 a2], b as [b1 b2]. unfold key_compare. simpl.
  destruct (Bool.compare a1 b1) eqn:E; try done.
  intros H. apply bool_compare_eq in E. apply val_compare_eq in H. congruence.
Qed.

Lemma key_compare_refl (a : key) : key_compare a a = Eq.
Proof.
  destruct a as [[] a2]; unfold key_compare; simpl; apply val_compare_refl.
Qed.

Lemma key_compare_antisym (a b : key) :
  key_compare a b = CompOpp (key_compare b a).
Proof.
  destruct a as [[] a2], b as [[] b2]; unfold key_compare; simpl; try done;
    apply val_compare_antisym.
Qed.

Lemma key_compare_trans (c : comparison) (a b d : key) :
  key_compare a b = c → key_compare b d = c → key_compare a d = c.
Proof.
  destruct a as [[] a2], b as [[] b2], d as [[] d2]; unfold key_compare; simpl;
    try congruence; apply val_compare_trans.
Qed.

Lemma key_le_refl (a : key) : key_le a a.
Proof. unfold key_le. by rewrite key_compare_refl. Qed.

Lemma key_le_trans (a b d : key) : key_le a b → key_le b d → key_le a d.
Proof.
  unfold key_le. intros Hab Hbd.
  destruct (key_compare a b) eqn:E1; [| |done].
  - apply key_compare_eq in E1 as ->. done.
  - destruct (key_compare b d) eqn:E2; [| |done].
    + apply key_compare_eq in E2 as <-. by rewrite E1.
    + by rewrite (key_compare_trans Lt a b d).
Qed.

Lemma key_le_total (a b : key) : key_le a b ∨ key_le b a.
Proof.
  unfold key_le. rewrite (key_compare_antisym b a).
  destruct (key_compare a b); simpl; auto.
Qed.

(** Wherever [<] on keys returns, it is the strict order of [key_compare]. *)
Lemma key_lt_compare (a b : key) (r : bool) :
  PyCmp.key_lt a b = Ok r →
  r = match key_compare a b with Lt => true | _ => false end.
Proof.
  destruct a as [a1 a2], b as [b1 b2]. unfold PyCmp.key_lt, key_compare. simpl.
  destruct a1, b1; simpl; try (by intros [= <-]).
  all: destruct a2 as [s|x], b2 as [t|y]; simpl; try done.
  all: try (destruct (String.eqb_spec s t) as [->|Hne]; simpl;
            [rewrite string_compare_refl; by intros [= <-]|];
            unfold String.ltb; by intros [= <-]).
  all: destruct (Z.eqb_spec x y) as [->|Hne]; simpl;
       [rewrite Z.compare_refl; by intros [= <-]|];
       unfold Z.ltb; by intros [= <-].
Qed.

Lemma key_lt_true (a b : key) : PyCmp.key_lt a b = Ok true → key_le a b.
Proof.
  intros H. apply key_lt_compare in H. unfold key_le.
  by destruct (key_compare a b).
Qed.

Lemma key_lt_false (a b : key) : PyCmp.key_lt a b = Ok false → key_le b a.
Proof.
  intros H. apply key_lt_compare in H. unfold key_le.
  rewrite key_compare_antisym. by destruct (key_compare a b).
Qed.

(** A [str] against an [int] under equal first components is a
    [TypeError]: the comparison that a sort must never make. *)
Lemma key_lt_mixed (b : bool) (s : string) (z : Z) :
  PyCmp.key_lt (b, VStr s) (b, VInt z) = Raise TypeError
  ∧ PyCmp.key_lt (b, VInt z) (b, VStr s) = Raise TypeError.
Proof. by destruct b. Qed.

End keys.

(** ** The model of [list.sort] *)

Section list_sort.
Context {A : Type}.
Implicit Types (l r : list (key * A)) (x : key * A).

Lemma StronglySorted_rev {B} (R : relation B) (l : list B) :
  StronglySorted R l → StronglySorted (flip R) (rev l).
Proof.
  induction 1 as [|x l _ IH Hx]; simpl; [constructor|].
  apply StronglySorted_app_2; [|done|repeat constructor].
  intros x1 x2 Hx1 Hx2. apply list_elem_of_singleton in Hx2 as ->.
  rewrite Forall_forall in Hx. apply Hx.
  apply list_elem_of_In, in_rev. by apply list_elem_of_In.
Qed.

Lemma insert_sorted_spec x l r :
  PyCmp.insert_sorted x l = Ok r → StronglySorted pair_le l →
  r ≡ₚ x :: l ∧ StronglySorted pair_le r.
Proof.
  revert r. induction l as [|y l IH]; intros r; simpl.
  - intros [= <-] _. split; [done|]. repeat constructor.
  - destruct (PyCmp.key_lt y.1 x.1) as [[]| |] eqn:Hlt; simpl; try done.
    + destruct (PyCmp.insert_sorted x l) as [r'| |] eqn:Hins; simpl; try done.
      intros [= <-] Hs. apply StronglySorted_cons in Hs as [Hy Hs].
      destruct (IH r' eq_refl Hs) as [Hp Hs'].
      split; [rewrite Hp; apply perm_swap|].
      constructor; [done|]. rewrite Hp. constructor; [|done].
      by apply key_lt_true.
    + intros [= <-] Hs. split; [done|].
      pose proof (key_lt_false _ _ Hlt) as Hxy.
      constructor; [done|]. constructor; [done|].
      apply StronglySorted_cons in Hs as [Hy _].
      eapply Forall_impl; [exact Hy|]. intros z Hz.
      unfold pair_le in *. by eapply key_le_trans.
Qed.

Lemma sort_pairs_spec l r :
  PyCmp.sort_pairs l = Ok r → r ≡ₚ l ∧ StronglySorted pair_le r.
Proof.
  revert r. induction l as [|x l IH]; intros r; simpl.
  - intros [= <-]. split; [done|constructor].
  - destruct (PyCmp.sort_pairs l) as [r'| |] eqn:Hs; simpl; try done.
    intros Hins. destruct (IH r' eq_refl) as [Hp Hs'].
    destruct (insert_sorted_spec x r' r Hins Hs') as [Hp' Hs''].
    split; [by rewrite Hp', Hp|done].
Qed.

(** The sort is stable: the elements of one key keep their order. *)
Lemma insert_sorted_stable (k : key) x l r :
  PyCmp.insert_sorted x l = Ok r →
  List.filter (λ y, bool_decide (y.1 = k)) r
  = List.filter (λ y, bool_decide (y.1 = k)) (x :: l).
Proof.
  revert r. induction l as [|y l IH]; intros r; simpl.
  - by intros [= <-].
  - destruct (PyCmp.key_lt y.1 x.1) as [[]| |] eqn:Hlt; simpl; try done.
    + destruct (PyCmp.insert_sorted x l) as [r'| |] eqn:Hins; simpl; try done.
      intros [= <-]. simpl. rewrite (IH r' eq_refl). simpl.
      apply key_lt_compare in Hlt.
      destruct (bool_decide_reflect (y.1 = k)) as [Hy|Hy];
        destruct (bool_decide_reflect (x.1 = k)) as [Hx|Hx]; try done.
      rewrite Hy, <- Hx, key_compare_refl in Hlt. done.
    + by intros [= <-].
Qed.

Lemma sort_pairs_stable (k : key) l r :
  PyCmp.sort_pairs l = Ok r →
  List.filter (λ y, bool_decide (y.1 = k)) r = List.filter (λ y, bool_decide (y.1 = k)) l.
Proof.
  revert r. induction l as [|x l IH]; intros r; simpl.
  - by intros [= <-].
  - destruct (PyCmp.sort_pairs l) as [r'| |] eqn:Hs; simpl; try done.
    intros Hins. rewrite (insert_sorted_stable k x r' r Hins). simpl.
    by rewrite (IH r' eq_refl).
Qed.

(** The sort returns when any two keys can be compared. *)
Lemma insert_sorted_Ok (P : key → Prop) x l :
  (∀ a b, P a → P b → ∃ c, PyCmp.key_lt a b = Ok c) →
  P x.1 → Forall (λ y, P y.1) l →
  ∃ r, PyCmp.insert_sorted x l = Ok r ∧ Forall (λ y, P y.1) r.
Proof.
  intros HP Hx. induction 1 as [|y l Hy Hl IH]; simpl.
  - eexists. split; [done|]. by constructor.
  - destruct (HP y.1 x.1 Hy Hx) as [[] ->]; simpl.
    + destruct IH as (r & -> & Hr). simpl. eexists. split; [done|].
      by constructor.
    + eexists. split; [done|]. by repeat constructor.
Qed.

Lemma sort_pairs_Ok (P : key → Prop) l :
  (∀ a b, P a → P b → ∃ c, PyCmp.key_lt a b = Ok c) →
  Forall (λ y, P y.1) l →
  ∃ r, PyCmp.sort_pairs l = Ok r ∧ Forall (λ y, P y.1) r.
Proof.
  intros HP. induction 1 as [|x l Hx Hl IH]; simpl.
  - eexists. split; [done|]. constructor.
  - destruct IH as (r & -> & Hr). simpl. by apply (insert_sorted_Ok P).
Qed.

End list_sort.

Section list_sort_keys.
Context {A : Type} (f : A → outcome key).

Lemma mapM_Ok (l : list A) (keys : list key) :
  mapM f l = Ok keys → Forall2 (λ x k, f x = Ok k) l keys.
Proof.
  revert keys. induction l as [|x l IH]; intros keys; simpl.
  - intros [= <-]. constructor.
  - destruct (f x) as [k| |] eqn:Hk; simpl; try done.
    destruct (mapM f l) as [ks| |]; simpl; try done.
    intros [= <-]. constructor; [done|by apply IH].
Qed.

Lemma mapM_is_Ok (P : key → Prop) (l : list A) :
  Forall (λ x, ∃ k, f x = Ok k ∧ P k) l →
  ∃ keys, mapM f l = Ok keys ∧ Forall P keys.
Proof.
  induction 1 as [|x l (k & Hk & HPk) _ (ks & IH & HP)]; simpl.
  - eexists. split; [done|]. constructor.
  - rewrite Hk. simpl. rewrite IH. simpl. eexists. split; [done|]. by constructor.
Qed.

Lemma zip_keys (l : list A) (keys : list key) :
  Forall2 (λ x k, f x = Ok k) l keys →
  Forall (λ kx, f kx.2 = Ok kx.1) (zip keys l) ∧ map snd (zip keys l) = l.
Proof.
  induction 1 as [|x k l keys Hk _ [IH1 IH2]]; simpl.
  - split; [constructor|done].
  - split; [by constructor|by rewrite IH2].
Qed.

Lemma map_snd_sorted (reverse : bool) (r : list (key * A)) :
  Forall (λ kx, f kx.2 = Ok kx.1) r →
  StronglySorted (if reverse then flip pair_le else pair_le) r →
  StronglySorted (sorted_by f reverse) (map snd r).
Proof.
  intros Hr. induction 1 as [|x r Hs IH Hx]; simpl; [constructor|].
  apply Forall_cons in Hr as [Hfx Hr].
  constructor; [by apply IH|].
  apply Forall_forall. intros b Hb.
  apply list_elem_of_In, in_map_iff in Hb as ([kb b'] & <- & Hb).
  apply list_elem_of_In in Hb.
  pose proof (proj1 (Forall_forall _ _) Hx _ Hb) as Hxb.
  pose proof (proj1 (Forall_forall _ _) Hr _ Hb) as Hrb.
  exists x.1, kb. split; [done|]. split; [done|].
  by destruct reverse.
Qed.

Lemma list_sort_spec (reverse : bool) (l out : list A) :
  PyCmp.list_sort f reverse l = Ok out →
  out ≡ₚ l ∧ StronglySorted (sorted_by f reverse) out.
Proof.
  unfold PyCmp.list_sort.
  destruct (mapM f l) as [keys| |] eqn:Hkeys; simpl; try done.
  apply mapM_Ok in Hkeys. destruct (zip_keys l keys Hkeys) as [Hz Hsnd].
  destruct (PyCmp.sort_pairs _) as [r| |] eqn:Hsort; simpl; try done.
  intros [= <-]. apply sort_pairs_spec in Hsort as [Hp Hs].
  destruct reverse.
  - split.
    + rewrite <- Hsnd at 1. apply Permutation_map.
      rewrite <- (Permutation_rev r), Hp. symmetry. apply Permutation_rev.
    + apply (map_snd_sorted true); [|by apply StronglySorted_rev].
      rewrite <- (Permutation_rev r), Hp, <- (Permutation_rev (zip keys l)). done.
  - split.
    + rewrite <- Hsnd at 1. by apply Permutation_map.
    + apply (map_snd_sorted false); [|done]. by rewrite Hp.
Qed.

Lemma filter_rev {B} (p : B → bool) (l : list B) :
  List.filter p (rev l) = rev (List.filter p l).
Proof.
  induction l as [|x l IH]; simpl; [done|].
  rewrite List.filter_app, IH. simpl. destruct (p x); simpl; [done|].
  by rewrite app_nil_r.
Qed.

Lemma map_snd_has_key (k : key) (r : list (key * A)) :
  Forall (λ kx, f kx.2 = Ok kx.1) r →
  List.filter (has_key f k) (map snd r)
  = map snd (List.filter (λ y, bool_decide (y.1 = k)) r).
Proof.
  induction 1 as [|[k' x] r Hx _ IH]; simpl; [done|].
  unfold has_key at 1. simpl in Hx. rewrite Hx. simpl.
  destruct (bool_decide (k' = k)); simpl; by rewrite IH.
Qed.

(** Elements with equal keys keep their relative order, in both
    directions of the sort. *)
Lemma list_sort_stable (reverse : bool) (l out : list A) (k : key) :
  PyCmp.list_sort f reverse l = Ok out →
  List.filter (has_key f k) out = List.filter (has_key f k) l.
Proof.
  unfold PyCmp.list_sort.
  destruct (mapM f l) as [keys| |] eqn:Hkeys; simpl; try done.
  apply mapM_Ok in Hkeys. destruct (zip_keys l keys Hkeys) as [Hz Hsnd].
  destruct (PyCmp.sort_pairs _) as [r| |] eqn:Hsort; simpl; try done.
  intros [= <-].
  pose proof (sort_pairs_spec _ _ Hsort) as [Hp _].
  pose proof (sort_pairs_stable k _ _ Hsort) as Hst.
  rewrite <- Hsnd at 1. rewrite (map_snd_has_key k (zip keys l) Hz).
  destruct reverse.
  - rewrite map_snd_has_key.
    + rewrite filter_rev, Hst, filter_rev. by rewrite rev_involutive.
    + rewrite <- (Permutation_rev r), Hp, <- (Permutation_rev (zip keys l)). done.
  - rewrite map_snd_has_key; [by rewrite Hst|]. by rewrite Hp.
Qed.

Lemma list_sort_Ok (P : key → Prop) (reverse : bool) (l : list A) :
  (∀ a b, P a → P b → ∃ c, PyCmp.key_lt a b = Ok c) →
  Forall (λ x, ∃ k, f x = Ok k ∧ P k) l →
  ∃ out, PyCmp.list_sort f reverse l = Ok out.
Proof.
  intros HP Hl. unfold PyCmp.list_sort.
  destruct (mapM_is_Ok P l Hl) as (keys & Hkeys & HPk). rewrite Hkeys. simpl.
  destruct (sort_pairs_Ok (A:=A) P (if reverse then rev (zip keys l) else zip keys l) HP)
    as (r & -> & _); [|simpl; by eexists].
  assert (Forall (λ y : key * A, P y.1) (zip keys l)) as Hz.
  { clear Hkeys. revert l Hl. induction HPk as [|k keys Hk _ IH]; intros l Hl;
      [constructor|].
    destruct l as [|x l]; simpl; [constructor|].
    apply Forall_cons in Hl as [_ Hl]. constructor; [done|by apply IH]. }
  destruct reverse; [|done].
  by rewrite <- (Permutation_rev (zip keys l)).
Qed.

Lemma key_le_antisym (a b : key) : key_le a b → key_le b a → a = b.
Proof.
  unfold key_le. rewrite (key_compare_antisym b a). intros H1 H2.
  apply key_compare_eq. by destruct (key_compare a b).
Qed.

(** There is one stable sorted arrangement of a list: whatever stable
    sorting algorithm runs, it returns the list of the model when no
    comparison raises. *)
Lemma stable_sorted_unique (reverse : bool) (l1 l2 : list A) :
  l1 ≡ₚ l2 →
  StronglySorted (sorted_by f reverse) l1 →
  StronglySorted (sorted_by f reverse) l2 →
  (∀ k, List.filter (has_key f k) l1 = List.filter (has_key f k) l2) →
  l1 = l2.
Proof.
  revert l2. induction l1 as [|x t1 IH]; intros l2 Hp Hs1 Hs2 Hst.
  - by apply Permutation_nil in Hp.
  - destruct l2 as [|y t2]; [by apply Permutation_sym, Permutation_nil_cons in Hp|].
    apply StronglySorted_cons in Hs1 as [Hx Hs1].
    apply StronglySorted_cons in Hs2 as [Hy Hs2].
    assert (x = y) as ->.
    { assert (x ∈ y :: t2) as Hxin by (rewrite <- Hp; left).
      assert (y ∈ x :: t1) as Hyin by (rewrite Hp; left).
      apply elem_of_cons in Hxin as [->|Hxin]; [done|].
      apply elem_of_cons in Hyin as [->|Hyin]; [done|].
      rewrite Forall_forall in Hx, Hy.
      destruct (Hx y Hyin) as (kx & ky & Hkx & Hky & Hxy).
      destruct (Hy x Hxin) as (ky' & kx' & Hky' & Hkx' & Hyx).
      assert (kx = ky) as Hk.
      { assert (kx' = kx) as -> by congruence.
        assert (ky' = ky) as -> by congruence.
        destruct reverse; by apply key_le_antisym. }
      specialize (Hst kx). simpl in Hst.
      assert (has_key f kx x = true) as Hhx
        by (unfold has_key; rewrite Hkx; by apply bool_decide_eq_true_2).
      assert (has_key f kx y = true) as Hhy
        by (unfold has_key; rewrite Hky, Hk; by apply bool_decide_eq_true_2).
      rewrite Hhx, Hhy in Hst. by injection Hst. }
    f_equal. apply IH; [by eapply Permutation_cons_inv|done|done|].
    intros k. specialize (Hst k). simpl in Hst.
    destruct (has_key f k y); [by injection Hst|done].
Qed.

(** Sorting the empty list computes no key. *)
Lemma list_sort_nil (reverse : bool) : PyCmp.list_sort f reverse [] = Ok [].
Proof. by destruct reverse. Qed.

(** The first element whose key raises makes the sort raise. *)
Lemma list_sort_key_raises (reverse : bool) (x : A) (l : list A) (e : exn) :
  f x = Raise e → PyCmp.list_sort f reverse (x :: l) = Raise e.
Proof. intros H. unfold PyCmp.list_sort. simpl. by rewrite H. Qed.

End list_sort_keys.

(** ** The sort engine *)

Section sort.

Lemma key_lt_differ (b1 b2 : bool) (v w : pyval) :
  b1 ≠ b2 → ∃ c, PyCmp.key_lt (b1, v) (b2, w) = Ok c.
Proof. destruct b1, b2; intros H; try done; unfold PyCmp.key_lt; simpl; eauto. Qed.

Lemma key_lt_str (b1 b2 : bool) (s t : string) :
  ∃ c, PyCmp.key_lt (b1, VStr s) (b2, VStr t) = Ok c.
Proof.
  unfold PyCmp.key_lt. simpl.
  destruct (negb (Bool.eqb b1 b2)); [eauto|]. destruct (negb (s =? t)%string); eauto.
Qed.

Lemma key_lt_int (b1 b2 : bool) (x y : Z) :
  ∃ c, PyCmp.key_lt (b1, VInt x) (b2, VInt y) = Ok c.
Proof.
  unfold PyCmp.key_lt. simpl.
  destruct (negb (Bool.eqb b1 b2)); [eauto|]. destruct (negb (x =? y)); eauto.
Qed.

(** The key of a known column. *)
Lemma sort_key_known (s : Sorting) (reverse : bool) (nd : FSNode) :
  known_column (column s) → ∃ k, sort_key s reverse nd = Ok k.
Proof.
  unfold known_column, sort_key, Column.Name, Column.Size, Column.Modified,
    Column.Permissions, Column.Owner.
  intros Hc.
  repeat (match goal with |- context [Z.eqb ?a ?b] => destruct (Z.eqb_spec a b) end);
    eauto; lia.
Qed.

(** The key of an unknown column. *)
Lemma sort_key_unknown (s : Sorting) (reverse : bool) (nd : FSNode) :
  ¬ known_column (column s) →
  sort_key s reverse nd =
    Raise (ValueError ("Unknown column index " ++ PyStr.str_of_int (column s))%string).
Proof.
  unfold known_column, sort_key, Column.Name, Column.Size, Column.Modified,
    Column.Permissions, Column.Owner.
  intros Hc.
  repeat (match goal with |- context [Z.eqb ?a ?b] => destruct (Z.eqb_spec a b) end);
    try done; lia.
Qed.

Lemma sort_key_by_name (o : SortOrder) (reverse : bool) (nd : FSNode) :
  sort_key (by_name o) reverse nd =
    Ok (Bool.eqb (is_dir nd) reverse, VStr (name_lower nd)).
Proof. reflexivity. Qed.

Lemma sort_key_by_size (o : SortOrder) (reverse : bool) (nd : FSNode) :
  sort_key (by_size o) reverse nd =
    Ok (Bool.eqb (is_dir nd) reverse,
        if is_dir nd then VStr (name_lower nd) else VInt (size nd)).
Proof. reflexivity. Qed.

(** Any two keys that [sort_key] makes for one sort can be compared:
    whatever pairs the sorting algorithm picks, no comparison raises. *)
Lemma sort_key_comparable (s : Sorting) (reverse : bool) (a b : FSNode) (ka kb : key) :
  sort_key s reverse a = Ok ka → sort_key s reverse b = Ok kb →
  ∃ c, PyCmp.key_lt ka kb = Ok c.
Proof.
  unfold sort_key.
  repeat (match goal with |- context [Z.eqb ?x ?y] => destruct (Z.eqb x y) end);
    try done; intros [= <-] [= <-]; try apply key_lt_str.
  destruct (is_dir a) eqn:Ha, (is_dir b) eqn:Hb;
    try apply key_lt_str; try apply key_lt_int;
    apply key_lt_differ; by destruct reverse.
Qed.

Lemma sort_unfold (self : nat) (s : Sorting) (h : heap) (nd : FSNode) :
  h !! self = Some nd → current_sort_state nd ≠ Some s →
  sort self s h =
    (vis ← PyCmp.list_sort (sort_key_ref h s (descending (order s))) (descending (order s))
                           (visible_children nd);
     Ok (<[self := set_children (all_children nd) vis (Some s) nd]> h)).
Proof.
  intros Hs Hne. unfold sort. rewrite Hs. by destruct (decide _).
Qed.

Lemma sort_guard (self : nat) (s : Sorting) (h : heap) (nd : FSNode) :
  h !! self = Some nd → current_sort_state nd = Some s → sort self s h = Ok h.
Proof. intros Hs He. unfold sort. rewrite Hs. by destruct (decide _). Qed.

(** A sort by a known column returns. *)
Lemma sort_known_Ok (self : nat) (s : Sorting) (h : heap) (nd : FSNode) :
  h !! self = Some nd → children_valid h (visible_children nd) →
  known_column (column s) → ∃ h', sort self s h = Ok h'.
Proof.
  intros Hs Hv Hc.
  destruct (decide (current_sort_state nd = Some s)) as [He|Hne].
  { exists h. by apply (sort_guard self s h nd). }
  rewrite (sort_unfold self s h nd) by done.
  destruct (list_sort_Ok (sort_key_ref h s (descending (order s)))
              (λ k, ∃ x, sort_key s (descending (order s)) x = Ok k)
              (descending (order s)) (visible_children nd)) as [out ->].
  - intros ka kb [a Ha] [b Hb]. by eapply sort_key_comparable.
  - eapply Forall_impl; [exact Hv|]. intros c [child Hchild].
    unfold sort_key_ref. rewrite Hchild.
    destruct (sort_key_known s (descending (order s)) child Hc) as [k Hk].
    exists k. split; [done|]. by exists child.
  - simpl. by eexists.
Qed.

(** A sort by an unknown column of a node that shows a child raises. *)
Lemma sort_unknown_raises (self : nat) (s : Sorting) (h : heap) (nd child : FSNode)
    (c : nat) (cs : list nat) :
  h !! self = Some nd → visible_children nd = c :: cs → h !! c = Some child →
  current_sort_state nd ≠ Some s → ¬ known_column (column s) →
  sort self s h =
    Raise (ValueError ("Unknown column index " ++ PyStr.str_of_int (column s))%string).
Proof.
  intros Hs Hvis Hc Hne Hcol. rewrite (sort_unfold self s h nd) by done.
  rewrite Hvis.
  rewrite (list_sort_key_raises _ _ c cs
             (ValueError ("Unknown column index " ++ PyStr.str_of_int (column s))%string));
    [done|].
  unfold sort_key_ref. rewrite Hc. by apply sort_key_unknown.
Qed.

(** A sort of a node that shows no child computes no key, so it accepts
    any column. *)
Lemma sort_no_children (self : nat) (s : Sorting) (h : heap) (nd : FSNode) :
  h !! self = Some nd → visible_children nd = [] →
  current_sort_state nd ≠ Some s →
  sort self s h = Ok (<[self := set_children (all_children nd) [] (Some s) nd]> h).
Proof.
  intros Hs Hvis Hne. rewrite (sort_unfold self s h nd) by done.
  rewrite Hvis. by rewrite list_sort_nil.
Qed.

(** *** Order of the result *)

Lemma StronglySorted_filter {B} (R : relation B) (p : B → bool) (l : list B) :
  StronglySorted R l → StronglySorted R (List.filter p l).
Proof.
  induction 1 as [|x l _ IH Hx]; simpl; [constructor|].
  destruct (p x); [|done]. constructor; [done|].
  apply Forall_forall. intros y Hy. apply list_elem_of_In, filter_In in Hy as [Hy _].
  rewrite Forall_forall in Hx. by apply Hx, list_elem_of_In.
Qed.

Lemma StronglySorted_impl_elem {B} (R R' : relation B) (l : list B) :
  (∀ a b, a ∈ l → b ∈ l → R a b → R' a b) →
  StronglySorted R l → StronglySorted R' l.
Proof.
  intros HR Hs. induction Hs as [|x l _ IH Hx]; [constructor|].
  constructor.
  - apply IH. intros a b Ha Hb. apply HR; by right.
  - apply Forall_forall. intros y Hy. rewrite Forall_forall in Hx.
    apply HR; [left|by right|by apply Hx].
Qed.

(** A list sorted by a relation that never puts an element outside [p]
    before one inside [p] is the block of [p] followed by the rest. *)
Lemma sorted_blocks {B} (R : relation B) (p : B → bool) (l : list B) :
  (∀ a b, R a b → p b = true → p a = true) →
  StronglySorted R l →
  l = List.filter p l ++ List.filter (λ x, negb (p x)) l.
Proof.
  intros HR. induction 1 as [|x l _ IH Hx]; simpl; [done|].
  destruct (p x) eqn:Hpx; simpl.
  - by rewrite <- IH.
  - assert (Forall (λ y, p y = false) l) as Hl.
    { eapply Forall_impl; [exact Hx|]. intros y Hy.
      destruct (p y) eqn:Hpy; [|done]. by rewrite (HR x y Hy Hpy) in Hpx. }
    assert (List.filter p l = []) as ->.
    { clear -Hl. induction Hl as [|y l Hy _ IH]; simpl; [done|]. by rewrite Hy. }
    assert (List.filter (λ x, negb (p x)) l = l) as ->; [|done].
    clear -Hl. induction Hl as [|y l Hy _ IH]; simpl; [done|].
    rewrite Hy. simpl. by rewrite IH.
Qed.

Lemma sort_key_ref_by_name (h : heap) (o : SortOrder) (reverse : bool) (c : nat) (k : key) :
  sort_key_ref h (by_name o) reverse c = Ok k →
  k = (Bool.eqb (is_dir_ref h c) reverse, VStr (name_lower_ref h c)).
Proof.
  unfold sort_key_ref, is_dir_ref, name_lower_ref.
  destruct (h !! c) as [child|]; [|done]. rewrite sort_key_by_name. by intros [= <-].
Qed.

Lemma string_leb_compare (s t : string) :
  String.leb s t = true ↔ String.compare s t ≠ Gt.
Proof. unfold String.leb. destruct (String.compare s t); split; done. Qed.

(** The order of a sort by name, read on the nodes. *)
Lemma sorted_by_name_folders_first (h : heap) (o : SortOrder) (a b : nat) :
  sorted_by (sort_key_ref h (by_name o) (descending o)) (descending o) a b →
  folders_first h o a b.
Proof.
  intros (ka & kb & Ha & Hb & Hle).
  apply sort_key_ref_by_name in Ha as ->. apply sort_key_ref_by_name in Hb as ->.
  unfold folders_first, name_order, name_le.
  destruct (descending o), (is_dir_ref h a), (is_dir_ref h b);
    unfold key_le, key_compare in Hle; simpl in Hle; try done; auto;
    right; (split; [done|]); by apply string_leb_compare.
Qed.

(** The children that a sort by name gives one key are those of one kind
    and one lower-cased name. *)
Lemma has_key_by_name (h : heap) (o : SortOrder) (reverse d : bool) (n : string) (c : nat) :
  is_Some (h !! c) →
  has_key (sort_key_ref h (by_name o) reverse) (Bool.eqb d reverse, VStr n) c
  = same_kind_and_name h d n c.
Proof.
  intros [child Hc].
  unfold has_key, sort_key_ref, same_kind_and_name, is_dir_ref, name_lower_ref.
  rewrite Hc, sort_key_by_name. simpl.
  destruct (String.eqb_spec (name_lower child) n) as [->|Hn].
  - destruct (is_dir child), d, reverse; simpl;
      first [ done
            | by apply bool_decide_eq_true_2
            | apply bool_decide_eq_false_2; congruence ].
  - rewrite andb_false_r. apply bool_decide_eq_false_2. congruence.
Qed.

End sort.

(** ** The filter, end to end *)

Section filter_runs.

Lemma forwardb_forward (h : heap) : forwardb h = true → forward h.
Proof.
  unfold forwardb. rewrite forallb_forall. intros H n nd c Hn Hc.
  specialize (H (n, nd)). simpl in H.
  assert (In (n, nd) (zip (seq 0 (List.length h)) h)) as Hin.
  { apply list_elem_of_In, list_elem_of_lookup. exists n.
    apply lookup_zip_with_Some. exists n, nd. split; [done|]. split; [|done].
    apply lookup_seq. split; [done|]. by eapply lookup_lt_Some. }
  specialize (H Hin). rewrite forallb_forall in H.
  specialize (H c (proj1 (list_elem_of_In _ _) Hc)).
  apply andb_true_iff in H as [H1 H2].
  apply Nat.ltb_lt in H1, H2. lia.
Qed.

(** A second run of the filter with the same pattern changes nothing. *)
Lemma apply_filter_twice (fuel self : nat) (p : string) (h h' : heap) :
  apply_filter fuel self p h = Some h' → apply_filter fuel self p h' = Some h'.
Proof.
  intros H. pose proof (apply_filter_skeleton _ _ _ _ _ H) as Hsk.
  destruct (apply_filter_skeleton_Some _ _ _ _ _ _ Hsk H) as [g' Hg'].
  rewrite Hg'. f_equal. apply list_eq. intros n.
  destruct (apply_filter_frame _ _ _ _ _ n Hg') as [Hsame|Hr]; [done|].
  destruct (h !! n) as [nd|] eqn:Hn.
  - pose proof (same_skeleton_dir_reachable h' h self n
                  (same_skeleton_sym _ _ Hsk) Hr) as Hr0.
    pose proof (apply_filter_reach _ _ _ _ _ _ _ H Hr0 Hn) as Hn'.
    rewrite (apply_filter_reach _ _ _ _ _ _ _ Hg' Hr Hn'), Hn'.
    by rewrite (same_skeleton_spec_filter h h').
  - rewrite (same_skeleton_lookup_None h h' n Hsk Hn).
    apply (same_skeleton_lookup_None h' g' n); [by eapply apply_filter_skeleton|].
    by apply (same_skeleton_lookup_None h h' n).
Qed.

(** The filter leaves every attribute but [visible_children]. *)
Lemma apply_filter_fetched_items (fuel self : nat) (p : string) (h h' : heap) (n : nat) :
  apply_filter fuel self p h = Some h' →
  fetched_items <$> h' !! n = fetched_items <$> h !! n.
Proof.
  intros H. pose proof (apply_filter_skeleton _ _ _ _ _ H) as Hsk.
  destruct (h !! n) as [nd|] eqn:Hn.
  - by destruct (same_skeleton_lookup h h' n nd Hsk Hn) as [v ->].
  - by rewrite (same_skeleton_lookup_None h h' n Hsk Hn).
Qed.

End filter_runs.


(** ** The tree builder *)

Section builder.

Lemma forward_nil : forward [].
Proof. intros n nd c Hn. by rewrite lookup_nil in Hn. Qed.

(** A new object without children keeps the heap [forward]. *)
Lemma forward_new_node (h : heap) (nd : FSNode) :
  forward h → all_children nd = [] → forward (h ++ [nd]).
Proof.
  intros Hf Hnd n nd' c Hn Hc. rewrite length_app. simpl.
  destruct (decide (n < List.length h)%nat) as [Hlt|Hge].
  - rewrite lookup_app_l in Hn by done.
    pose proof (Hf n nd' c Hn Hc). lia.
  - rewrite lookup_app_r in Hn by lia.
    destruct (n - List.length h)%nat; simpl in Hn; [|done].
    simplify_eq. rewrite Hnd in Hc. by apply not_elem_of_nil in Hc.
Qed.

(** The new object is appended to a node that is already in the heap. *)
Lemma append_new_child (h : heap) (cur_ : nat) (nd : FSNode) :
  forward h → (cur_ < List.length h)%nat → all_children nd = [] →
  ∃ h', append_child cur_ (List.length h) (h ++ [nd]) = Some h'
        ∧ forward h' ∧ List.length h' = S (List.length h).
Proof.
  intros Hf Hcur Hnd.
  destruct (lookup_lt_is_Some_2 h cur_ Hcur) as [ndc Hc].
  unfold append_child. rewrite lookup_app_l, Hc by done. simpl.
  eexists. split; [done|]. split; [|rewrite length_insert, length_app; simpl; lia].
  intros n nd' c Hn Hin. rewrite length_insert.
  destruct (decide (n = cur_)) as [->|Hne].
  - rewrite list_lookup_insert_eq in Hn by (rewrite length_app; simpl; lia).
    simplify_eq. simpl in Hin. rewrite length_app. simpl.
    apply elem_of_app in Hin as [Hin|Hin].
    + pose proof (Hf cur_ ndc c Hc Hin). lia.
    + apply list_elem_of_singleton in Hin as ->. lia.
  - rewrite list_lookup_insert_ne in Hn by done.
    by apply (forward_new_node h nd Hf Hnd n nd' c).
Qed.

Lemma map_valid_insert (h h' : heap) (nm : gmap Path nat) (p : Path) (n : nat) :
  map_valid h nm → (List.length h ≤ List.length h')%nat → (n < List.length h')%nat →
  map_valid h' (<[p := n]> nm).
Proof.
  intros Hm Hle Hn q k. destruct (decide (p = q)) as [->|Hne].
  - rewrite lookup_insert_eq. intros [= <-]. done.
  - rewrite lookup_insert_ne by done. intros Hq. pose proof (Hm q k Hq). lia.
Qed.

(** A child that the search finds is a node of the heap. *)
Lemma find_in_range_valid (m : FSModel) (h : heap) (idx : QModelIndex) (parent : Path)
    (i : Z) (remaining : nat) (r c : Z) (p : nat) (g : children_gen) :
  find_in_range m h idx parent i remaining = Some (Some (createIndex r c p), g) →
  (p < List.length h)%nat.
Proof.
  revert i. induction remaining as [|remaining IH]; intros i; simpl; [done|].
  destruct (index m h i 0 idx) as [[|r' c' p']|]; simpl; try done.
  destruct (h !! p') as [nd|] eqn:Hp; simpl; [|done].
  destruct (decide (path nd = parent)).
  - intros [= <- <- <- <-]. by eapply lookup_lt_Some.
  - apply IH.
Qed.

Lemma find_child_valid (model : option FSModel) (h : heap) (g g' : children_gen)
    (parent : Path) (r c : Z) (p : nat) :
  find_child model h g parent = Some (Some (createIndex r c p), g') →
  (p < List.length h)%nat.
Proof.
  destruct g as [idx|idx i remaining|]; simpl; [| |done].
  - destruct model as [m|]; [|done].
    destruct (rowCount m h idx); simpl; [|done]. apply find_in_range_valid.
  - destruct model as [m|]; simpl; [|done]. apply find_in_range_valid.
Qed.

(** One step of the loop over the ancestors. *)
Lemma resolve_parent_ok (model : option FSModel) (parent : Path) (b b' : builder) :
  builder_ok b → resolve_parent model parent b = Some b' →
  builder_ok b' ∧ (List.length (b_heap b) ≤ List.length (b_heap b'))%nat.
Proof.
  intros (Hf & Hm & Hc). unfold resolve_parent.
  destruct (node_map b !! parent) as [node|] eqn:Hnode.
  - intros [= <-]. simpl. split; [|done]. unfold builder_ok. simpl.
    split; [done|]. split; [done|]. by eapply Hm.
  - destruct (find_child model (b_heap b) (cur_children b) parent)
      as [[[[|r c node]|] g]|] eqn:Hfind; simpl; try done.
    + intros [= <-]. simpl. split; [|done].
      pose proof (find_child_valid _ _ _ _ _ _ _ _ Hfind) as Hv.
      unfold builder_ok. simpl.
      split; [done|]. split; [|done]. by apply (map_valid_insert (b_heap b)).
    + destruct (append_new_child (b_heap b) (cur b)
                  (FSNode_init parent 0 "" "" "" (Some (cur b))) Hf Hc eq_refl)
        as (h' & Happ & Hf' & Hlen).
      unfold new_node. rewrite Happ. simpl. intros [= <-]. simpl.
      split; [|lia]. unfold builder_ok. simpl. split; [done|]. split; [|lia].
      apply (map_valid_insert (b_heap b)); [done|lia|lia].
Qed.

Lemma resolve_parents_ok (model : option FSModel) (ps : list Path) (b b' : builder) :
  builder_ok b → resolve_parents model ps b = Some b' →
  builder_ok b' ∧ (List.length (b_heap b) ≤ List.length (b_heap b'))%nat.
Proof.
  revert b. induction ps as [|p ps IH]; intros b Hb; simpl.
  - intros [= <-]. done.
  - destruct (resolve_parent model p b) as [b1|] eqn:H1; simpl; [|done].
    destruct (resolve_parent_ok model p b b1 Hb H1) as [Hb1 Hle].
    intros H2. destruct (IH b1 Hb1 H2) as [Hb' Hle']. split; [done|lia].
Qed.

Lemma load_entry_ok (model : option FSModel) (root : nat) (i : FSItem)
    (h h' : heap) (nm nm' : gmap Path nat) :
  forward h → map_valid h nm → (root < List.length h)%nat →
  load_entry model root i (h, nm) = Some (h', nm') →
  forward h' ∧ map_valid h' nm' ∧ (List.length h ≤ List.length h')%nat.
Proof.
  intros Hf Hm Hr. unfold load_entry. simpl.
  destruct (resolve_parents _ _ _) as [b|] eqn:Hb; simpl; [|done].
  apply resolve_parents_ok in Hb as [(Hfb & Hmb & Hcb) Hle]; [|done]. simpl in Hle.
  destruct (PyStr.int_of_str (item_size i)) as [sz|]; simpl; [|done].
  destruct (append_new_child (b_heap b) (cur b)
              (FSNode_init (PyPath.of_str (item_path i)) sz (item_dt_mod i) (item_perms i)
                           (item_owner i ++ ":" ++ item_group i)%string (Some (cur b)))
              Hfb Hcb eq_refl) as (h2 & Happ & Hf2 & Hlen).
  unfold new_node. rewrite Happ. simpl. intros [= <- <-].
  split; [done|]. split; [|lia].
  apply (map_valid_insert (b_heap b)); [done|lia|lia].
Qed.

Lemma load_entries_ok (model : option FSModel) (root : nat) (idx : Z) (items : list FSItem)
    (h h' : heap) (nm nm' : gmap Path nat) :
  forward h → map_valid h nm → (root < List.length h)%nat →
  load_entries model root idx items (h, nm) = Some (h', nm') →
  forward h' ∧ map_valid h' nm' ∧ (List.length h ≤ List.length h')%nat.
Proof.
  revert idx h nm. induction items as [|i items IH]; intros idx h nm Hf Hm Hr; simpl.
  - intros [= <- <-]. done.
  - destruct (idx =? 300000); [by intros [= <- <-]|].
    destruct (load_entry model root i (h, nm)) as [[h1 nm1]|] eqn:H1; simpl; [|done].
    destruct (load_entry_ok _ _ _ _ _ _ _ Hf Hm Hr H1) as (Hf1 & Hm1 & Hle).
    intros H2. destruct (IH (idx + 1) h1 nm1 Hf1 Hm1 ltac:(lia) H2) as (Hf' & Hm' & Hle').
    split; [done|]. split; [done|lia].
Qed.

(** Every load leaves a heap on which children follow their parent. *)
Lemma load_hdfs_file_forward (model : option FSModel) (h h' : heap) (items : list FSItem)
    (m' : FSModel) (nm : gmap Path nat) :
  forward h →
  (∀ m, model = Some m → (root_node m < List.length h)%nat) →
  load_hdfs_file model h items = Some (m', h', nm) →
  forward h' ∧ (root_node m' < List.length h')%nat ∧ map_valid h' nm.
Proof.
  intros Hf Hroot. unfold load_hdfs_file.
  destruct model as [m|].
  - destruct (load_entries _ _ _ _ _) as [[h1 nm1]|] eqn:H1; simpl; [|done].
    intros [= <- <- <-].
    pose proof (Hroot m eq_refl) as Hr.
    apply load_entries_ok in H1 as (Hf1 & Hm1 & Hle); [|done| |done].
    + split; [done|]. split; [lia|done].
    + intros p n. destruct (decide (PyPath.root_path = p)) as [<-|Hne].
      * rewrite lookup_singleton_eq. by intros [= <-].
      * by rewrite lookup_singleton_ne.
  - unfold new_node.
    destruct (load_entries _ _ _ _ _) as [[h1 nm1]|] eqn:H1; simpl; [|done].
    intros [= <- <- <-]. simpl.
    apply load_entries_ok in H1 as (Hf1 & Hm1 & Hle).
    + rewrite length_app in Hle. simpl in Hle. split; [done|]. split; [lia|done].
    + by apply forward_new_node.
    + intros p n. rewrite length_app. simpl.
      destruct (decide (PyPath.root_path = p)) as [<-|Hne].
      * rewrite lookup_singleton_eq. intros [= <-]. lia.
      * by rewrite lookup_singleton_ne.
    + rewrite length_app. simpl. lia.
Qed.

(** A first load of entries whose sizes are digits returns. *)
Lemma resolve_parents_first_load (ps : list Path) (b : builder) :
  builder_ok b → gen_idle (cur_children b) →
  ∃ b', resolve_parents None ps b = Some b' ∧ gen_idle (cur_children b').
Proof.
  revert b. induction ps as [|p ps IH]; intros b Hb Hg; simpl; [by exists b|].
  assert (∃ b1, resolve_parent None p b = Some b1 ∧ gen_idle (cur_children b1))
    as (b1 & H1 & Hg1).
  { unfold resolve_parent. destruct (node_map b !! p); [by eexists|].
    destruct Hb as (Hf & _ & Hc).
    destruct (cur_children b) as [idx|idx i r|]; simpl in *; [|done|].
    all: destruct (append_new_child (b_heap b) (cur b)
                     (FSNode_init p 0 "" "" "" (Some (cur b))) Hf Hc eq_refl)
           as (h' & Happ & _ & _);
         unfold new_node; rewrite Happ; simpl; by eexists. }
  rewrite H1. simpl.
  apply IH; [|done]. by apply (resolve_parent_ok None p b b1).
Qed.

Lemma load_entries_first_load (root : nat) (idx : Z) (items : list FSItem)
    (h : heap) (nm : gmap Path nat) :
  Forall (λ i, is_Some (PyStr.int_of_str (item_size i))) items →
  forward h → map_valid h nm → (root < List.length h)%nat →
  is_Some (load_entries None root idx items (h, nm)).
Proof.
  intros Hitems. revert idx h nm.
  induction Hitems as [|i items [sz Hsz] _ IH]; intros idx h nm Hf Hm Hr; simpl; [done|].
  destruct (idx =? 300000); [done|].
  assert (∃ st, load_entry None root i (h, nm) = Some st) as [[h1 nm1] H1].
  { unfold load_entry. simpl.
    destruct (resolve_parents_first_load (PyPath.parents_rev (PyPath.of_str (item_path i)))
                {| b_heap := h; node_map := nm; cur := root;
                   cur_children := GenStart InvalidIndex |}) as (b & Hb & _); [done|done|].
    rewrite Hb. simpl. rewrite Hsz. simpl.
    apply resolve_parents_ok in Hb as [(Hfb & _ & Hcb) _]; [|done].
    destruct (append_new_child (b_heap b) (cur b)
                (FSNode_init (PyPath.of_str (item_path i)) sz (item_dt_mod i) (item_perms i)
                             (item_owner i ++ ":" ++ item_group i)%string (Some (cur b)))
                Hfb Hcb eq_refl) as (h2 & Happ & _ & _).
    unfold new_node. rewrite Happ. simpl. by eexists. }
  rewrite H1. simpl.
  destruct (load_entry_ok _ _ _ _ _ _ _ Hf Hm Hr H1) as (Hf1 & Hm1 & Hle).
  apply IH; [done|done|lia].
Qed.

Lemma load_hdfs_file_first_load (items : list FSItem) :
  Forall (λ i, is_Some (PyStr.int_of_str (item_size i))) items →
  is_Some (load_hdfs_file None [] items).
Proof.
  intros Hitems. unfold load_hdfs_file, new_node. simpl.
  destruct (load_entries_first_load 0 0 items
              [FSNode_init PyPath.empty_path 0 "" "" "" None]
              {[PyPath.root_path := 0%nat]} Hitems) as [[h nm] ->]; simpl; [| | |done].
  - by apply (forward_new_node [] (FSNode_init PyPath.empty_path 0 "" "" "" None)
                             forward_nil).
  - intros p n. destruct (decide (PyPath.root_path = p)) as [<-|Hne].
    + rewrite lookup_singleton_eq. intros [= <-]. simpl. lia.
    + by rewrite lookup_singleton_ne.
  - simpl. lia.
Qed.

(** The other operations keep the heap [forward]: none of them writes
    [all_children]. *)
Lemma forward_insert (h : heap) (n : nat) (nd nd' : FSNode) :
  h !! n = Some nd → all_children nd' = all_children nd →
  forward h → forward (<[n := nd']> h).
Proof.
  intros Hn Hall Hf k ndk c Hk Hc. rewrite length_insert.
  destruct (decide (k = n)) as [->|Hne].
  - rewrite (lookup_insert_self h n nd nd' Hn) in Hk. simplify_eq.
    rewrite Hall in Hc. by apply (Hf n nd c).
  - rewrite list_lookup_insert_ne in Hk by done. by apply (Hf k ndk c).
Qed.

Lemma apply_filter_forward (fuel self : nat) (p : string) (h h' : heap) :
  forward h → apply_filter fuel self p h = Some h' → forward h'.
Proof.
  intros Hf H. eapply same_skeleton_forward; [|exact Hf].
  by eapply apply_filter_skeleton.
Qed.

Lemma sort_forward (self : nat) (s : Sorting) (h h' : heap) :
  forward h → sort self s h = Ok h' → forward h'.
Proof.
  intros Hf. unfold sort. destruct (h !! self) as [nd|] eqn:Hs; [|done].
  destruct (decide _); [by intros [= <-]|].
  destruct (PyCmp.list_sort _ _ _) as [vis| |]; simpl; try done.
  intros [= <-]. by apply (forward_insert h self nd).
Qed.

Lemma fetchMore_forward (m : FSModel) (h h' : heap) (parent : QModelIndex)
    (rows : InsertRows) :
  forward h → fetchMore m h parent = Some (h', rows) → forward h'.
Proof.
  intros Hf. unfold fetchMore.
  destruct (h !! p_item_of m parent) as [nd|] eqn:Hp; simpl; [|done].
  intros [= <- _]. by apply (forward_insert h _ nd).
Qed.

End builder.

(** ** The scenarios of the design, evaluated *)

Section scenarios.

Example path_of_str :
  PyPath.of_str "/a/b/f1.txt" = {| anchor := "/"; parts := ["a"; "b"; "f1.txt"] |}
  ∧ PyPath.parents_rev (PyPath.of_str "/a/b/f1.txt")
    = [PyPath.of_str "/"; PyPath.of_str "/a"; PyPath.of_str "/a/b"]
  ∧ PyPath.name (PyPath.of_str "/a/b/f1.txt") = "f1.txt"
  ∧ PyPath.of_str "/a//b/./c/" = PyPath.of_str "/a/b/c".
Proof. by vm_compute. Qed.

Example lower_and_in :
  PyStr.lower "Report-2024.TXT" = "report-2024.txt"
  ∧ PyStr.str_in "2024" "report-2024.txt" = true
  ∧ PyStr.str_in "2025" "report-2024.txt" = false.
Proof. by vm_compute. Qed.

(** The tree under [/a] has the two children [b] and [c]. *)
Example scenario_tree :
  map path heap_scenario
  = [PyPath.of_str ""; PyPath.of_str "/a"; PyPath.of_str "/a/b";
     PyPath.of_str "/a/b/f1.txt"; PyPath.of_str "/a/b/f2.log"; PyPath.of_str "/a/c"]
  ∧ map all_children heap_scenario = [[1]; [2; 5]; [3; 4]; []; []; []]%nat
  ∧ map is_dir heap_scenario = [true; true; true; false; false; true].
Proof. by vm_compute. Qed.

(** The filter ["f1"] leaves [f1.txt] and both folders, and hides [f2.log]. *)
Example scenario_filter :
  map visible_children <$> apply_filter 6 0 "f1" heap_scenario
  = Some [[1]; [2; 5]; [3]; []; []; []]%nat.
Proof. by vm_compute. Qed.

(** A sort of [/a/b] by ascending size puts [f2.log] (50) before
    [f1.txt] (100). *)
Example scenario_sort_by_size :
  match sort 2 (by_size AscendingOrder) heap_scenario with
  | Ok h => visible_children <$> h !! 2%nat
  | _ => None
  end = Some [4; 3]%nat.
Proof. by vm_compute. Qed.

(** The same entry read twice makes two nodes. *)
Example same_entry_twice :
  map path (loaded [file_item "/f" "1"; file_item "/f" "1"])
  = [PyPath.of_str ""; PyPath.of_str "/f"; PyPath.of_str "/f"].
Proof. by vm_compute. Qed.

End scenarios.
(** ** The properties of the design *)

(** C1, as the code has it.  A sort by name of a node whose recorded
    sorting differs from the one asked returns, permutes the visible
    children, puts the block of the folders before the block of the files in
    both directions, and orders each block by lower-cased name: ascending
    names for an ascending sort, descending names for a descending sort. *)
Theorem sort_by_name_folders_first (h : heap) (self : nat) (nd : FSNode) (o : SortOrder) :
  h !! self = Some nd →
  children_valid h (visible_children nd) →
  current_sort_state nd ≠ Some (by_name o) →
  ∃ vis,
    sort self (by_name o) h =
      Ok (<[self := set_children (all_children nd) vis (Some (by_name o)) nd]> h)
    ∧ vis ≡ₚ visible_children nd
    ∧ vis = List.filter (is_dir_ref h) vis ++ List.filter (λ c, negb (is_dir_ref h c)) vis
    ∧ StronglySorted (name_order h o) (List.filter (is_dir_ref h) vis)
    ∧ StronglySorted (name_order h o) (List.filter (λ c, negb (is_dir_ref h c)) vis)
    ∧ ∀ d n, List.filter (same_kind_and_name h d n) vis
             = List.filter (same_kind_and_name h d n) (visible_children nd).
Proof.
  intros Hs Hv Hne.
  destruct (sort_known_Ok self (by_name o) h nd Hs Hv) as [h' Hsort].
  { unfold known_column. simpl. unfold Column.Name. lia. }
  rewrite (sort_unfold self (by_name o) h nd Hs Hne) in Hsort |- *.
  simpl in Hsort |- *.
  destruct (PyCmp.list_sort _ _ _) as [vis| |] eqn:Hl; simpl in Hsort; try done.
  exists vis. split; [done|].
  pose proof (λ k, list_sort_stable _ _ _ _ k Hl) as Hstable.
  apply list_sort_spec in Hl as [Hp Hsorted].
  assert (StronglySorted (folders_first h o) vis) as Hff.
  { eapply StronglySorted_impl_elem; [|exact Hsorted].
    intros a b _ _. apply sorted_by_name_folders_first. }
  split; [done|]. split; [|split; [|split]]; cycle 3.
  { intros d n. specialize (Hstable (Bool.eqb d (descending o), VStr n)).
    unfold children_valid in Hv.
    rewrite (List.filter_ext_in (same_kind_and_name h d n)
               (has_key (sort_key_ref h (by_name o) (descending o))
                        (Bool.eqb d (descending o), VStr n)) vis).
    - rewrite Hstable. apply List.filter_ext_in. intros c Hc.
      apply has_key_by_name. rewrite Forall_forall in Hv.
      by apply Hv, list_elem_of_In.
    - intros c Hc. symmetry. apply has_key_by_name. rewrite Forall_forall in Hv.
      apply Hv. rewrite <- Hp. by apply list_elem_of_In. }
  - apply (sorted_blocks (folders_first h o)); [|done].
    intros a b [[Ha _]|[Hab _]] Hb; congruence.
  - eapply StronglySorted_impl_elem; [|apply StronglySorted_filter, Hff].
    intros a b Ha Hb [[_ Hbf]|[_ Hn]]; [|done].
    apply list_elem_of_In, filter_In in Hb as [_ Hb]. congruence.
  - eapply StronglySorted_impl_elem; [|apply StronglySorted_filter, Hff].
    intros a b Ha Hb [[Haf _]|[_ Hn]]; [|done].
    apply list_elem_of_In, filter_In in Ha as [_ Ha]. by rewrite Haf in Ha.
Qed.


Lemma sort_by_name_folders_first_witness :
  ∃ nd vis,
    heap_mixed !! 0%nat = Some nd
    ∧ children_valid heap_mixed (visible_children nd)
    ∧ current_sort_state nd ≠ Some (by_name DescendingOrder)
    ∧ sort 0 (by_name DescendingOrder) heap_mixed =
        Ok (<[0%nat := set_children (all_children nd) vis
                         (Some (by_name DescendingOrder)) nd]> heap_mixed)
    ∧ vis ≡ₚ visible_children nd
    ∧ vis = List.filter (is_dir_ref heap_mixed) vis
            ++ List.filter (λ c, negb (is_dir_ref heap_mixed c)) vis
    ∧ StronglySorted (name_order heap_mixed DescendingOrder)
        (List.filter (is_dir_ref heap_mixed) vis)
    ∧ StronglySorted (name_order heap_mixed DescendingOrder)
        (List.filter (λ c, negb (is_dir_ref heap_mixed c)) vis)
    ∧ ∀ d n, List.filter (same_kind_and_name heap_mixed d n) vis
             = List.filter (same_kind_and_name heap_mixed d n) (visible_children nd).
Proof.
  assert (∃ nd, heap_mixed !! 0%nat = Some nd
                ∧ children_valid heap_mixed (visible_children nd)
                ∧ current_sort_state nd ≠ Some (by_name DescendingOrder))
    as (nd & H1 & H2 & H3).
  { eexists. split; [vm_compute; reflexivity|]. split; [|done].
    repeat constructor; eexists; vm_compute; reflexivity. }
  destruct (sort_by_name_folders_first heap_mixed 0 nd DescendingOrder H1 H2 H3)
    as (vis & H).
  exists nd, vis. tauto.
Defined.

(** C1, the claim as written fails: after a descending sort by name of
    the root of [heap_mixed] the folders [/b] and [/a] are still first and
    the files [/d] and [/c] last. *)
Lemma sort_by_name_descending_folders_stay_first :
  ∃ h', sort 0 (by_name DescendingOrder) heap_mixed = Ok h'
        ∧ visible_children <$> h' !! 0%nat = Some [1; 3; 2; 4]%nat
        ∧ map (is_dir_ref h') [1; 3; 2; 4]%nat = [true; true; false; false]
        ∧ map (name_lower_ref h') [1; 3; 2; 4]%nat = ["b"; "a"; "d"; "c"].
Proof. eexists. split; [vm_compute; reflexivity|]. by vm_compute. Qed.

(** C2, as the code has it.  A new node has the cursor 10000 and shows
    no child, so [fetched_items] is past the visible children from the
    start; the filter leaves [fetched_items] of every node as it was; what
    stays within the visible children, also after a filter that takes some
    of them away, is the number of rows the model shows, the minimum of
    their number and the cursor the node had. *)
Theorem filter_keeps_fetched_items (m : FSModel) (fuel self : nat) (pattern : string)
    (h h' : heap) (parent : QModelIndex) (nd : FSNode) :
  apply_filter fuel self pattern h = Some h' →
  h !! p_item_of m parent = Some nd →
  (∀ path_ size_ modified_ permissions_ owner_ parent_,
     let new := FSNode_init path_ size_ modified_ permissions_ owner_ parent_ in
     fetched_items new = 10000 ∧ visible_children new = []
     ∧ ¬ fetched_items new ≤ len (visible_children new))
  ∧ (∀ n, fetched_items <$> h' !! n = fetched_items <$> h !! n)
  ∧ ∃ nd',
      h' !! p_item_of m parent = Some nd'
      ∧ fetched_items nd' = fetched_items nd
      ∧ rowCount m h' parent
        = Some (Z.min (len (visible_children nd')) (fetched_items nd))
      ∧ Z.min (len (visible_children nd')) (fetched_items nd)
        ≤ len (visible_children nd').
Proof.
  intros H Hp. split; [|split].
  - intros path_ size_ modified_ permissions_ owner_ parent_. simpl.
    split; [done|]. split; [done|]. unfold len. simpl. lia.
  - intros n. by eapply apply_filter_fetched_items.
  - pose proof (apply_filter_skeleton _ _ _ _ _ H) as Hsk.
    destruct (same_skeleton_lookup h h' _ nd Hsk Hp) as [vis Hnd'].
    exists (set_visible_children vis nd). split; [done|]. split; [done|].
    split; [|lia]. unfold rowCount. by rewrite Hnd'.
Qed.

Lemma filter_keeps_fetched_items_witness :
  ∃ h' nd,
    apply_filter 6 0 "f1" heap_scenario = Some h'
    ∧ heap_scenario !! p_item_of first_model (createIndex 0 0 2) = Some nd
    ∧ (∀ path_ size_ modified_ permissions_ owner_ parent_,
         let new := FSNode_init path_ size_ modified_ permissions_ owner_ parent_ in
         fetched_items new = 10000 ∧ visible_children new = []
         ∧ ¬ fetched_items new ≤ len (visible_children new))
    ∧ (∀ n, fetched_items <$> h' !! n = fetched_items <$> heap_scenario !! n)
    ∧ ∃ nd',
        h' !! p_item_of first_model (createIndex 0 0 2) = Some nd'
        ∧ fetched_items nd' = fetched_items nd
        ∧ rowCount first_model h' (createIndex 0 0 2)
          = Some (Z.min (len (visible_children nd')) (fetched_items nd))
        ∧ Z.min (len (visible_children nd')) (fetched_items nd)
          ≤ len (visible_children nd').
Proof.
  assert (∃ h' nd, apply_filter 6 0 "f1" heap_scenario = Some h'
                   ∧ heap_scenario !! p_item_of first_model (createIndex 0 0 2) = Some nd)
    as (h' & nd & H1 & H2).
  { eexists _, _. split; vm_compute; reflexivity. }
  exists h', nd. split; [done|]. split; [done|].
  exact (filter_keeps_fetched_items first_model 6 0 "f1" heap_scenario h'
           (createIndex 0 0 2) nd H1 H2).
Defined.

(** C2, the claim as written fails: the filter ["f1"] shrinks the visible
    children of [/a/b] from two to one and its [fetched_items] stays 10000. *)
Lemma fetched_items_exceeds_visible :
  ∃ h' nd nd',
    heap_scenario !! 2%nat = Some nd
    ∧ visible_children nd = [3; 4]%nat
    ∧ apply_filter 6 0 "f1" heap_scenario = Some h'
    ∧ h' !! 2%nat = Some nd'
    ∧ visible_children nd' = [3%nat]
    ∧ fetched_items nd' = 10000
    ∧ ¬ (fetched_items nd' ≤ len (visible_children nd')).
Proof.
  eexists _, _, _.
  split; [vm_compute; reflexivity|]. split; [reflexivity|].
  split; [vm_compute; reflexivity|]. split; [vm_compute; reflexivity|].
  split; [reflexivity|]. split; [reflexivity|]. by vm_compute.
Qed.

(** C3, evaluated where the code departs from it: the entry [/a] after
    the entry [/a/f] makes a second node for [/a] beside the ancestor made
    for [/a/f]; both are children of the root. *)
Theorem load_duplicate_path :
  (λ '(m, h, nm), (root_node m, map path h, map all_children h,
                   nm !! PyPath.of_str "/a"))
    <$> load_hdfs_file None [] [file_item "/a/f" "1"; dir_item "/a"]
  = Some (0%nat,
          [PyPath.of_str ""; PyPath.of_str "/a"; PyPath.of_str "/a/f"; PyPath.of_str "/a"],
          [[1; 3]; [2]; []; []]%nat,
          Some 3%nat).
Proof. vm_compute. reflexivity. Qed.

(** C4, as the code has it.  On a heap whose children follow their
    parent the filter returns; every node it visits, the node of the call
    and the descendants reached through folders, keeps its children and
    shows all of them for the empty pattern, and otherwise those that are
    folders or whose lower-cased name contains the pattern, in the order of
    [all_children]; every other node is left as it was. *)
Theorem apply_filter_visible_children (fuel self : nat) (pattern : string) (h : heap) :
  forward h → (self < List.length h)%nat → (List.length h - self ≤ fuel)%nat →
  ∃ h', apply_filter fuel self pattern h = Some h' ∧
    ∀ n nd, h !! n = Some nd →
      (dir_reachable h self n →
       ∃ nd', h' !! n = Some nd'
         ∧ all_children nd' = all_children nd
         ∧ visible_children nd' =
             if PyStr.is_empty pattern then all_children nd
             else List.filter (λ c, is_dir_ref h' c
                                    || PyStr.str_in pattern (name_lower_ref h' c))
                              (all_children nd))
      ∧ (¬ dir_reachable h self n → h' !! n = Some nd).
Proof.
  intros Hf Hs Hfuel.
  destruct (apply_filter_terminates fuel self pattern h Hf Hs Hfuel) as [h' H].
  exists h'. split; [done|]. intros n nd Hn.
  pose proof (apply_filter_skeleton _ _ _ _ _ H) as Hsk. split.
  - intros Hr. eexists. split; [by eapply apply_filter_reach|]. split; [done|].
    simpl. destruct (PyStr.is_empty pattern) eqn:Hp.
    + by apply spec_filter_empty.
    + rewrite spec_filter_nonempty by done. apply List.filter_ext. intros c.
      by rewrite (same_skeleton_is_dir_ref h h'), (same_skeleton_name_lower_ref h h').
  - intros Hnr. destruct (apply_filter_frame _ _ _ _ _ n H) as [Hsame|Hr]; [|done].
    by rewrite Hsame.
Qed.

Lemma apply_filter_visible_children_witness :
  forward heap_scenario
  ∧ (0 < List.length heap_scenario)%nat
  ∧ (List.length heap_scenario - 0 ≤ 6)%nat
  ∧ ∃ h', apply_filter 6 0 "f1" heap_scenario = Some h' ∧
      ∀ n nd, heap_scenario !! n = Some nd →
        (dir_reachable heap_scenario 0 n →
         ∃ nd', h' !! n = Some nd'
           ∧ all_children nd' = all_children nd
           ∧ visible_children nd' =
               if PyStr.is_empty "f1" then all_children nd
               else List.filter (λ c, is_dir_ref h' c
                                      || PyStr.str_in "f1" (name_lower_ref h' c))
                                (all_children nd))
        ∧ (¬ dir_reachable heap_scenario 0 n → h' !! n = Some nd).
Proof.
  assert (forward heap_scenario) as H1 by (apply forwardb_forward; by vm_compute).
  assert (0 < List.length heap_scenario)%nat as H2 by (vm_compute; lia).
  assert (List.length heap_scenario - 0 ≤ 6)%nat as H3 by (vm_compute; lia).
  split; [done|]. split; [done|]. split; [done|].
  exact (apply_filter_visible_children 6 0 "f1" heap_scenario H1 H2 H3).
Defined.

(** C4, the claim as written fails below a node that is not a folder:
    the children of the regular file [/x] are not filtered. *)
Lemma apply_filter_skips_below_file :
  ∃ h' nd',
    apply_filter 4 0 "x" heap_file_parent = Some h'
    ∧ h' !! 1%nat = Some nd'
    ∧ is_dir nd' = false
    ∧ all_children nd' = [2; 3]%nat
    ∧ visible_children nd' = [2; 3]%nat
    ∧ List.filter (λ c, is_dir_ref h' c || PyStr.str_in "x" (name_lower_ref h' c))
                  (all_children nd') = [2%nat].
Proof.
  eexists _, _. split; [vm_compute; reflexivity|]. split; [vm_compute; reflexivity|].
  by vm_compute.
Qed.

(** C5, evaluated where the code departs from it: on the node [/d] of
    [heap_mixed], which shows no child, a sort by the unknown column 7
    returns and records the criterion. *)
Theorem sort_unknown_column_no_children :
  ∃ h', sort 2 unknown_sorting heap_mixed = Ok h'
        ∧ ¬ known_column (column unknown_sorting)
        ∧ current_sort_state <$> h' !! 2%nat = Some (Some unknown_sorting)
        ∧ sort 2 unknown_sorting h' = Ok h'.
Proof.
  eexists. split; [vm_compute; reflexivity|].
  split; [unfold known_column; simpl; lia|]. by vm_compute.
Qed.

(** C6.  A sort that returned, asked again with the same specification,
    takes the guard: the recorded sorting is the specification and the
    second call returns the heap unchanged. *)
Theorem sort_twice_noop (h h' : heap) (self : nat) (s : Sorting) :
  sort self s h = Ok h' →
  current_sort_state <$> h' !! self = Some (Some s) ∧ sort self s h' = Ok h'.
Proof.
  unfold sort at 1. destruct (h !! self) as [nd|] eqn:Hs; [|done].
  destruct (decide (current_sort_state nd = Some s)) as [He|Hne].
  - intros [= <-]. rewrite Hs. simpl. split; [by rewrite He|].
    by apply (sort_guard self s h nd).
  - destruct (PyCmp.list_sort _ _ _) as [vis| |]; simpl; try done.
    intros [= <-].
    rewrite (lookup_insert_self h self nd) by done. split; [done|].
    eapply sort_guard; [eapply lookup_insert_self; exact Hs|done].
Qed.

Lemma sort_twice_noop_witness :
  ∃ h', sort 0 (by_size DescendingOrder) heap_mixed = Ok h'
        ∧ current_sort_state <$> h' !! 0%nat = Some (Some (by_size DescendingOrder))
        ∧ sort 0 (by_size DescendingOrder) h' = Ok h'.
Proof.
  assert (∃ h', sort 0 (by_size DescendingOrder) heap_mixed = Ok h') as [h' H].
  { eexists. vm_compute. reflexivity. }
  exists h'. split; [done|].
  exact (sort_twice_noop heap_mixed h' 0 (by_size DescendingOrder) H).
Defined.

(** C7.  On a heap whose children follow their parent the filter
    returns, and a second run with the same pattern returns the same heap:
    the same [visible_children] at every node. *)
Theorem apply_filter_idempotent (fuel self : nat) (pattern : string) (h : heap) :
  forward h → (self < List.length h)%nat → (List.length h - self ≤ fuel)%nat →
  ∃ h', apply_filter fuel self pattern h = Some h'
        ∧ apply_filter fuel self pattern h' = Some h'.
Proof.
  intros Hf Hs Hfuel.
  destruct (apply_filter_terminates fuel self pattern h Hf Hs Hfuel) as [h' H].
  exists h'. split; [done|]. by apply (apply_filter_twice fuel self pattern h h').
Qed.

Lemma apply_filter_idempotent_witness :
  forward heap_scenario
  ∧ (0 < List.length heap_scenario)%nat
  ∧ (List.length heap_scenario - 0 ≤ 6)%nat
  ∧ ∃ h', apply_filter 6 0 "f1" heap_scenario = Some h'
          ∧ apply_filter 6 0 "f1" h' = Some h'.
Proof.
  assert (forward heap_scenario) as H1 by (apply forwardb_forward; by vm_compute).
  assert (0 < List.length heap_scenario)%nat as H2 by (vm_compute; lia).
  assert (List.length heap_scenario - 0 ≤ 6)%nat as H3 by (vm_compute; lia).
  split; [done|]. split; [done|]. split; [done|].
  exact (apply_filter_idempotent 6 0 "f1" heap_scenario H1 H2 H3).
Defined.

(** C8, as the code has it.  A fetch sets the cursor to the minimum of
    the cursor plus the batch and the number of visible children, so the
    cursor is within the visible children afterwards; it does not decrease
    when it was within them before; the rows announced run from the old
    cursor to the new one minus one, and when the view was allowed to fetch
    these are the rows that the model did not show before and shows now.
    With 12001 visible children and the cursor at 10000 the fetch brings it
    to 12001 and announces the rows 10000 to 12000. *)
Theorem fetchMore_cursor (m : FSModel) (h : heap) (parent : QModelIndex) (nd : FSNode) :
  h !! p_item_of m parent = Some nd →
  BATCH nd = 10000 →
  ∃ h' nd',
    fetchMore m h parent =
      Some (h', {| ins_parent := parent; ins_first := fetched_items nd;
                   ins_last := fetched_items nd' - 1 |})
    ∧ h' !! p_item_of m parent = Some nd'
    ∧ visible_children nd' = visible_children nd
    ∧ fetched_items nd' = Z.min (fetched_items nd + 10000) (len (visible_children nd))
    ∧ fetched_items nd' ≤ len (visible_children nd')
    ∧ (fetched_items nd ≤ len (visible_children nd) → fetched_items nd ≤ fetched_items nd')
    ∧ (canFetchMore h parent = Some true →
       rowCount m h parent = Some (fetched_items nd)
       ∧ rowCount m h' parent = Some (fetched_items nd')
       ∧ fetched_items nd < fetched_items nd')
    ∧ (len (visible_children nd) = 12001 → fetched_items nd = 10000 →
       fetched_items nd' = 12001 ∧ fetched_items nd' - 1 = 12000).
Proof.
  intros Hp Hb.
  exists (<[p_item_of m parent :=
              set_fetched_items (Z.min (fetched_items nd + BATCH nd)
                                       (len (visible_children nd))) nd]> h),
         (set_fetched_items (Z.min (fetched_items nd + BATCH nd)
                                   (len (visible_children nd))) nd).
  split; [by apply fetchMore_eq|].
  split; [by apply (lookup_insert_self h _ nd)|].
  simpl. rewrite Hb. split; [done|]. split; [done|]. split; [lia|]. split; [lia|].
  split; [|lia].
  destruct parent as [|r c p]; [done|].
  intros Hc. apply (canFetchMore_true h r c p nd Hp) in Hc.
  unfold rowCount. rewrite Hp, (lookup_insert_self h _ nd) by done. simpl.
  split; [f_equal; lia|]. split; [f_equal; lia|lia].
Qed.

Lemma fetchMore_cursor_witness :
  ∃ nd,
    heap_large !! p_item_of first_model (createIndex 0 0 1) = Some nd
    ∧ BATCH nd = 10000
    ∧ len (visible_children nd) = 12001
    ∧ fetched_items nd = 10000
    ∧ canFetchMore heap_large (createIndex 0 0 1) = Some true
    ∧ ∃ h' nd',
        fetchMore first_model heap_large (createIndex 0 0 1) =
          Some (h', {| ins_parent := createIndex 0 0 1; ins_first := fetched_items nd;
                       ins_last := fetched_items nd' - 1 |})
        ∧ h' !! p_item_of first_model (createIndex 0 0 1) = Some nd'
        ∧ visible_children nd' = visible_children nd
        ∧ fetched_items nd' = Z.min (fetched_items nd + 10000) (len (visible_children nd))
        ∧ fetched_items nd' ≤ len (visible_children nd')
        ∧ (fetched_items nd ≤ len (visible_children nd) →
           fetched_items nd ≤ fetched_items nd')
        ∧ (canFetchMore heap_large (createIndex 0 0 1) = Some true →
           rowCount first_model heap_large (createIndex 0 0 1) = Some (fetched_items nd)
           ∧ rowCount first_model h' (createIndex 0 0 1) = Some (fetched_items nd')
           ∧ fetched_items nd < fetched_items nd')
        ∧ (len (visible_children nd) = 12001 → fetched_items nd = 10000 →
           fetched_items nd' = 12001 ∧ fetched_items nd' - 1 = 12000).
Proof.
  eexists. split; [reflexivity|]. split; [reflexivity|].
  split; [reflexivity|]. split; [reflexivity|]. split; [reflexivity|].
  apply (fetchMore_cursor first_model heap_large (createIndex 0 0 1)); reflexivity.
Defined.

(** C8, the claim as written fails: a fetch on the folder [/a/b], which
    shows two children and has the cursor of a new node, lowers the cursor
    from 10000 to 2 and announces the rows 10000 to 1. *)
Lemma fetchMore_decreases :
  ∃ nd h' nd',
    heap_scenario !! 2%nat = Some nd
    ∧ fetched_items nd = 10000
    ∧ fetchMore first_model heap_scenario (createIndex 0 0 2) =
        Some (h', {| ins_parent := createIndex 0 0 2; ins_first := 10000; ins_last := 1 |})
    ∧ h' !! 2%nat = Some nd'
    ∧ fetched_items nd' = 2
    ∧ ¬ (fetched_items nd ≤ fetched_items nd').
Proof.
  eexists _, _, _. split; [vm_compute; reflexivity|]. split; [reflexivity|].
  split; [vm_compute; reflexivity|]. split; [vm_compute; reflexivity|].
  split; [reflexivity|]. by vm_compute.
Qed.

(** C9.  After [append_child] the node has the child at the end of both
    lists and no recorded sorting, whatever was recorded before. *)
Theorem append_child_resets_sort_state (h : heap) (self child : nat) (nd : FSNode) :
  h !! self = Some nd →
  ∃ h', append_child self child h = Some h'
        ∧ h' !! self = Some (set_children (all_children nd ++ [child])
                                          (visible_children nd ++ [child]) None nd)
        ∧ current_sort_state <$> h' !! self = Some None.
Proof.
  intros Hs. unfold append_child. rewrite Hs. simpl. eexists. split; [done|].
  rewrite (lookup_insert_self h self nd) by done. done.
Qed.

Lemma append_child_resets_sort_state_witness :
  ∃ nd,
    heap_mixed_sorted !! 0%nat = Some nd
    ∧ current_sort_state nd = Some (by_name AscendingOrder)
    ∧ ∃ h', append_child 0 2 heap_mixed_sorted = Some h'
            ∧ h' !! 0%nat = Some (set_children (all_children nd ++ [2%nat])
                                               (visible_children nd ++ [2%nat]) None nd)
            ∧ current_sort_state <$> h' !! 0%nat = Some None.
Proof.
  eexists. split; [vm_compute; reflexivity|]. split; [reflexivity|].
  apply (append_child_resets_sort_state heap_mixed_sorted 0 2). vm_compute. reflexivity.
Defined.

(** C10.  In a sort by size the first component of the key tells folders
    from files, keys with equal first components have second components of
    one type, so any two keys can be compared without a [TypeError]; and the
    sort of a node whose visible children are in the heap returns. *)
Theorem sort_by_size_never_mixes (h : heap) (self : nat) (nd : FSNode) (o : SortOrder) :
  h !! self = Some nd →
  children_valid h (visible_children nd) →
  (∀ a b : FSNode, ∃ ka kb c,
     sort_key (by_size o) (descending o) a = Ok ka
     ∧ sort_key (by_size o) (descending o) b = Ok kb
     ∧ (ka.1 = kb.1 ↔ is_dir a = is_dir b)
     ∧ (ka.1 = kb.1 →
        (∃ s t, ka.2 = VStr s ∧ kb.2 = VStr t) ∨ (∃ x y, ka.2 = VInt x ∧ kb.2 = VInt y))
     ∧ PyCmp.key_lt ka kb = Ok c)
  ∧ ∃ h', sort self (by_size o) h = Ok h'.
Proof.
  intros Hs Hv. split.
  - intros a b.
    destruct (sort_key_comparable (by_size o) (descending o) a b _ _
                (sort_key_by_size o _ a) (sort_key_by_size o _ b)) as [c Hc].
    eexists _, _, c. split; [apply sort_key_by_size|]. split; [apply sort_key_by_size|].
    split; [|split; [|exact Hc]]; simpl.
    + destruct (is_dir a), (is_dir b), (descending o); simpl; split; done.
    + destruct (is_dir a), (is_dir b), (descending o); simpl; try done; eauto.
  - apply (sort_known_Ok self (by_size o) h nd Hs Hv).
    unfold known_column. simpl. unfold Column.Size. lia.
Qed.

Lemma sort_by_size_never_mixes_witness :
  ∃ nd,
    heap_mixed !! 0%nat = Some nd
    ∧ children_valid heap_mixed (visible_children nd)
    ∧ (∀ a b : FSNode, ∃ ka kb c,
         sort_key (by_size DescendingOrder) (descending DescendingOrder) a = Ok ka
         ∧ sort_key (by_size DescendingOrder) (descending DescendingOrder) b = Ok kb
         ∧ (ka.1 = kb.1 ↔ is_dir a = is_dir b)
         ∧ (ka.1 = kb.1 →
            (∃ s t, ka.2 = VStr s ∧ kb.2 = VStr t)
            ∨ (∃ x y, ka.2 = VInt x ∧ kb.2 = VInt y))
         ∧ PyCmp.key_lt ka kb = Ok c)
    ∧ ∃ h', sort 0 (by_size DescendingOrder) heap_mixed = Ok h'.
Proof.
  assert (∃ nd, heap_mixed !! 0%nat = Some nd
                ∧ children_valid heap_mixed (visible_children nd)) as (nd & H1 & H2).
  { eexists. split; [vm_compute; reflexivity|].
    repeat constructor; eexists; vm_compute; reflexivity. }
  exists nd. split; [done|]. split; [done|].
  exact (sort_by_size_never_mixes heap_mixed 0 nd DescendingOrder H1 H2).
Defined.

(** ** The shape of the tree that a load builds *)

Section growth.

Lemma same_attributes_refl (a : FSNode) : same_attributes a a.
Proof. by repeat split. Qed.

Lemma same_attributes_trans (a b c : FSNode) :
  same_attributes a b → same_attributes b c → same_attributes a c.
Proof. unfold same_attributes. intros H1 H2. destruct_and!. repeat split; congruence. Qed.

Lemma grows_trans (h1 h2 h3 : heap) : grows h1 h2 → grows h2 h3 → grows h1 h3.
Proof.
  induction 1 as [h|h c nd ha hb Hc Hall Hvis Hpar Happ _ IH]; [done|].
  intros H3. eapply grows_step; eauto.
Qed.

Lemma grows_one (h h1 : heap) (cur_ : nat) (nd : FSNode) :
  (cur_ < List.length h)%nat →
  all_children nd = [] → visible_children nd = [] → parent nd = Some cur_ →
  append_child cur_ (List.length h) (h ++ [nd]) = Some h1 → grows h h1.
Proof. intros. eapply grows_step; eauto. constructor. Qed.

(** One step, read on the lookups. *)
Lemma append_new_lookup (h h1 : heap) (cur_ : nat) (nd : FSNode) :
  (cur_ < List.length h)%nat →
  append_child cur_ (List.length h) (h ++ [nd]) = Some h1 →
  List.length h1 = S (List.length h)
  ∧ h1 !! List.length h = Some nd
  ∧ (∃ ndc, h !! cur_ = Some ndc
            ∧ h1 !! cur_ = Some (set_children (all_children ndc ++ [List.length h])
                                              (visible_children ndc ++ [List.length h])
                                              None ndc))
  ∧ (∀ n, n ≠ cur_ → (n < List.length h)%nat → h1 !! n = h !! n).
Proof.
  intros Hcur. destruct (lookup_lt_is_Some_2 h cur_ Hcur) as [ndc Hc].
  unfold append_child. rewrite lookup_app_l, Hc by done. simpl. intros [= <-].
  split; [rewrite length_insert, length_app; simpl; lia|]. split; [|split].
  - rewrite list_lookup_insert_ne by lia.
    rewrite lookup_app_r by lia. by rewrite Nat.sub_diag.
  - exists ndc. split; [done|].
    apply list_lookup_insert_eq. rewrite length_app. simpl. lia.
  - intros n Hne Hlt. rewrite list_lookup_insert_ne by done. by apply lookup_app_l.
Qed.

(** Nodes are never removed or rewritten: a node keeps its place, its
    attributes, and its children as a prefix of the later ones. *)
Lemma grows_lookup (h h' : heap) (n : nat) (nd : FSNode) :
  grows h h' → h !! n = Some nd →
  ∃ nd', h' !! n = Some nd' ∧ same_attributes nd nd'
         ∧ all_children nd `prefix_of` all_children nd'.
Proof.
  intros Hg. revert n nd.
  induction Hg as [h|h c ndn h1 h2 Hc Hall Hvis Hpar Happ _ IH]; intros n nd Hn.
  - exists nd. split; [done|]. split; [apply same_attributes_refl|done].
  - destruct (append_new_lookup h h1 c ndn Hc Happ) as (_ & _ & (ndc & Hcc & Hc1) & Hoth).
    pose proof (lookup_lt_Some _ _ _ Hn) as Hlt.
    destruct (decide (n = c)) as [->|Hne].
    + simplify_eq. destruct (IH _ _ Hc1) as (nd' & H' & Ha & Hp).
      exists nd'. split; [done|]. split.
      * eapply same_attributes_trans; [|exact Ha]. by repeat split.
      * etrans; [|exact Hp]. simpl. by apply prefix_app_r.
    + rewrite <- (Hoth n Hne Hlt) in Hn. by apply IH.
Qed.

Lemma grows_length (h h' : heap) : grows h h' → (List.length h ≤ List.length h')%nat.
Proof.
  induction 1 as [h|h c ndn h1 h2 Hc Hall Hvis Hpar Happ _ IH]; [done|].
  destruct (append_new_lookup h h1 c ndn Hc Happ) as (Hlen & _). lia.
Qed.

Lemma well_linked_valid (h : heap) (n c : nat) (nd : FSNode) :
  well_linked h → h !! n = Some nd → c ∈ all_children nd → (c < List.length h)%nat.
Proof.
  intros Hw Hn Hc. specialize (Hw n nd c Hn Hc).
  destruct (h !! c) eqn:E; [by eapply lookup_lt_Some|done].
Qed.

Lemma grows_well_linked (h h' : heap) : grows h h' → well_linked h → well_linked h'.
Proof.
  induction 1 as [h|h c ndn h1 h2 Hc Hall Hvis Hpar Happ _ IH]; [done|].
  intros Hw. apply IH. clear IH.
  destruct (append_new_lookup h h1 c ndn Hc Happ)
    as (Hlen & Hnew & (ndc & Hcc & Hc1) & Hoth).
  assert (∀ k, (k < List.length h)%nat → parent <$> h1 !! k = parent <$> h !! k) as Hpar1.
  { intros k Hk. destruct (decide (k = c)) as [->|Hne].
    - by rewrite Hc1, Hcc.
    - by rewrite Hoth. }
  intros n nd x Hn Hx.
  destruct (decide (n = c)) as [->|Hne].
  - rewrite Hc1 in Hn. simplify_eq. simpl in Hx.
    apply elem_of_app in Hx as [Hx|Hx].
    + rewrite Hpar1 by (by eapply well_linked_valid). by eapply Hw.
    + apply list_elem_of_singleton in Hx as ->. by rewrite Hnew, <- Hpar.
  - pose proof (lookup_lt_Some _ _ _ Hn) as Hlt.
    destruct (decide (n = List.length h)) as [->|Hne2].
    + rewrite Hnew in Hn. simplify_eq. rewrite Hall in Hx.
      by apply not_elem_of_nil in Hx.
    + rewrite Hoth in Hn by lia.
      rewrite Hpar1 by (by eapply well_linked_valid). by eapply Hw.
Qed.

Lemma grows_views_ok (h h' : heap) :
  grows h h' → well_linked h → views_ok h → well_linked h' ∧ views_ok h'.
Proof.
  induction 1 as [h|h c ndn h1 h2 Hc Hall Hvis Hpar Happ Hg IH]; [done|].
  intros Hw Hv.
  assert (grows h h1) as Hg1 by (by eapply grows_one).
  apply IH; [by eapply grows_well_linked|].
  destruct (append_new_lookup h h1 c ndn Hc Happ)
    as (Hlen & Hnew & (ndc & Hcc & Hc1) & Hoth).
  intros n nd Hn.
  destruct (decide (n = c)) as [->|Hne].
  - rewrite Hc1 in Hn. simplify_eq. simpl.
    destruct (Hv c ndc Hcc) as [Hnd Hsub]. split.
    + apply NoDup_app. split; [done|]. split; [|apply NoDup_singleton].
      intros x Hx Hx'. apply list_elem_of_singleton in Hx' as ->.
      pose proof (well_linked_valid h c _ ndc Hw Hcc Hx). lia.
    + by apply submseteq_app.
  - pose proof (lookup_lt_Some _ _ _ Hn) as Hlt.
    destruct (decide (n = List.length h)) as [->|Hne2].
    + rewrite Hnew in Hn. simplify_eq. rewrite Hall, Hvis.
      split; [constructor|done].
    + rewrite Hoth in Hn by lia. by apply (Hv n nd).
Qed.

Lemma grows_forward (h h' : heap) : grows h h' → forward h → forward h'.
Proof.
  induction 1 as [h|h c ndn h1 h2 Hc Hall Hvis Hpar Happ _ IH]; [done|].
  intros Hf. apply IH.
  destruct (append_new_child h c ndn Hf Hc Hall) as (h1' & Happ' & Hf1 & _).
  assert (h1' = h1) as -> by congruence. done.
Qed.

End growth.

Section builder_growth.

Lemma resolve_parent_grows (model : option FSModel) (parent_ : Path) (b b' : builder) :
  builder_ok b → resolve_parent model parent_ b = Some b' →
  grows (b_heap b) (b_heap b').
Proof.
  intros (Hf & Hm & Hc). unfold resolve_parent.
  destruct (node_map b !! parent_) as [node|].
  - intros [= <-]. constructor.
  - destruct (find_child model (b_heap b) (cur_children b) parent_)
      as [[[[|r c node]|] g]|]; simpl; try done.
    + intros [= <-]. constructor.
    + unfold new_node.
      destruct (append_child _ _ _) as [h2|] eqn:Happ; simpl; [|done].
      intros [= <-]. simpl. by eapply grows_one; [exact Hc| | | |exact Happ].
Qed.

Lemma resolve_parents_grows (model : option FSModel) (ps : list Path) (b b' : builder) :
  builder_ok b → resolve_parents model ps b = Some b' →
  grows (b_heap b) (b_heap b').
Proof.
  revert b. induction ps as [|p ps IH]; intros b Hb; simpl.
  - intros [= <-]. constructor.
  - destruct (resolve_parent model p b) as [b1|] eqn:H1; simpl; [|done].
    intros H2. eapply grows_trans; [by eapply resolve_parent_grows|].
    apply IH; [|done]. by apply (resolve_parent_ok model p b b1).
Qed.

(** One entry: the heap grows, and the last object is the node of the
    entry, held by its parent and bound to its path. *)
Lemma load_entry_grows (model : option FSModel) (root : nat) (i : FSItem)
    (h h' : heap) (nm nm' : gmap Path nat) :
  forward h → map_valid h nm → (root < List.length h)%nat →
  load_entry model root i (h, nm) = Some (h', nm') →
  grows h h'
  ∧ ∃ n nd p ndp,
      h' !! n = Some nd ∧ entry_node i nd ∧ all_children nd = []
      ∧ parent nd = Some p ∧ h' !! p = Some ndp ∧ n ∈ all_children ndp
      ∧ nm' !! PyPath.of_str (item_path i) = Some n.
Proof.
  intros Hf Hm Hr. unfold load_entry. simpl.
  destruct (resolve_parents _ _ _) as [b|] eqn:Hb; simpl; [|done].
  assert (builder_ok {| b_heap := h; node_map := nm; cur := root;
                        cur_children := GenStart InvalidIndex |}) as Hb0 by done.
  pose proof (resolve_parents_grows _ _ _ _ Hb0 Hb) as Hg. simpl in Hg.
  apply resolve_parents_ok in Hb as [(Hfb & Hmb & Hcb) Hle]; [|done].
  destruct (PyStr.int_of_str (item_size i)) as [sz|] eqn:Hsz; simpl; [|done].
  unfold new_node.
  destruct (append_child _ _ _) as [h2|] eqn:Happ; simpl; [|done].
  intros [= <- <-].
  destruct (append_new_lookup _ _ _ _ Hcb Happ) as (Hlen & Hnew & (ndc & Hcc & Hc1) & _).
  split.
  - eapply grows_trans; [exact Hg|]. by eapply grows_one; [exact Hcb| | | |exact Happ].
  - eexists _, _, _, _. split; [exact Hnew|]. split; [by repeat split|].
    split; [done|]. split; [done|]. split; [exact Hc1|]. split.
    + simpl. apply elem_of_app. right. by apply list_elem_of_singleton.
    + apply lookup_insert_eq.
Qed.

(** The cap: the entries from the 300000th on are not read. *)
Lemma load_entries_cap (model : option FSModel) (root : nat) (idx : Z)
    (items : list FSItem) (st : heap * gmap Path nat) :
  0 ≤ idx ≤ 300000 →
  load_entries model root idx items st
  = load_entries model root idx (take (Z.to_nat (300000 - idx)) items) st.
Proof.
  revert idx st. induction items as [|i items IH]; intros idx st Hidx.
  - by rewrite take_nil.
  - destruct (Z.eqb_spec idx 300000) as [->|Hne].
    + simpl. done.
    + replace (Z.to_nat (300000 - idx)) with (S (Z.to_nat (300000 - (idx + 1)))) by lia.
      simpl. destruct (Z.eqb_spec idx 300000) as [|_]; [done|].
      destruct (load_entry model root i st) as [st'|]; simpl; [|done].
      apply IH. lia.
Qed.

Lemma load_entries_grows (model : option FSModel) (root : nat) (idx : Z)
    (items : list FSItem) (h h' : heap) (nm nm' : gmap Path nat) :
  0 ≤ idx ≤ 300000 →
  forward h → map_valid h nm → (root < List.length h)%nat →
  load_entries model root idx items (h, nm) = Some (h', nm') →
  grows h h'
  ∧ ∀ i, i ∈ take (Z.to_nat (300000 - idx)) items →
         ∃ n nd p ndp,
           h' !! n = Some nd ∧ entry_node i nd
           ∧ parent nd = Some p ∧ h' !! p = Some ndp ∧ n ∈ all_children ndp.
Proof.
  revert idx h nm. induction items as [|i items IH]; intros idx h nm Hidx Hf Hm Hr.
  - simpl. intros [= <- <-]. split; [constructor|].
    intros i. rewrite take_nil. by intros ?%not_elem_of_nil.
  - simpl. destruct (Z.eqb_spec idx 300000) as [->|Hne].
    + intros [= <- <-]. split; [constructor|]. intros i'. simpl.
      by intros ?%not_elem_of_nil.
    + destruct (load_entry model root i (h, nm)) as [[h1 nm1]|] eqn:H1; simpl; [|done].
      intros H2.
      destruct (load_entry_ok _ _ _ _ _ _ _ Hf Hm Hr H1) as (Hf1 & Hm1 & Hle).
      destruct (load_entry_grows _ _ _ _ _ _ _ Hf Hm Hr H1)
        as (Hg1 & n & nd & p & ndp & Hn & He & _ & Hp & Hpp & Hin & _).
      destruct (IH (idx + 1) h1 nm1 ltac:(lia) Hf1 Hm1 ltac:(lia) H2) as (Hg2 & Hitems).
      split; [by eapply grows_trans|].
      replace (Z.to_nat (300000 - idx)) with (S (Z.to_nat (300000 - (idx + 1)))) by lia.
      intros i'. simpl. intros [->|Hi']%elem_of_cons; [|by apply Hitems].
      destruct (grows_lookup _ _ _ _ Hg2 Hn) as (nd' & Hn' & Ha & _).
      destruct (grows_lookup _ _ _ _ Hg2 Hpp) as (ndp' & Hp' & _ & Hpre).
      exists n, nd', p, ndp'. split; [done|]. split.
      * unfold entry_node, same_attributes in *. destruct_and!.
        repeat split; congruence.
      * split; [unfold same_attributes in Ha; destruct_and!; congruence|].
        split; [done|]. destruct Hpre as [k ->]. apply elem_of_app. by left.
Qed.

End builder_growth.

Section load_growth.

Lemma load_start_ok (model : option FSModel) (h : heap) :
  forward h → well_linked h → views_ok h →
  forward (load_start model h) ∧ well_linked (load_start model h)
  ∧ views_ok (load_start model h).
Proof.
  intros Hf Hw Hv. destruct model as [m|]; [done|]. simpl.
  split; [by apply forward_new_node|]. split.
  - intros n nd c Hn Hc.
    destruct (decide (n < List.length h)%nat) as [Hlt|Hge].
    + rewrite lookup_app_l in Hn by done.
      rewrite lookup_app_l by (by eapply well_linked_valid). by eapply Hw.
    + rewrite lookup_app_r in Hn by lia.
      destruct (n - List.length h)%nat; simpl in Hn; [|done].
      simplify_eq. by apply not_elem_of_nil in Hc.
  - intros n nd Hn.
    destruct (decide (n < List.length h)%nat) as [Hlt|Hge].
    + rewrite lookup_app_l in Hn by done. by apply (Hv n nd).
    + rewrite lookup_app_r in Hn by lia.
      destruct (n - List.length h)%nat; simpl in Hn; [|done].
      simplify_eq. simpl. split; [constructor|done].
Qed.

Lemma load_start_lookup (model : option FSModel) (h : heap) (n : nat) (nd : FSNode) :
  h !! n = Some nd → load_start model h !! n = Some nd.
Proof.
  intros Hn. destruct model; [done|]. simpl. rewrite lookup_app_l; [done|].
  by eapply lookup_lt_Some.
Qed.

(** A load, as growth from its starting heap. *)
Lemma load_hdfs_file_grows (model : option FSModel) (h h' : heap) (items : list FSItem)
    (m' : FSModel) (nm : gmap Path nat) :
  forward h →
  (∀ m, model = Some m → (root_node m < List.length h)%nat) →
  load_hdfs_file model h items = Some (m', h', nm) →
  grows (load_start model h) h'
  ∧ ∀ i, i ∈ take (Z.to_nat 300000) items →
         ∃ n nd p ndp,
           h' !! n = Some nd ∧ entry_node i nd
           ∧ parent nd = Some p ∧ h' !! p = Some ndp ∧ n ∈ all_children ndp.
Proof.
  intros Hf Hroot. unfold load_hdfs_file.
  destruct model as [m|].
  - destruct (load_entries _ _ _ _ _) as [[h1 nm1]|] eqn:H1; simpl; [|done].
    intros [= <- <- <-].
    apply load_entries_grows in H1; [done|lia|done| |by apply Hroot].
    intros p n. destruct (decide (PyPath.root_path = p)) as [<-|Hne].
    + rewrite lookup_singleton_eq. intros [= <-]. by apply Hroot.
    + by rewrite lookup_singleton_ne.
  - unfold new_node.
    destruct (load_entries _ _ _ _ _) as [[h1 nm1]|] eqn:H1; simpl; [|done].
    intros [= <- <- <-].
    apply load_entries_grows in H1; [done|lia| | |].
    + by apply forward_new_node.
    + intros p n. rewrite length_app. simpl.
      destruct (decide (PyPath.root_path = p)) as [<-|Hne].
      * rewrite lookup_singleton_eq. intros [= <-]. lia.
      * by rewrite lookup_singleton_ne.
    + rewrite length_app. simpl. lia.
Qed.

End load_growth.

(** ** The entry parser *)

Section parser_strings.

Lemma string_app_nil_r (s : string) : (s ++ "")%string = s.
Proof. induction s as [|c s IH]; [done|]. by rewrite append_String, IH. Qed.

Lemma string_app_assoc (a b c : string) :
  ((a ++ b) ++ c)%string = (a ++ (b ++ c))%string.
Proof. induction a as [|x a IH]; [done|]. by rewrite !append_String, IH. Qed.

Lemma string_length_app (a b : string) :
  String.length (a ++ b) = (String.length a + String.length b)%nat.
Proof. induction a as [|x a IH]; [done|]. rewrite append_String. simpl. by rewrite IH. Qed.

Lemma substring_prefix (w rest : string) :
  String.substring 0 (String.length w) (w ++ rest) = w.
Proof.
  induction w as [|c w IH]; simpl.
  - by destruct rest.
  - by rewrite IH.
Qed.

Lemma consumed_app (w rest : string) : Re.consumed (w ++ rest) rest = w.
Proof.
  unfold Re.consumed. rewrite string_length_app.
  replace (String.length w + String.length rest - String.length rest)%nat
    with (String.length w) by lia.
  apply substring_prefix.
Qed.

Lemma all_chars_app (cls : ascii → bool) (a b : string) :
  all_chars cls (a ++ b) = all_chars cls a && all_chars cls b.
Proof.
  induction a as [|x a IH]; [done|]. rewrite append_String. simpl.
  by rewrite IH, andb_assoc.
Qed.

Lemma first_char_app (a b : string) (c : ascii) :
  first_char a = Some c → first_char (a ++ b) = Some c.
Proof. by destruct a. Qed.

Lemma last_char_app (a b : string) (c : ascii) :
  last_char b = Some c → last_char (a ++ b) = Some c.
Proof.
  intros Hb. induction a as [|x a IH]; [done|]. rewrite append_String.
  revert IH. generalize (a ++ b)%string. by intros [|y s] IH.
Qed.

Lemma field_first (cls : ascii → bool) (w : string) :
  field cls w → ∃ c, first_char w = Some c ∧ cls c = true.
Proof.
  intros [Hne Hall]. destruct w as [|c w]; [done|]. exists c. simpl in *.
  by apply andb_true_iff in Hall as [-> _].
Qed.

Lemma chars_first (n : nat) (cls : ascii → bool) (w : string) :
  chars (S n) cls w → ∃ c, first_char w = Some c ∧ cls c = true.
Proof.
  intros [Hlen Hall]. destruct w as [|c w]; [done|]. exists c. simpl in *.
  by apply andb_true_iff in Hall as [-> _].
Qed.

(** [strip] removes the blanks around a text that has none at its ends. *)
Lemma lstrip_app (lead s : string) (c : ascii) :
  all_chars Re.is_space lead = true → first_char s = Some c → Re.is_space c = false →
  Re.lstrip (lead ++ s) = s.
Proof.
  intros Hl Hs Hc. induction lead as [|x lead IH].
  - rewrite append_empty. destruct s as [|y s]; [done|].
    simpl in Hs. simplify_eq. simpl. by rewrite Hc.
  - simpl in Hl. apply andb_true_iff in Hl as [Hx Hl].
    rewrite append_String. cbn [Re.lstrip]. rewrite Hx. by apply IH.
Qed.

Lemma rstrip_blank (trail : string) :
  all_chars Re.is_space trail = true → Re.rstrip trail = "".
Proof.
  induction trail as [|x t IH]; [done|]. cbn [all_chars Re.rstrip].
  intros [Hx Ht]%andb_true_iff. by rewrite IH, Hx.
Qed.

Lemma rstrip_cons (x : ascii) (s : string) :
  Re.rstrip s ≠ "" → Re.rstrip (String x s) = String x (Re.rstrip s).
Proof. cbn [Re.rstrip]. by destruct (Re.rstrip s). Qed.

Lemma rstrip_app (s trail : string) (c : ascii) :
  all_chars Re.is_space trail = true → last_char s = Some c → Re.is_space c = false →
  Re.rstrip (s ++ trail) = s.
Proof.
  intros Ht Hs Hc. induction s as [|x s IH]; [done|].
  rewrite append_String. destruct s as [|y s].
  - simpl in Hs. simplify_eq. rewrite append_empty. cbn [Re.rstrip].
    by rewrite rstrip_blank, Hc.
  - rewrite rstrip_cons; rewrite IH by done; done.
Qed.

Lemma strip_app (lead s trail : string) (c d : ascii) :
  all_chars Re.is_space lead = true → all_chars Re.is_space trail = true →
  first_char s = Some c → Re.is_space c = false →
  last_char s = Some d → Re.is_space d = false →
  Re.strip (lead ++ s ++ trail) = s.
Proof.
  intros Hl Ht Hc1 Hc2 Hd1 Hd2. unfold Re.strip.
  rewrite (lstrip_app lead (s ++ trail) c); [|done|by apply first_char_app|done].
  by apply (rstrip_app s trail d).
Qed.

End parser_strings.

Section matcher.
Context {R : Type}.
Implicit Types (k : string → option R) (r : R).

(** What a match tells: the string splits into a word of the atom and a
    rest on which the continuation succeeded. *)
Lemma many_inv cls s k r :
  Re.many cls s k = Some r →
  ∃ w rest, s = (w ++ rest)%string ∧ all_chars cls w = true ∧ k rest = Some r.
Proof.
  induction s as [|c s IH]; cbn [Re.many].
  - intros Hk. by exists "", "".
  - destruct (cls c) eqn:Hc; [|intros Hk; by exists "", (String c s)].
    destruct (Re.many cls s k) as [r'|] eqn:Hm.
    + intros [= <-]. destruct (IH eq_refl) as (w & rest & -> & Hw & Hk).
      exists (String c w), rest. rewrite append_String. simpl. by rewrite Hc, Hw.
    + intros Hk. by exists "", (String c s).
Qed.

Lemma rep_inv n cls s k r :
  Re.rep n cls s k = Some r →
  ∃ w rest, s = (w ++ rest)%string ∧ chars n cls w ∧ k rest = Some r.
Proof.
  revert s. induction n as [|n IH]; intros s; cbn [Re.rep].
  - intros Hk. by exists "", s.
  - destruct s as [|c s]; [done|]. destruct (cls c) eqn:Hc; [|done].
    intros (w & rest & -> & [Hlen Hw] & Hk)%IH.
    exists (String c w), rest. rewrite append_String. split; [done|]. split; [|done].
    split; simpl; [by rewrite Hlen|by rewrite Hc, Hw].
Qed.

Lemma match_atom_inv a s k r :
  Re.match_atom a s k = Some r →
  ∃ w rest, s = (w ++ rest)%string ∧ atom_match a w ∧ k rest = Some r.
Proof.
  destruct a as [cls|n cls|c]; cbn [Re.match_atom atom_match].
  - destruct s as [|c s]; [done|]. destruct (cls c) eqn:Hc; [|done].
    intros (w & rest & -> & Hw & Hk)%many_inv.
    exists (String c w), rest. rewrite append_String. split; [done|]. split; [|done].
    split; [done|]. simpl. by rewrite Hc, Hw.
  - apply rep_inv.
  - destruct s as [|c' s]; [done|]. destruct (Ascii.eqb_spec c' c) as [->|]; [|done].
    intros Hk. by exists (String c ""), s.
Qed.

Lemma match_atoms_inv l s k r :
  Re.match_atoms l s k = Some r →
  ∃ w rest, s = (w ++ rest)%string ∧ atoms_match l w ∧ k rest = Some r.
Proof.
  revert s. induction l as [|a l IH]; intros s; cbn [Re.match_atoms atoms_match].
  - intros Hk. by exists "", s.
  - intros (w1 & s1 & -> & Ha & (w2 & rest & -> & Hl & Hk)%IH)%match_atom_inv.
    exists (w1 ++ w2)%string, rest. rewrite string_app_assoc. split; [done|].
    split; [|done]. by exists w1, w2.
Qed.

(** What makes a match: the word of a greedy [cls+] followed by a rest
    that stops it, when the continuation succeeds on that rest. *)
Lemma many_greedy cls w rest k r :
  all_chars cls w = true → stops cls rest → k rest = Some r →
  Re.many cls (w ++ rest) k = Some r.
Proof.
  intros Hw Hstop Hk. induction w as [|c w IH].
  - rewrite append_empty. destruct rest as [|c rest]; [done|].
    simpl in Hstop. cbn [Re.many]. by rewrite Hstop.
  - simpl in Hw. apply andb_true_iff in Hw as [Hc Hw].
    rewrite append_String. cbn [Re.many]. by rewrite Hc, IH.
Qed.

Lemma plus_greedy cls w rest k r :
  field cls w → stops cls rest → k rest = Some r →
  Re.match_atom (Re.Plus cls) (w ++ rest) k = Some r.
Proof.
  intros [Hne Hw] Hstop Hk. destruct w as [|c w]; [done|].
  simpl in Hw. apply andb_true_iff in Hw as [Hc Hw].
  rewrite append_String. cbn [Re.match_atom]. rewrite Hc. by apply many_greedy.
Qed.

Lemma rep_exact n cls w rest k :
  chars n cls w → Re.match_atom (Re.Rep n cls) (w ++ rest) k = k rest.
Proof.
  cbn [Re.match_atom]. intros [Hlen Hw]. revert n Hlen.
  induction w as [|c w IH]; intros n Hlen; simpl in Hlen; subst n.
  - by rewrite append_empty.
  - simpl in Hw. apply andb_true_iff in Hw as [Hc Hw].
    rewrite append_String. cbn [Re.rep]. rewrite Hc. by apply IH.
Qed.

Lemma lit_exact c rest k :
  Re.match_atom (Re.Lit c) (String c "" ++ rest) k = k rest.
Proof. rewrite append_String, append_empty. cbn [Re.match_atom]. by rewrite Ascii.eqb_refl. Qed.

End matcher.

Section matcher_elems.

Lemma match_elems_sound (l : list Re.elem) (s : string) (caps out : list (string * string)) :
  Re.match_elems l s caps = Some out → elems_match l s caps out.
Proof.
  revert s caps. induction l as [|e l IH]; intros s caps.
  - cbn. by intros [= <-].
  - destruct e as [a|name_ body|]; cbn [Re.match_elems elems_match].
    + intros (w & rest & -> & Ha & Hk)%match_atom_inv.
      exists w, rest. split; [done|]. split; [done|]. by apply IH.
    + intros (w & rest & -> & Ha & Hk)%match_atoms_inv.
      exists w, rest. split; [done|]. split; [done|].
      rewrite consumed_app in Hk. by apply IH.
    + destruct (String.eqb_spec s "") as [->|Hne]; simpl.
      * intros Hk. split; [by left|]. by apply IH.
      * destruct (String.eqb_spec s (String "010" "")) as [->|Hne2]; [|done].
        intros Hk. split; [by right|]. by apply IH.
Qed.

(** Classes that exclude each other. *)
Lemma perm_not_space (c : ascii) : Re.is_perm c = true → Re.is_space c = false.
Proof. destruct c as [[] [] [] [] [] [] [] []]; by vm_compute. Qed.

Lemma space_not_digit_or_dash (c : ascii) :
  Re.is_space c = true → Re.is_digit_or_dash c = false.
Proof. destruct c as [[] [] [] [] [] [] [] []]; by vm_compute. Qed.

Lemma digit_or_dash_not_space (c : ascii) :
  Re.is_digit_or_dash c = true → Re.is_space c = false.
Proof. destruct c as [[] [] [] [] [] [] [] []]; by vm_compute. Qed.

Lemma space_not_digit (c : ascii) : Re.is_space c = true → Re.is_digit c = false.
Proof. destruct c as [[] [] [] [] [] [] [] []]; by vm_compute. Qed.

Lemma digit_not_space (c : ascii) : Re.is_digit c = true → Re.is_space c = false.
Proof. destruct c as [[] [] [] [] [] [] [] []]; by vm_compute. Qed.

Lemma space_not_not_space (c : ascii) : Re.is_space c = true → Re.not_space c = false.
Proof. unfold Re.not_space. by intros ->. Qed.

Lemma not_space_not_space (c : ascii) : Re.not_space c = true → Re.is_space c = false.
Proof. unfold Re.not_space. by destruct (Re.is_space c). Qed.

Lemma stops_first (cls : ascii → bool) (w rest : string) (c : ascii) :
  first_char w = Some c → cls c = false → stops cls (w ++ rest).
Proof. destruct w as [|x w]; [done|]. simpl. by intros [= ->]. Qed.

Lemma stops_field (cls cls' : ascii → bool) (w rest : string) :
  (∀ c, cls' c = true → cls c = false) → field cls' w → stops cls (w ++ rest).
Proof.
  intros Hex (c & Hc & Hcls)%field_first. eapply stops_first; [done|]. by apply Hex.
Qed.

Lemma stops_chars (cls cls' : ascii → bool) (n : nat) (w rest : string) :
  (∀ c, cls' c = true → cls c = false) → chars (S n) cls' w → stops cls (w ++ rest).
Proof.
  intros Hex (c & Hc & Hcls)%chars_first. eapply stops_first; [done|]. by apply Hex.
Qed.

(** A string of digits is a number for [int] when it is not too long. *)
Lemma digit_of_is_digit (c : ascii) :
  Re.is_digit c = true → is_Some (PyStr.digit_of c) ∧ PyStr.int_space c = false.
Proof.
  destruct c as [[] [] [] [] [] [] [] []]; try discriminate 1; intros _;
    (split; [by eexists|done]).
Qed.

Lemma int_digits_all (acc : Z) (count : nat) (s : string) :
  all_chars Re.is_digit s = true →
  ∃ v, PyStr.int_digits acc count s = Some (v, (count + String.length s)%nat, "").
Proof.
  revert acc count. induction s as [|c s IH]; intros acc count; simpl.
  - intros _. exists acc. by rewrite Nat.add_0_r.
  - intros [Hc Hs]%andb_true_iff.
    destruct (digit_of_is_digit c Hc) as [[d ->] _].
    destruct (IH (10 * acc + d) (S count) Hs) as [v ->]. exists v.
    do 3 f_equal. lia.
Qed.

Lemma int_of_str_digits (s : string) :
  field Re.is_digit s →
  is_Some (PyStr.int_of_str s)
  ↔ Z.of_nat (String.length s) ≤ PyStr.int_max_str_digits.
Proof.
  intros [Hne Hs]. destruct s as [|c s]; [done|].
  pose proof Hs as [Hc Hs']%andb_true_iff.
  destruct (digit_of_is_digit c Hc) as [[d Hd] Hsp].
  destruct (int_digits_all 0 0 (String c s) Hs) as [v Hv].
  assert (PyStr.int_of_str (String c s)
          = if PyStr.int_max_str_digits <? Z.of_nat (String.length (String c s))
            then None else Some v) as ->.
  { unfold PyStr.int_of_str. cbn [PyStr.skip_int_space]. rewrite Hsp.
    assert (c ≠ "-"%char ∧ c ≠ "+"%char) as [Hm Hp]
      by (split; intros ->; discriminate Hc).
    assert ((let '(negative, s2) :=
               match String c s with
               | String "-" r => (true, r)
               | String "+" r => (false, r)
               | _ => (false, String c s)
               end in
             match s2 with
             | EmptyString => None
             | String c0 _ =>
                 match PyStr.digit_of c0 with
                 | None => None
                 | Some _ =>
                     match PyStr.int_digits 0 0 s2 with
                     | None => None
                     | Some (v0, count, rest) =>
                         if negb (PyStr.is_empty (PyStr.skip_int_space rest)) then None
                         else if PyStr.int_max_str_digits <? Z.of_nat count then None
                         else Some (if negative : bool then - v0 else v0)
                     end
                 end
             end)
            = match PyStr.digit_of c with
              | None => None
              | Some _ =>
                  match PyStr.int_digits 0 0 (String c s) with
                  | None => None
                  | Some (v0, count, rest) =>
                      if negb (PyStr.is_empty (PyStr.skip_int_space rest)) then None
                      else if PyStr.int_max_str_digits <? Z.of_nat count then None
                      else Some v0
                  end
              end) as ->.
    { destruct c as [[] [] [] [] [] [] [] []]; try done. }
    rewrite Hd, Hv. done. }
  destruct (Z.ltb_spec PyStr.int_max_str_digits (Z.of_nat (String.length (String c s))));
    split; intros H'; try done; try lia.
Qed.

End matcher_elems.

Section record_match.

Lemma space_not_perm (c : ascii) : Re.is_space c = true → Re.is_perm c = false.
Proof. destruct c as [[] [] [] [] [] [] [] []]; by vm_compute. Qed.

Lemma plus_greedy_end {R} (cls : ascii → bool) (w : string)
    (k : string → option R) (r : R) :
  field cls w → k "" = Some r → Re.match_atom (Re.Plus cls) w k = Some r.
Proof.
  intros Hw Hk. rewrite <- (string_app_nil_r w). by apply plus_greedy.
Qed.

Lemma consumed_all (s : string) : Re.consumed s "" = s.
Proof. rewrite <- (string_app_nil_r s) at 1. apply consumed_app. Qed.

(** The pattern on a record: each group takes its field. *)
Lemma record_grammar_match
    (perms sp1 repl sp2 owner_ sp3 group_ sp4 size_ sp5
     yyyy mm dd sp6 hh mi sp7 path_ : string) :
  field Re.is_perm perms → field Re.is_space sp1 →
  field Re.is_digit_or_dash repl → field Re.is_space sp2 →
  field Re.not_space owner_ → field Re.is_space sp3 →
  field Re.not_space group_ → field Re.is_space sp4 →
  field Re.is_digit size_ → field Re.is_space sp5 →
  chars 4 Re.is_digit yyyy → chars 2 Re.is_digit mm → chars 2 Re.is_digit dd →
  field Re.is_space sp6 → chars 2 Re.is_digit hh → chars 2 Re.is_digit mi →
  field Re.is_space sp7 → line_path path_ →
  Re.match_elems record_grammar
    (record_text perms sp1 repl sp2 owner_ sp3 group_ sp4 size_ sp5
                 (date_time yyyy mm dd sp6 hh mi) sp7 path_) []
  = Some [("perms", perms); ("owner", owner_); ("group", group_); ("size", size_);
          ("dt_mod", date_time yyyy mm dd sp6 hh mi); ("path", path_)].
Proof.
  intros Hperms Hsp1 Hrepl Hsp2 Howner Hsp3 Hgroup Hsp4 Hsize Hsp5
         Hy Hm Hd Hsp6 Hh Hmi Hsp7 (Hpath & (c & Hc & Hcs) & _).
  assert (field Re.not_newline path_) as Hpf.
  { split; [|done]. by destruct path_. }
  unfold record_text, record_grammar.
  cbn [Re.match_elems Re.match_atoms].
  apply plus_greedy; [done|by eapply stops_field; [apply space_not_perm|]|].
  rewrite consumed_app. cbn [app].
  apply plus_greedy; [done|by eapply stops_field; [apply digit_or_dash_not_space|]|].
  apply plus_greedy; [done|by eapply stops_field; [apply space_not_digit_or_dash|]|].
  apply plus_greedy; [done|by eapply stops_field; [apply not_space_not_space|]|].
  apply plus_greedy; [done|by eapply stops_field; [apply space_not_not_space|]|].
  rewrite consumed_app. cbn [app].
  apply plus_greedy; [done|by eapply stops_field; [apply not_space_not_space|]|].
  apply plus_greedy; [done|by eapply stops_field; [apply space_not_not_space|]|].
  rewrite consumed_app. cbn [app].
  apply plus_greedy; [done|by eapply stops_field; [apply digit_not_space|]|].
  apply plus_greedy; [done|by eapply stops_field; [apply space_not_digit|]|].
  rewrite consumed_app. cbn [app].
  apply plus_greedy; [done| |].
  { unfold date_time. rewrite string_app_assoc.
    by eapply stops_chars; [apply digit_not_space|]. }
  (* the date and the time *)
  set (rest := (sp7 ++ path_)%string).
  set (caps := [("perms", perms); ("owner", owner_); ("group", group_); ("size", size_)]).
  assert ((date_time yyyy mm dd sp6 hh mi ++ rest)%string
          = (yyyy ++ "-" ++ mm ++ "-" ++ dd ++ sp6 ++ hh ++ ":" ++ mi ++ rest)%string)
    as Hdt by (unfold date_time; by rewrite !string_app_assoc).
  rewrite <- (consumed_app (date_time yyyy mm dd sp6 hh mi) rest) at 2.
  rewrite Hdt.
  rewrite (rep_exact 4) by done. rewrite lit_exact.
  rewrite (rep_exact 2) by done. rewrite lit_exact.
  rewrite (rep_exact 2) by done.
  apply plus_greedy; [done|by eapply stops_chars; [apply digit_not_space|]|].
  rewrite (rep_exact 2) by done. rewrite lit_exact.
  rewrite (rep_exact 2) by done.
  rewrite <- Hdt, consumed_app. unfold rest, caps. cbn [app].
  apply plus_greedy; [done|destruct path_; simpl in *; by simplify_eq|].
  apply plus_greedy_end; [done|].
  by rewrite consumed_all.
Qed.

End record_match.

Section parse_line.

(** A stripped line does not end with a blank. *)
Lemma rstrip_last (s : string) (c : ascii) :
  last_char (Re.rstrip s) = Some c → Re.is_space c = false.
Proof.
  induction s as [|x s IH]; [done|]. cbn [Re.rstrip].
  destruct (Re.rstrip s) as [|y r] eqn:Hr.
  - destruct (Re.is_space x) eqn:Hx; [done|]. simpl. by intros [= <-].
  - intros H. apply IH. exact H.
Qed.

Lemma parse_line_inv (line : string) (i : FSItem) :
  parse_line line = Some i → parsed_from line i.
Proof.
  unfold parse_line.
  destruct (Re.match_elems record_grammar (Re.strip line) []) as [caps|] eqn:Hm;
    simpl; [|done].
  apply match_elems_sound in Hm. unfold record_grammar in Hm.
  cbn [elems_match atoms_match atom_match app] in Hm.
  destruct Hm as (perms & r1 & Hs & (wp & e1 & -> & Hperms & ->) & Hm).
  destruct Hm as (sp1 & r2 & -> & Hsp1 & Hm).
  destruct Hm as (repl & r3 & -> & Hrepl & Hm).
  destruct Hm as (sp2 & r4 & -> & Hsp2 & Hm).
  destruct Hm as (owner_ & r5 & -> & (wo & e2 & -> & Howner & ->) & Hm).
  destruct Hm as (sp3 & r6 & -> & Hsp3 & Hm).
  destruct Hm as (group_ & r7 & -> & (wg & e3 & -> & Hgroup & ->) & Hm).
  destruct Hm as (sp4 & r8 & -> & Hsp4 & Hm).
  destruct Hm as (size_ & r9 & -> & (ws & e4 & -> & Hsize & ->) & Hm).
  destruct Hm as (sp5 & r10 & -> & Hsp5 & Hm).
  destruct Hm as (dt & r11 & -> & Hdt & Hm).
  destruct Hm as (sp7 & r12 & -> & Hsp7 & Hm).
  destruct Hm as (path_ & r13 & -> & (wpa & e5 & -> & Hpath & ->) & Hend & ->).
  rewrite !string_app_nil_r in *.
  simpl. intros [= <-]. simpl.
  assert (r13 = "") as ->.
  { destruct Hend as [-> | ->]; [done|]. exfalso.
    assert (last_char (Re.strip line) = Some "010"%char) as Hl.
    { rewrite Hs. by do 13 apply last_char_app. }
    by apply rstrip_last in Hl. }
  rewrite string_app_nil_r in Hs.
  exists sp1, repl, sp2, sp3, sp4, sp5, sp7. simpl.
  split; [exact Hs|]. repeat (split; [assumption|]). assumption.
Qed.

End parse_line.

Section parse_file.

Lemma parse_line_blank (line : string) :
  all_chars Re.is_space line = true → parse_line line = None.
Proof.
  intros Hb. destruct (parse_line line) as [i|] eqn:Hp; [|done]. exfalso.
  destruct (parse_line_inv line i Hp) as (sp1 & repl & sp2 & sp3 & sp4 & sp5 & sp7 & Hs & H).
  assert (Re.strip line = "") as Hempty.
  { unfold Re.strip. clear -Hb. induction line as [|c l IH]; [done|].
    simpl in Hb. apply andb_true_iff in Hb as [Hc Hl]. cbn [Re.lstrip].
    rewrite Hc. by apply IH. }
  rewrite Hempty in Hs. unfold record_text in Hs.
  destruct H as (_ & _ & _ & _ & _ & _ & _ & [Hne _] & _).
  by destruct (item_perms i).
Qed.

Lemma parse_filelist_sizes (lines : list string) :
  Forall (λ i, field Re.is_digit (item_size i)) (_parse_filelist_file lines).
Proof.
  unfold _parse_filelist_file. apply Forall_forall. intros i Hi.
  apply list_elem_of_omap in Hi as (line & _ & Hp).
  destruct (parse_line_inv line i Hp)
    as (sp1 & repl & sp2 & sp3 & sp4 & sp5 & sp7 & _ & H).
  tauto.
Qed.

End parse_file.

Section sort_columns.

(** What a sort that returned has written. *)
Lemma sort_inv (self : nat) (s : Sorting) (h h' : heap) :
  sort self s h = Ok h' →
  ∃ nd vis, h !! self = Some nd
            ∧ h' = <[self := set_children (all_children nd) vis (Some s) nd]> h
            ∧ vis ≡ₚ visible_children nd.
Proof.
  unfold sort. destruct (h !! self) as [nd|] eqn:Hs; [|done].
  destruct (decide (current_sort_state nd = Some s)) as [He|Hne].
  - intros [= <-]. exists nd, (visible_children nd). split; [done|]. split; [|done].
    symmetry. rewrite <- He. destruct nd. by apply list_insert_id.
  - destruct (PyCmp.list_sort _ _ _) as [vis| |] eqn:Hl; simpl; try done.
    intros [= <-]. exists nd, vis. split; [done|]. split; [done|].
    by apply list_sort_spec in Hl as [Hp _].
Qed.

Lemma sort_is_dir_ref (self : nat) (s : Sorting) (h h' : heap) (c : nat) :
  sort self s h = Ok h' → is_dir_ref h' c = is_dir_ref h c.
Proof.
  intros (nd & vis & Hs & -> & _)%sort_inv. unfold is_dir_ref.
  destruct (decide (c = self)) as [->|Hne].
  - rewrite (lookup_insert_self h self nd) by done. by rewrite Hs.
  - by rewrite list_lookup_insert_ne.
Qed.

Lemma sort_name_lower_ref (self : nat) (s : Sorting) (h h' : heap) (c : nat) :
  sort self s h = Ok h' → name_lower_ref h' c = name_lower_ref h c.
Proof.
  intros (nd & vis & Hs & -> & _)%sort_inv. unfold name_lower_ref.
  destruct (decide (c = self)) as [->|Hne].
  - rewrite (lookup_insert_self h self nd) by done. by rewrite Hs.
  - by rewrite list_lookup_insert_ne.
Qed.

Lemma sort_key_ref_by_size (h : heap) (o : SortOrder) (reverse : bool) (c : nat) (k : key) :
  sort_key_ref h (by_size o) reverse c = Ok k →
  k = (Bool.eqb (is_dir_ref h c) reverse,
       if is_dir_ref h c then VStr (name_lower_ref h c) else VInt (size_ref h c)).
Proof.
  unfold sort_key_ref, is_dir_ref, name_lower_ref, size_ref.
  destruct (h !! c) as [child|]; [|done]. rewrite sort_key_by_size. by intros [= <-].
Qed.

(** The order of a sort by size, read on the nodes. *)
Lemma sorted_by_size_folders_first (h : heap) (o : SortOrder) (a b : nat) :
  sorted_by (sort_key_ref h (by_size o) (descending o)) (descending o) a b →
  folders_first_by_size h o a b.
Proof.
  intros (ka & kb & Ha & Hb & Hle).
  apply sort_key_ref_by_size in Ha as ->. apply sort_key_ref_by_size in Hb as ->.
  unfold folders_first_by_size, name_order, name_le, size_order.
  destruct (descending o), (is_dir_ref h a), (is_dir_ref h b);
    unfold key_le, key_compare in Hle; simpl in Hle; try done;
    first [ by left
          | right; left; split; [done|]; split; [done|]; by apply string_leb_compare
          | right; right; split; [done|]; split; [done|]; exact Hle ].
Qed.

Lemma has_key_by_size_folder (h : heap) (o : SortOrder) (reverse : bool) (n : string)
    (c : nat) :
  is_Some (h !! c) →
  has_key (sort_key_ref h (by_size o) reverse) (Bool.eqb true reverse, VStr n) c
  = same_kind_and_name h true n c.
Proof.
  intros [child Hc].
  unfold has_key, sort_key_ref, same_kind_and_name, is_dir_ref, name_lower_ref.
  rewrite Hc, sort_key_by_size. simpl.
  destruct (is_dir child); simpl.
  - destruct (String.eqb_spec (name_lower child) n) as [->|Hn].
    + by apply bool_decide_eq_true_2.
    + apply bool_decide_eq_false_2. congruence.
  - apply bool_decide_eq_false_2. destruct reverse; simpl; congruence.
Qed.

Lemma has_key_by_size_file (h : heap) (o : SortOrder) (reverse : bool) (z : Z) (c : nat) :
  is_Some (h !! c) →
  has_key (sort_key_ref h (by_size o) reverse) (Bool.eqb false reverse, VInt z) c
  = file_of_size h z c.
Proof.
  intros [child Hc].
  unfold has_key, sort_key_ref, file_of_size, is_dir_ref, size_ref.
  rewrite Hc, sort_key_by_size. simpl.
  destruct (is_dir child); simpl.
  - apply bool_decide_eq_false_2. destruct reverse; simpl; congruence.
  - destruct (Z.eqb_spec (size child) z) as [->|Hn].
    + by apply bool_decide_eq_true_2.
    + apply bool_decide_eq_false_2. congruence.
Qed.

Lemma sort_key_text (s : Sorting) (reverse : bool) (nd : FSNode) :
  text_column (column s) →
  sort_key s reverse nd = Ok (false, VStr (text_of (column s) nd)).
Proof.
  unfold text_column, sort_key, text_of,
    Column.Name, Column.Size, Column.Modified, Column.Permissions, Column.Owner.
  intros H.
  destruct (Z.eqb_spec (column s) 0); [lia|].
  destruct (Z.eqb_spec (column s) 1); [lia|].
  destruct (Z.eqb_spec (column s) 2); [done|].
  destruct (Z.eqb_spec (column s) 3); [done|].
  destruct (Z.eqb_spec (column s) 4); [done|lia].
Qed.

Lemma sort_key_ref_text (h : heap) (s : Sorting) (reverse : bool) (c : nat) (k : key) :
  text_column (column s) →
  sort_key_ref h s reverse c = Ok k → k = (false, VStr (text_ref h (column s) c)).
Proof.
  intros Ht. unfold sort_key_ref, text_ref.
  destruct (h !! c) as [child|]; [|done]. rewrite sort_key_text by done.
  by intros [= <-].
Qed.

Lemma sorted_by_text (h : heap) (s : Sorting) (a b : nat) :
  text_column (column s) →
  sorted_by (sort_key_ref h s (descending (order s))) (descending (order s)) a b →
  text_order h (column s) (order s) a b.
Proof.
  intros Ht (ka & kb & Ha & Hb & Hle).
  apply sort_key_ref_text in Ha as ->; [|done].
  apply sort_key_ref_text in Hb as ->; [|done].
  unfold text_order. destruct (descending (order s));
    unfold key_le, key_compare in Hle; simpl in Hle; by apply string_leb_compare.
Qed.

Lemma has_key_text (h : heap) (s : Sorting) (reverse : bool) (t : string) (c : nat) :
  text_column (column s) → is_Some (h !! c) →
  has_key (sort_key_ref h s reverse) (false, VStr t) c = same_text h (column s) t c.
Proof.
  intros Ht [child Hc]. unfold has_key, sort_key_ref, same_text, text_ref.
  rewrite Hc, sort_key_text by done. simpl.
  destruct (String.eqb_spec (text_of (column s) child) t) as [->|Hn].
  - by apply bool_decide_eq_true_2.
  - apply bool_decide_eq_false_2. congruence.
Qed.

(** Stability read through a description of the keys. *)
Lemma filter_stable_as (f : nat → outcome key) (k : key) (p : nat → bool)
    (vis l : list nat) :
  vis ≡ₚ l →
  (∀ c, c ∈ l → has_key f k c = p c) →
  List.filter (has_key f k) vis = List.filter (has_key f k) l →
  List.filter p vis = List.filter p l.
Proof.
  intros Hp Hk Hst.
  rewrite <- (List.filter_ext_in (has_key f k) p vis).
  - rewrite Hst. apply List.filter_ext_in. intros c Hc. by apply Hk, list_elem_of_In.
  - intros c Hc. apply Hk. rewrite <- Hp. by apply list_elem_of_In.
Qed.

End sort_columns.

Section model.

Lemma list_index_lookup (x : nat) (l : list nat) (r : nat) :
  list_index x l = Some r → l !! r = Some x.
Proof.
  revert r. induction l as [|y l IH]; intros r; simpl; [done|].
  destruct (decide (y = x)) as [->|Hne].
  - by intros [= <-].
  - destruct (list_index x l) as [r'|]; simpl; [|done].
    intros [= <-]. simpl. by apply IH.
Qed.

Lemma list_index_None (x : nat) (l : list nat) :
  list_index x l = None ↔ x ∉ l.
Proof.
  induction l as [|y l IH]; simpl.
  - split; [intros _; apply not_elem_of_nil|done].
  - destruct (decide (y = x)) as [->|Hne].
    + split; [done|]. intros H. exfalso. apply H. left.
    + rewrite not_elem_of_cons. destruct (list_index x l) as [r|]; simpl.
      * split; [done|]. intros [_ H]. by apply IH in H.
      * split; [|done]. intros _. split; [done|]. by apply IH.
Qed.

Lemma list_index_NoDup (x : nat) (l : list nat) (r : nat) :
  NoDup l → l !! r = Some x → list_index x l = Some r.
Proof.
  intros Hnd Hr.
  destruct (list_index x l) as [r'|] eqn:Hi.
  - f_equal. apply list_index_lookup in Hi.
    by apply (NoDup_lookup l r' r x).
  - apply list_index_None in Hi. exfalso. apply Hi.
    by eapply list_elem_of_lookup_2.
Qed.

Lemma getitem_elem_of {A} (l : list A) (i : Z) (x : A) :
  getitem l i = Some x → x ∈ l.
Proof.
  unfold getitem. destruct (0 <=? i); [by apply list_elem_of_lookup_2|].
  destruct (0 <=? len l + i); [by apply list_elem_of_lookup_2|done].
Qed.

Lemma getitem_nonneg {A} (l : list A) (i : Z) :
  0 ≤ i → getitem l i = l !! Z.to_nat i.
Proof. intros H. unfold getitem. by destruct (Z.leb_spec 0 i); [|lia]. Qed.

Lemma views_ok_visible (h : heap) (n : nat) (nd : FSNode) (c : nat) :
  views_ok h → h !! n = Some nd → c ∈ visible_children nd → c ∈ all_children nd.
Proof.
  intros Hv Hn Hc. destruct (Hv n nd Hn) as [_ Hsub].
  by apply (elem_of_submseteq (visible_children nd)).
Qed.

Lemma views_ok_NoDup (h : heap) (n : nat) (nd : FSNode) :
  views_ok h → h !! n = Some nd → NoDup (visible_children nd).
Proof.
  intros Hv Hn. destruct (Hv n nd Hn) as [Hnd Hsub].
  apply submseteq_Permutation in Hsub as [k Hk]. rewrite Hk in Hnd.
  by apply NoDup_app in Hnd as [? _].
Qed.

(** The index of a row: its pointer is a shown child, which refers back
    to the node of the parent index. *)
Lemma index_inv (m : FSModel) (h : heap) (row col : Z) (parent_ idx : QModelIndex) :
  well_linked h → views_ok h →
  index m h row col parent_ = Some idx →
  ∃ nd c child,
    h !! p_item_of m parent_ = Some nd
    ∧ getitem (visible_children nd) row = Some c
    ∧ idx = createIndex row col c
    ∧ h !! c = Some child ∧ parent child = Some (p_item_of m parent_).
Proof.
  intros Hw Hv. unfold index.
  destruct (h !! p_item_of m parent_) as [nd|] eqn:Hn; simpl; [|done].
  destruct (getitem (visible_children nd) row) as [c|] eqn:Hg; simpl; [|done].
  intros [= <-].
  assert (c ∈ all_children nd) as Hc
    by (eapply views_ok_visible; [done..|by eapply getitem_elem_of]).
  pose proof (Hw _ _ _ Hn Hc) as Hp.
  destruct (h !! c) as [child|] eqn:Hch; simpl in Hp; [|done].
  exists nd, c, child. repeat split; try done. congruence.
Qed.

Lemma fetchMore_times_S (k : nat) (m : FSModel) (h : heap) (parent_ : QModelIndex)
    (nd : FSNode) :
  h !! p_item_of m parent_ = Some nd →
  fetchMore_times (S k) m h parent_
  = fetchMore_times k m
      (<[p_item_of m parent_ :=
           set_fetched_items (Z.min (fetched_items nd + BATCH nd)
                                    (len (visible_children nd))) nd]> h)
      parent_.
Proof. intros Hn. simpl. unfold fetchMore. by rewrite Hn. Qed.

End model.

Section model_more.

Lemma list_index_first (x : nat) (l : list nat) (r j : nat) :
  list_index x l = Some r → (j < r)%nat → l !! j ≠ Some x.
Proof.
  revert r j. induction l as [|y l IH]; intros r j; simpl; [done|].
  destruct (decide (y = x)) as [->|Hne].
  - intros [= <-]. lia.
  - destruct (list_index x l) as [r'|] eqn:Hi; simpl; [|done].
    intros [= <-] Hj. destruct j as [|j]; simpl; [congruence|].
    apply (IH r'); [done|lia].
Qed.

Lemma set_fetched_items_twice (a b : Z) (nd : FSNode) :
  set_fetched_items a (set_fetched_items b nd) = set_fetched_items a nd.
Proof. done. Qed.

Lemma fetchMore_times_eq (k : nat) (m : FSModel) (h : heap) (parent_ : QModelIndex)
    (nd : FSNode) :
  h !! p_item_of m parent_ = Some nd → 0 ≤ BATCH nd →
  fetchMore_times (S k) m h parent_
  = Some (<[p_item_of m parent_ :=
              set_fetched_items
                (Z.min (fetched_items nd + Z.of_nat (S k) * BATCH nd)
                       (len (visible_children nd))) nd]> h).
Proof.
  revert h nd. induction k as [|k IH]; intros h nd Hn HB.
  - rewrite (fetchMore_times_S 0 m h parent_ nd Hn). simpl fetchMore_times.
    do 3 f_equal. lia.
  - rewrite (fetchMore_times_S (S k) m h parent_ nd Hn).
    set (nd1 := set_fetched_items _ nd).
    rewrite (IH _ nd1); [|by apply (lookup_insert_self h _ nd)|done].
    rewrite list_insert_insert_eq. subst nd1. rewrite set_fetched_items_twice.
    simpl. do 3 f_equal. lia.
Qed.

End model_more.

Section loaded_trees.

(** The tree of a first load. *)
Lemma first_load_tree (items : list FSItem) (m : FSModel) (h : heap) (nm : gmap Path nat) :
  load_hdfs_file None [] items = Some (m, h, nm) →
  forward h ∧ well_linked h ∧ views_ok h
  ∧ root_node m = 0%nat ∧ parent <$> h !! 0%nat = Some None.
Proof.
  intros Hload.
  assert (well_linked []) as Hw by (intros n nd c Hn; by rewrite lookup_nil in Hn).
  assert (views_ok []) as Hv by (intros n nd Hn; by rewrite lookup_nil in Hn).
  destruct (load_hdfs_file_grows None [] h _ m nm forward_nil ltac:(done) Hload)
    as [Hg _].
  destruct (load_start_ok None [] forward_nil Hw Hv) as (Hf0 & Hw0 & Hv0).
  destruct (grows_views_ok _ _ Hg Hw0 Hv0) as [Hw' Hv'].
  split; [by eapply grows_forward|]. split; [done|]. split; [done|].
  split.
  - unfold load_hdfs_file, new_node in Hload. simpl in Hload.
    destruct (load_entries _ _ _ _ _) as [[h1 nm1]|]; simpl in Hload; by simplify_eq.
  - destruct (grows_lookup _ _ 0 (FSNode_init PyPath.empty_path 0 "" "" "" None) Hg)
      as (nd' & -> & Hsame & _); [done|].
    simpl. destruct Hsame as (_ & _ & _ & _ & <- & _). done.
Qed.

(** The sample heaps are such trees. *)
Lemma loaded_tree (items : list FSItem) :
  Forall (λ i, is_Some (PyStr.int_of_str (item_size i))) items →
  forward (loaded items) ∧ well_linked (loaded items) ∧ views_ok (loaded items)
  ∧ parent <$> loaded items !! 0%nat = Some None.
Proof.
  intros Hitems. unfold loaded.
  destruct (load_hdfs_file_first_load items Hitems) as [[[m h] nm] Hload].
  rewrite Hload. destruct (first_load_tree items m h nm Hload) as (? & ? & ? & _ & ?).
  done.
Qed.

End loaded_trees.
Section reordering.

Context (s : Sorting).

Lemma reordered_refl (h : heap) : reordered s h h.
Proof.
  apply Forall2_same_length_lookup_2; [done|]. intros i a b Ha Hb.
  assert (b = a) as -> by congruence.
  exists (visible_children a), (current_sort_state a). split; [by destruct a|].
  split; [done|by left].
Qed.

Lemma reordered_trans (h g k : heap) : reordered s h g → reordered s g k → reordered s h k.
Proof.
  intros H1 H2. eapply Forall2_trans; [|exact H1|exact H2].
  intros a b c (v & st & -> & Hv & Hst) (w & st' & -> & Hw & Hst').
  exists w, st'. split; [done|]. simpl in *. split; [by rewrite Hw|].
  destruct Hst' as [-> | ->]; [done|by right].
Qed.

Lemma reordered_length (h g : heap) : reordered s h g → List.length g = List.length h.
Proof. intros H. symmetry. by eapply Forall2_length. Qed.

Lemma reordered_lookup (h g : heap) (n : nat) (a : FSNode) :
  reordered s h g → h !! n = Some a →
  ∃ vis st, g !! n = Some (set_children (all_children a) vis st a)
            ∧ vis ≡ₚ visible_children a
            ∧ (st = current_sort_state a ∨ st = Some s).
Proof.
  intros H Ha. destruct (Forall2_lookup_l _ _ _ _ _ H Ha) as (b & Hb & v & st & -> & Hv).
  by exists v, st.
Qed.

Lemma reordered_lookup_r (h g : heap) (n : nat) (b : FSNode) :
  reordered s h g → g !! n = Some b →
  ∃ a, h !! n = Some a ∧ all_children b = all_children a
       ∧ visible_children b ≡ₚ visible_children a
       ∧ is_dir b = is_dir a ∧ fetched_items b = fetched_items a.
Proof.
  intros H Hb. destruct (Forall2_lookup_r _ _ _ _ _ H Hb) as (a & Ha & v & st & -> & Hv & _).
  by exists a.
Qed.

Lemma sort_reordered (self : nat) (h h' : heap) :
  sort self s h = Ok h' → reordered s h h'.
Proof.
  intros (nd & vis & Hs & -> & Hp)%sort_inv.
  rewrite <- (list_insert_id h self nd Hs) at 1.
  apply Forall2_insert; [apply reordered_refl|].
  exists vis, (Some s). split; [done|]. split; [done|by right].
Qed.

Lemma reordered_forward (h g : heap) : reordered s h g → forward h → forward g.
Proof.
  intros H Hf n b c Hb Hc.
  destruct (reordered_lookup_r h g n b H Hb) as (a & Ha & Hall & _).
  rewrite (reordered_length h g H). rewrite Hall in Hc. by apply (Hf n a c).
Qed.

Lemma reordered_views_ok (h g : heap) : reordered s h g → views_ok h → views_ok g.
Proof.
  intros H Hv n b Hb.
  destruct (reordered_lookup_r h g n b H Hb) as (a & Ha & Hall & Hvis & _).
  destruct (Hv n a Ha) as [Hnd Hsub]. rewrite Hall, Hvis. done.
Qed.

Lemma reordered_rowCount (m : FSModel) (h g : heap) (idx : QModelIndex) :
  reordered s h g → rowCount m g idx = rowCount m h idx.
Proof.
  intros H. unfold rowCount.
  destruct (h !! p_item_of m idx) as [a|] eqn:Ha.
  - destruct (reordered_lookup h g _ a H Ha) as (v & st & -> & Hv & _). simpl.
    unfold len. by rewrite Hv.
  - assert (g !! p_item_of m idx = None) as ->; [|done].
    apply lookup_ge_None. rewrite (reordered_length h g H). by apply lookup_ge_None.
Qed.

End reordering.

Section shown_rows.

(** The rows that the model counts have an index. *)
Lemma index_within_rows (m : FSModel) (h : heap) (parent_ : QModelIndex) (n row col : Z) :
  rowCount m h parent_ = Some n → 0 ≤ row < n →
  ∃ nd c,
    h !! p_item_of m parent_ = Some nd
    ∧ visible_children nd !! Z.to_nat row = Some c
    ∧ index m h row col parent_ = Some (createIndex row col c).
Proof.
  unfold rowCount, index.
  destruct (h !! p_item_of m parent_) as [nd|] eqn:Hn; simpl; [|done].
  intros [= <-] Hrow.
  destruct (lookup_lt_is_Some_2 (visible_children nd) (Z.to_nat row)) as [c Hc].
  { unfold len in Hrow. lia. }
  exists nd, c. split; [done|]. split; [done|].
  rewrite getitem_nonneg by lia. by rewrite Hc.
Qed.

(** A row that the model counts is a child made after its parent. *)
Lemma index_row_child (m : FSModel) (h : heap) (idx : QModelIndex) (n i : Z) :
  forward h → views_ok h →
  rowCount m h idx = Some n → 0 ≤ i < n →
  ∃ c, index m h i 0 idx = Some (createIndex i 0 c)
       ∧ index_row m h i idx = Returns (createIndex i 0 c)
       ∧ (p_item_of m idx < c < List.length h)%nat.
Proof.
  intros Hf Hv Hn Hi.
  destruct (index_within_rows m h idx n i 0 Hn Hi) as (nd & c & Hnd & Hc & Hidx).
  exists c. split; [done|]. split; [unfold index_row; by rewrite Hnd, Hidx|].
  apply (Hf _ nd c Hnd). eapply views_ok_visible; [done..|].
  by eapply list_elem_of_lookup_2.
Qed.

End shown_rows.

Section sort_expanded_runs.

Context (isExpanded : QModelIndex → bool) (m : FSModel) (s : Sorting).
Hypothesis Hsorting : sorting m = Some s.
Hypothesis Hknown : known_column (column s).

(** The loop over the rows returns when its body does on every row; it
    reorders if the body does, and leaves alone the node of the index and
    the nodes made before it if the body leaves alone those before the
    row. *)
Lemma for_expanded_ok (body : QModelIndex → heap → result heap) (idx : QModelIndex)
    (n : Z) (L : nat) :
  (∀ j c g, forward g → views_ok g → List.length g = L →
            (p_item_of m idx < c < L)%nat →
            ∃ g', body (createIndex j 0 c) g = Returns g' ∧ reordered s g g'
                  ∧ ∀ k, (k < c)%nat → g' !! k = g !! k) →
  ∀ remaining i h,
    forward h → views_ok h → List.length h = L →
    rowCount m h idx = Some n → 0 ≤ i →
    (∀ j, i ≤ j < i + Z.of_nat remaining → j < n) →
    ∃ h', for_expanded isExpanded body m idx i remaining h = Returns h'
          ∧ reordered s h h'
          ∧ ∀ k, (k ≤ p_item_of m idx)%nat → h' !! k = h !! k.
Proof.
  intros Hbody. induction remaining as [|remaining IH]; intros i h Hf Hv HL Hn Hi Hrange.
  - exists h. split; [done|]. split; [apply reordered_refl|done].
  - destruct (index_row_child m h idx n i Hf Hv Hn) as (c & _ & Hrow & Hc).
    { split; [done|]. apply Hrange. lia. }
    cbn [for_expanded]. rewrite Hrow. simpl.
    assert (∃ g, (if isExpanded (createIndex i 0 c)
                  then body (createIndex i 0 c) h else Returns h) = Returns g
                 ∧ reordered s h g
                 ∧ ∀ k, (k < c)%nat → g !! k = h !! k) as (g & -> & Hg & Hframe).
    { destruct (isExpanded _).
      - apply Hbody; [done..|]. by rewrite <- HL.
      - exists h. split; [done|]. split; [apply reordered_refl|done]. }
    simpl.
    destruct (IH (i + 1) g) as (h' & Hloop & Hh' & Hframe');
      [by eapply reordered_forward|by eapply reordered_views_ok
      |by rewrite (reordered_length s h g)|by rewrite (reordered_rowCount s m h g)
      |lia|intros j Hj; apply Hrange; lia|].
    exists h'. split; [done|]. split; [by eapply reordered_trans|].
    intros k Hk. rewrite Hframe' by done. apply Hframe. lia.
Qed.

(** The visible children of a node of a tree are nodes of the heap. *)
Lemma visible_children_valid (h : heap) (n : nat) (nd : FSNode) :
  forward h → views_ok h → h !! n = Some nd → children_valid h (visible_children nd).
Proof.
  intros Hf Hv Hn. apply Forall_forall. intros c Hc.
  apply lookup_lt_is_Some. apply (Hf n nd c Hn). by eapply views_ok_visible.
Qed.

(** The loop of [sort_expanded] over the rows of its index, given that
    the calls for the rows return. *)
Lemma sort_expanded_rows (fuel : nat) (idx : QModelIndex) (h : heap) :
  (∀ idx' g, forward g → views_ok g →
             (p_item_of m idx' < List.length g)%nat →
             (List.length g - p_item_of m idx' < fuel)%nat →
             ∃ g', sort_expanded isExpanded fuel (Some m) idx' g = Returns g'
                   ∧ reordered s g g'
                   ∧ ∀ k, (k < p_item_of m idx')%nat → g' !! k = g !! k) →
  forward h → views_ok h →
  (p_item_of m idx < List.length h)%nat →
  (List.length h - p_item_of m idx ≤ fuel)%nat →
  ∃ h', match rowCount m h idx with
        | None => NoObject
        | Some n => for_expanded isExpanded (sort_expanded isExpanded fuel (Some m))
                      m idx 0 (Z.to_nat n) h
        end = Returns h'
        ∧ reordered s h h'
        ∧ ∀ k, (k ≤ p_item_of m idx)%nat → h' !! k = h !! k.
Proof.
  intros Hrec Hf Hv Hlt Hfuel.
  destruct (lookup_lt_is_Some_2 h (p_item_of m idx) Hlt) as [nd Hnd].
  assert (rowCount m h idx
          = Some (Z.min (len (visible_children nd)) (fetched_items nd))) as Hn
    by (unfold rowCount; by rewrite Hnd).
  rewrite Hn.
  apply (for_expanded_ok (sort_expanded isExpanded fuel (Some m)) idx
           (Z.min (len (visible_children nd)) (fetched_items nd)) (List.length h));
    [|done|done|done|done|lia|intros j Hj; lia].
  intros j c g Hfg Hvg HLg Hc. apply Hrec; [done|done|simpl; lia|simpl; lia].
Qed.

Lemma sort_expanded_ok (fuel : nat) :
  ∀ idx h,
    forward h → views_ok h →
    (p_item_of m idx < List.length h)%nat →
    (List.length h - p_item_of m idx < fuel)%nat →
    ∃ h', sort_expanded isExpanded fuel (Some m) idx h = Returns h'
          ∧ reordered s h h'
          ∧ ∀ k, (k < p_item_of m idx)%nat → h' !! k = h !! k.
Proof.
  induction fuel as [|fuel IH]; intros idx h Hf Hv Hlt Hfuel; [lia|].
  assert (∀ h1, reordered s h h1 → (∀ k, (k < p_item_of m idx)%nat → h1 !! k = h !! k) →
            ∃ h', match rowCount m h1 idx with
                  | None => NoObject
                  | Some n => for_expanded isExpanded (sort_expanded isExpanded fuel (Some m))
                                m idx 0 (Z.to_nat n) h1
                  end = Returns h'
                  ∧ reordered s h h'
                  ∧ ∀ k, (k < p_item_of m idx)%nat → h' !! k = h !! k) as Hchildren.
  { intros h1 H1 Hfr1.
    destruct (sort_expanded_rows fuel idx h1 IH) as (h' & Hloop & Hh' & Hfr);
      [by eapply reordered_forward|by eapply reordered_views_ok
      |by rewrite (reordered_length s h h1)|rewrite (reordered_length s h h1) by done; lia|].
    exists h'. split; [done|]. split; [by eapply reordered_trans|].
    intros k Hk. rewrite Hfr by lia. by apply Hfr1. }
  cbn [sort_expanded]. destruct idx as [|r c node].
  - by apply Hchildren; [apply reordered_refl|].
  - simpl in Hlt, Hfuel.
    destruct (lookup_lt_is_Some_2 h node Hlt) as [nd Hnd]. rewrite Hnd.
    destruct (negb (is_dir nd));
      [exists h; split; [done|]; split; [apply reordered_refl|done]|].
    assert (rowCount m h (createIndex r c node)
            = Some (Z.min (len (visible_children nd)) (fetched_items nd))) as Hrc
      by (unfold rowCount; simpl; by rewrite Hnd).
    rewrite Hrc.
    destruct (1 <? _).
    2:{ destruct (Hchildren h (reordered_refl s h)) as (h' & Hh' & Hr); [done|].
        rewrite Hrc in Hh'. by exists h'. }
    rewrite Hsorting.
    destruct (sort_known_Ok node s h nd Hnd) as [h1 H1];
      [by eapply visible_children_valid|done|].
    unfold sort_result. rewrite H1. simpl.
    apply Hchildren; [by apply (sort_reordered s node)|].
    intros k Hk. simpl in Hk.
    apply sort_inv in H1 as (nd' & vis & _ & -> & _).
    apply list_lookup_insert_ne. lia.
Qed.

End sort_expanded_runs.

Section saved_expansion.

Context (isExpanded : QModelIndex → bool) (m : FSModel) (h : heap).
Hypothesis Hf : forward h.
Hypothesis Hv : views_ok h.

(** The rows of an index from [i] on, [remaining] of them, that are
    expanded, and what is below them. *)
Lemma collect_expanded_ok (rec : QModelIndex → result (gset nat)) (idx : QModelIndex)
    (n : Z) :
  rowCount m h idx = Some n →
  (∀ j c, (p_item_of m idx < c < List.length h)%nat →
          ∃ sub, rec (createIndex j 0 c) = Returns sub
                 ∧ ∀ q, q ∈ sub ↔ expanded_below isExpanded m h (createIndex j 0 c) q) →
  ∀ remaining i acc,
    0 ≤ i → (∀ j, i ≤ j < i + Z.of_nat remaining → j < n) →
    ∃ out,
      collect_expanded isExpanded rec m h idx i remaining acc = Returns out
      ∧ ∀ q, q ∈ out ↔
             q ∈ acc
             ∨ ∃ j node, i ≤ j < i + Z.of_nat remaining
                         ∧ index m h j 0 idx = Some (createIndex j 0 node)
                         ∧ isExpanded (createIndex j 0 node) = true
                         ∧ (q = node
                            ∨ expanded_below isExpanded m h (createIndex j 0 node) q).
Proof.
  intros Hn Hrec. induction remaining as [|remaining IH]; intros i acc Hi Hrange.
  - exists acc. split; [done|]. intros q. split; [by left|].
    intros [Hq|(j & node & Hj & _)]; [done|lia].
  - destruct (index_row_child m h idx n i Hf Hv Hn) as (c & Hidx & Hrow & Hc).
    { split; [done|]. apply Hrange. lia. }
    cbn [collect_expanded]. rewrite Hrow. simpl.
    destruct (isExpanded (createIndex i 0 c)) eqn:He; simpl.
    + destruct (Hrec i c Hc) as (sub & -> & Hsub). simpl.
      destruct (IH (i + 1) (acc ∪ {[c]} ∪ sub)) as (out & -> & Hout);
        [lia|intros j Hj; apply Hrange; lia|].
      exists out. split; [done|]. intros q. rewrite Hout. split.
      * intros [Hq|(j & node & Hj & Hjn & Hje & Hq)].
        -- apply elem_of_union in Hq as [Hq|Hq].
           ++ apply elem_of_union in Hq as [Hq|Hq]; [by left|].
              apply elem_of_singleton in Hq as ->.
              right. exists i, c. split; [lia|]. split; [done|]. split; [done|by left].
           ++ right. exists i, c. split; [lia|]. split; [done|]. split; [done|].
              right. by apply Hsub.
        -- right. exists j, node. split; [lia|done].
      * intros [Hq|(j & node & Hj & Hjn & Hje & Hq)].
        -- left. apply elem_of_union. left. apply elem_of_union. by left.
        -- destruct (decide (j = i)) as [->|Hne].
           ++ assert (node = c) as -> by congruence.
              left. apply elem_of_union. destruct Hq as [-> | Hq].
              ** left. apply elem_of_union. right. by apply elem_of_singleton.
              ** right. by apply Hsub.
           ++ right. exists j, node. split; [lia|done].
    + destruct (IH (i + 1) acc) as (out & -> & Hout);
        [lia|intros j Hj; apply Hrange; lia|].
      exists out. split; [done|]. intros q. rewrite Hout. split.
      * intros [Hq|(j & node & Hj & Hq)]; [by left|].
        right. exists j, node. split; [lia|done].
      * intros [Hq|(j & node & Hj & Hjn & Hje & Hq)]; [by left|].
        destruct (decide (j = i)) as [->|Hne].
        -- assert (node = c) as -> by congruence. congruence.
        -- right. exists j, node. split; [lia|done].
Qed.

Lemma expanded_below_rows (idx : QModelIndex) (n : Z) (q : nat) :
  rowCount m h idx = Some n →
  expanded_below isExpanded m h idx q ↔
  ∃ j node, 0 ≤ j < 0 + Z.of_nat (Z.to_nat n)
            ∧ index m h j 0 idx = Some (createIndex j 0 node)
            ∧ isExpanded (createIndex j 0 node) = true
            ∧ (q = node ∨ expanded_below isExpanded m h (createIndex j 0 node) q).
Proof.
  intros Hn. split.
  - intros H. revert Hn.
    destruct H as [idx n' i node Hn' Hi Hidx He|idx n' i node q Hn' Hi Hidx He Hq];
      intros Hn; (assert (n' = n) as -> by congruence);
      exists i, node; (split; [lia|]); (split; [done|]); (split; [done|]);
      [by left|by right].
  - intros (j & node & Hj & Hidx & He & [-> | Hq]).
    + apply (expanded_row isExpanded m h idx n j node); [done|lia|done|done].
    + apply (expanded_deeper isExpanded m h idx n j node q); [done|lia|done|done|done].
Qed.

Lemma save_expansion_state_ok (fuel : nat) :
  ∀ idx,
    (p_item_of m idx < List.length h)%nat →
    (List.length h - p_item_of m idx < fuel)%nat →
    ∃ out, save_expansion_state isExpanded fuel (Some m) h idx = Returns out
           ∧ ∀ q, q ∈ out ↔ expanded_below isExpanded m h idx q.
Proof.
  induction fuel as [|fuel IH]; intros idx Hlt Hfuel; [lia|].
  cbn [save_expansion_state].
  destruct (lookup_lt_is_Some_2 h (p_item_of m idx) Hlt) as [nd Hnd].
  assert (rowCount m h idx
          = Some (Z.min (len (visible_children nd)) (fetched_items nd))) as Hn
    by (unfold rowCount; by rewrite Hnd).
  rewrite Hn.
  destruct (collect_expanded_ok (save_expansion_state isExpanded fuel (Some m) h) idx _ Hn)
    with (remaining := Z.to_nat (Z.min (len (visible_children nd)) (fetched_items nd)))
         (i := 0) (acc := (∅ : gset nat)) as (out & -> & Hout);
    [|lia|intros j Hj; lia|].
  - intros j c Hc. apply IH; simpl; lia.
  - exists out. split; [done|]. intros q.
    rewrite Hout, (expanded_below_rows idx _ q Hn). split; [|by right].
    intros [Hq|Hq]; [|done]. by apply elem_of_empty in Hq.
Qed.

End saved_expansion.

Section load_nodes.

(** One entry: its node is the last object of the heap after it, and it
    was not in the heap before. *)
Lemma load_entry_node (model : option FSModel) (root : nat) (i : FSItem)
    (h h' : heap) (nm nm' : gmap Path nat) :
  forward h → map_valid h nm → (root < List.length h)%nat →
  load_entry model root i (h, nm) = Some (h', nm') →
  ∃ n nd p ndp,
    (List.length h ≤ n)%nat ∧ List.length h' = S n
    ∧ h' !! n = Some nd ∧ entry_node i nd
    ∧ parent nd = Some p ∧ h' !! p = Some ndp ∧ n ∈ all_children ndp.
Proof.
  intros Hf Hm Hr. unfold load_entry. simpl.
  destruct (resolve_parents _ _ _) as [b|] eqn:Hb; simpl; [|done].
  apply resolve_parents_ok in Hb as [(Hfb & Hmb & Hcb) Hle]; [|done]. simpl in Hle.
  destruct (PyStr.int_of_str (item_size i)) as [sz|] eqn:Hsz; simpl; [|done].
  unfold new_node.
  destruct (append_child _ _ _) as [h2|] eqn:Happ; simpl; [|done].
  intros [= <- <-].
  destruct (append_new_lookup _ _ _ _ Hcb Happ) as (Hlen & Hnew & (ndc & Hcc & Hc1) & _).
  eexists _, _, _, _. split; [exact Hle|]. split; [exact Hlen|]. split; [exact Hnew|].
  split; [by repeat split|]. split; [done|]. split; [exact Hc1|].
  simpl. apply elem_of_app. right. by apply list_elem_of_singleton.
Qed.

(** The entries read have their nodes in the order of the entries, each
    made after the one before. *)
Lemma load_entries_nodes (model : option FSModel) (root : nat) (idx : Z)
    (items : list FSItem) (h h' : heap) (nm nm' : gmap Path nat) :
  0 ≤ idx ≤ 300000 →
  forward h → map_valid h nm → (root < List.length h)%nat →
  load_entries model root idx items (h, nm) = Some (h', nm') →
  ∃ nodes,
    Forall2 (λ i n, ∃ nd p ndp,
               h' !! n = Some nd ∧ entry_node i nd
               ∧ parent nd = Some p ∧ h' !! p = Some ndp ∧ n ∈ all_children ndp)
            (take (Z.to_nat (300000 - idx)) items) nodes
    ∧ StronglySorted lt nodes
    ∧ Forall (λ n, (List.length h ≤ n < List.length h')%nat) nodes.
Proof.
  revert idx h nm. induction items as [|i items IH]; intros idx h nm Hidx Hf Hm Hr.
  - simpl. intros [= <- <-]. exists []. rewrite take_nil.
    split; [constructor|]. split; constructor.
  - simpl. destruct (Z.eqb_spec idx 300000) as [->|Hne].
    + intros [= <- <-]. exists []. simpl. split; [constructor|]. split; constructor.
    + destruct (load_entry model root i (h, nm)) as [[h1 nm1]|] eqn:H1; simpl; [|done].
      intros H2.
      destruct (load_entry_ok _ _ _ _ _ _ _ Hf Hm Hr H1) as (Hf1 & Hm1 & Hle).
      destruct (load_entry_node _ _ _ _ _ _ _ Hf Hm Hr H1)
        as (n & nd & p & ndp & Hge & Hlen & Hn & He & Hp & Hpp & Hin).
      destruct (load_entries_grows model root (idx + 1) items h1 h' nm1 nm'
                  ltac:(lia) Hf1 Hm1 ltac:(lia) H2) as (Hg2 & _).
      destruct (IH (idx + 1) h1 nm1 ltac:(lia) Hf1 Hm1 ltac:(lia) H2)
        as (nodes & Hnodes & Hsorted & Hbounds).
      pose proof (grows_length _ _ Hg2) as Hlen2.
      exists (n :: nodes).
      replace (Z.to_nat (300000 - idx)) with (S (Z.to_nat (300000 - (idx + 1)))) by lia.
      simpl. split; [|split].
      * constructor; [|done].
        destruct (grows_lookup _ _ _ _ Hg2 Hn) as (nd' & Hn' & Ha & _).
        destruct (grows_lookup _ _ _ _ Hg2 Hpp) as (ndp' & Hp' & _ & Hpre).
        exists nd', p, ndp'. split; [done|]. split.
        -- unfold entry_node, same_attributes in *. destruct_and!.
           repeat split; congruence.
        -- split; [unfold same_attributes in Ha; destruct_and!; congruence|].
           split; [done|]. destruct Hpre as [k ->]. apply elem_of_app. by left.
      * constructor; [done|]. eapply Forall_impl; [exact Hbounds|].
        intros k Hk. simpl in Hk. lia.
      * constructor; [lia|]. eapply Forall_impl; [exact Hbounds|].
        intros k Hk. simpl in Hk. lia.
Qed.

Lemma load_hdfs_file_nodes (model : option FSModel) (h h' : heap) (items : list FSItem)
    (m' : FSModel) (nm : gmap Path nat) :
  forward h →
  (∀ m, model = Some m → (root_node m < List.length h)%nat) →
  load_hdfs_file model h items = Some (m', h', nm) →
  ∃ nodes,
    Forall2 (λ i n, ∃ nd p ndp,
               h' !! n = Some nd ∧ entry_node i nd
               ∧ parent nd = Some p ∧ h' !! p = Some ndp ∧ n ∈ all_children ndp)
            (take (Z.to_nat 300000) items) nodes
    ∧ StronglySorted lt nodes
    ∧ Forall (λ n, (List.length (load_start model h) ≤ n < List.length h')%nat) nodes.
Proof.
  intros Hf Hroot. unfold load_hdfs_file.
  destruct model as [m|].
  - destruct (load_entries _ _ _ _ _) as [[h1 nm1]|] eqn:H1; simpl; [|done].
    intros [= <- <- <-].
    apply load_entries_nodes in H1; [done|lia|done| |by apply Hroot].
    intros p n. destruct (decide (PyPath.root_path = p)) as [<-|Hne].
    + rewrite lookup_singleton_eq. intros [= <-]. by apply Hroot.
    + by rewrite lookup_singleton_ne.
  - unfold new_node.
    destruct (load_entries _ _ _ _ _) as [[h1 nm1]|] eqn:H1; simpl; [|done].
    intros [= <- <- <-].
    apply load_entries_nodes in H1; [done|lia| | |].
    + by apply forward_new_node.
    + intros p n. rewrite length_app. simpl.
      destruct (decide (PyPath.root_path = p)) as [<-|Hne].
      * rewrite lookup_singleton_eq. intros [= <-]. lia.
      * by rewrite lookup_singleton_ne.
    + rewrite length_app. simpl. lia.
Qed.

Lemma StronglySorted_lt_NoDup (l : list nat) : StronglySorted lt l → NoDup l.
Proof.
  induction 1 as [|x l _ IH Hx]; constructor; [|done].
  intros Hin. rewrite Forall_forall in Hx. specialize (Hx x Hin). lia.
Qed.

(** A size that [int] refuses stops the load. *)
Lemma load_entries_int_fails (model : option FSModel) (root : nat) (idx : Z)
    (items : list FSItem) (st : heap * gmap Path nat) :
  0 ≤ idx ≤ 300000 →
  Exists (λ i, PyStr.int_of_str (item_size i) = None)
         (take (Z.to_nat (300000 - idx)) items) →
  load_entries model root idx items st = None.
Proof.
  revert idx st. induction items as [|i items IH]; intros idx st Hidx.
  - rewrite take_nil. by intros ?%Exists_nil.
  - simpl. destruct (Z.eqb_spec idx 300000) as [->|Hne].
    + simpl. by intros ?%Exists_nil.
    + replace (Z.to_nat (300000 - idx)) with (S (Z.to_nat (300000 - (idx + 1)))) by lia.
      simpl. intros [Hi|Hrest]%Exists_cons.
      * assert (load_entry model root i st = None) as ->; [|done].
        unfold load_entry. destruct (resolve_parents _ _ _) as [b|]; simpl; [|done].
        by rewrite Hi.
      * destruct (load_entry model root i st) as [st'|]; simpl; [|done].
        apply IH; [lia|done].
Qed.

Lemma load_hdfs_file_take (model : option FSModel) (h : heap) (items : list FSItem) :
  load_hdfs_file model h items
  = load_hdfs_file model h (take (Z.to_nat 300000) items).
Proof.
  unfold load_hdfs_file.
  destruct (match model with Some m => _ | None => _ end) as [root h0].
  by rewrite (load_entries_cap model root 0 items) by lia.
Qed.

(** A first load returns exactly when [int] reads the size of every
    entry below the cap. *)
Lemma first_load_returns (items : list FSItem) :
  is_Some (load_hdfs_file None [] items)
  ↔ Forall (λ i, is_Some (PyStr.int_of_str (item_size i)))
           (take (Z.to_nat 300000) items).
Proof.
  split.
  - intros Hsome. apply Forall_forall. intros i Hi.
    destruct (PyStr.int_of_str (item_size i)) eqn:Hsz; [by eexists|]. exfalso.
    assert (load_hdfs_file None [] items = None) as Hnone; [|by rewrite Hnone in Hsome; destruct Hsome].
    unfold load_hdfs_file, new_node. simpl.
    rewrite (load_entries_int_fails None 0 0 items); [done|lia|].
    apply Exists_exists. by exists i.
  - intros Hall. rewrite load_hdfs_file_take. by apply load_hdfs_file_first_load.
Qed.

End load_nodes.

(** ** Further properties of the code *)

(** X1.  The cap of the ingestion: a load reads the first 300000
    entries and nothing of the rest. *)
Theorem load_hdfs_file_cap (model : option FSModel) (h : heap) (items : list FSItem) :
  load_hdfs_file model h items
  = load_hdfs_file model h (take (Z.to_nat 300000) items).
Proof.
  unfold load_hdfs_file.
  destruct (match model with Some m => _ | None => _ end) as [root h0].
  by rewrite (load_entries_cap model root 0 items) by lia.
Qed.

(** X2.  After a load every entry below the cap has a node of its own:
    the entries, in their order, have nodes made in that order, each after
    the one before, so that no two entries share a node, equal entries
    included, and none of the nodes was in the heap in which the load
    started.  The node of an entry has its path, name, size, date,
    permissions and owner, and is held by the node its parent field
    names. *)
Theorem load_hdfs_file_entries (model : option FSModel) (h h' : heap)
    (items : list FSItem) (m' : FSModel) (nm : gmap Path nat) :
  forward h →
  (∀ m, model = Some m → (root_node m < List.length h)%nat) →
  load_hdfs_file model h items = Some (m', h', nm) →
  ∃ nodes,
    Forall2 (λ i n, ∃ nd p ndp,
               h' !! n = Some nd ∧ entry_node i nd
               ∧ parent nd = Some p ∧ h' !! p = Some ndp ∧ n ∈ all_children ndp)
            (take (Z.to_nat 300000) items) nodes
    ∧ StronglySorted lt nodes
    ∧ NoDup nodes
    ∧ Forall (λ n, (List.length (load_start model h) ≤ n < List.length h')%nat) nodes.
Proof.
  intros Hf Hroot Hload.
  destruct (load_hdfs_file_nodes model h h' items m' nm Hf Hroot Hload)
    as (nodes & Hnodes & Hsorted & Hnew).
  exists nodes. split; [done|]. split; [done|].
  split; [by apply StronglySorted_lt_NoDup|done].
Qed.

Lemma load_hdfs_file_entries_witness :
  ∃ m' h' nm nodes,
    forward []
    ∧ (∀ m, None = Some m → (root_node m < List.length (@nil FSNode))%nat)
    ∧ load_hdfs_file None [] [file_item "/a/f" "100"; file_item "/a/f" "100"]
      = Some (m', h', nm)
    ∧ Forall2 (λ i n, ∃ nd p ndp,
                 h' !! n = Some nd ∧ entry_node i nd
                 ∧ parent nd = Some p ∧ h' !! p = Some ndp ∧ n ∈ all_children ndp)
              (take (Z.to_nat 300000) [file_item "/a/f" "100"; file_item "/a/f" "100"])
              nodes
    ∧ StronglySorted lt nodes
    ∧ NoDup nodes
    ∧ Forall (λ n, (List.length (load_start None []) ≤ n < List.length h')%nat) nodes.
Proof.
  destruct (load_hdfs_file_first_load
              [file_item "/a/f" "100"; file_item "/a/f" "100"]) as [[[m' h'] nm] Hload].
  { repeat constructor; eexists; vm_compute; reflexivity. }
  assert (∀ m, None = Some m → (root_node m < List.length (@nil FSNode))%nat) as Hroot
    by done.
  destruct (load_hdfs_file_entries None [] h' _ m' nm forward_nil Hroot Hload)
    as (nodes & H).
  exists m', h', nm, nodes. split; [apply forward_nil|]. split; [done|].
  split; [done|]. exact H.
Defined.

(** X3.  A load keeps the tree a tree and never rewrites a node: every
    child still refers back to the one node that holds it, no node is held
    twice, the visible children are among the children, children come after
    their parent, and every node of before keeps its place, its attributes
    and its children as the first of its later children. *)
Theorem load_hdfs_file_tree (model : option FSModel) (h h' : heap)
    (items : list FSItem) (m' : FSModel) (nm : gmap Path nat) :
  forward h → well_linked h → views_ok h →
  (∀ m, model = Some m → (root_node m < List.length h)%nat) →
  load_hdfs_file model h items = Some (m', h', nm) →
  forward h' ∧ well_linked h' ∧ views_ok h'
  ∧ ∀ n nd, h !! n = Some nd →
            ∃ nd', h' !! n = Some nd' ∧ same_attributes nd nd'
                   ∧ all_children nd `prefix_of` all_children nd'.
Proof.
  intros Hf Hw Hv Hroot Hload.
  destruct (load_hdfs_file_grows model h h' items m' nm Hf Hroot Hload) as [Hg _].
  destruct (load_start_ok model h Hf Hw Hv) as (Hf0 & Hw0 & Hv0).
  destruct (grows_views_ok _ _ Hg Hw0 Hv0) as [Hw' Hv'].
  split; [by eapply grows_forward|]. split; [done|]. split; [done|].
  intros n nd Hn. eapply grows_lookup; [exact Hg|]. by apply load_start_lookup.
Qed.

Lemma load_hdfs_file_tree_witness :
  ∃ m' h' nm,
    forward [] ∧ well_linked [] ∧ views_ok []
    ∧ (∀ m, None = Some m → (root_node m < List.length (@nil FSNode))%nat)
    ∧ load_hdfs_file None [] [file_item "/a/b/f1.txt" "100"; dir_item "/a/c"]
      = Some (m', h', nm)
    ∧ forward h' ∧ well_linked h' ∧ views_ok h'
    ∧ ∀ n nd, (@nil FSNode) !! n = Some nd →
              ∃ nd', h' !! n = Some nd' ∧ same_attributes nd nd'
                     ∧ all_children nd `prefix_of` all_children nd'.
Proof.
  destruct (load_hdfs_file_first_load
              [file_item "/a/b/f1.txt" "100"; dir_item "/a/c"]) as [[[m' h'] nm] Hload].
  { repeat constructor; by eexists. }
  assert (well_linked []) as Hw by (intros n nd c Hn; by rewrite lookup_nil in Hn).
  assert (views_ok []) as Hv by (intros n nd Hn; by rewrite lookup_nil in Hn).
  exists m', h', nm. split; [apply forward_nil|]. split; [done|]. split; [done|].
  split; [done|]. split; [done|].
  exact (load_hdfs_file_tree None [] h' _ m' nm forward_nil Hw Hv ltac:(done) Hload).
Defined.

(** X4.  A record written field by field, with any blanks between the
    fields and around the line, is read back as its fields: the path may
    hold blanks inside, and the blanks between date and time are kept in
    [dt_mod]. *)
Theorem parse_line_record
    (lead trail perms sp1 repl sp2 owner_ sp3 group_ sp4 size_ sp5
     yyyy mm dd sp6 hh mi sp7 path_ : string) :
  all_chars Re.is_space lead = true → all_chars Re.is_space trail = true →
  field Re.is_perm perms → field Re.is_space sp1 →
  field Re.is_digit_or_dash repl → field Re.is_space sp2 →
  field Re.not_space owner_ → field Re.is_space sp3 →
  field Re.not_space group_ → field Re.is_space sp4 →
  field Re.is_digit size_ → field Re.is_space sp5 →
  chars 4 Re.is_digit yyyy → chars 2 Re.is_digit mm → chars 2 Re.is_digit dd →
  field Re.is_space sp6 → chars 2 Re.is_digit hh → chars 2 Re.is_digit mi →
  field Re.is_space sp7 → line_path path_ →
  parse_line (lead ++ record_text perms sp1 repl sp2 owner_ sp3 group_ sp4 size_ sp5
                                  (date_time yyyy mm dd sp6 hh mi) sp7 path_
                   ++ trail)
  = Some {| item_perms := perms; item_replicas := ""; item_owner := owner_;
            item_group := group_; item_size := size_;
            item_dt_mod := date_time yyyy mm dd sp6 hh mi; item_path := path_ |}.
Proof.
  intros Hlead Htrail Hperms Hsp1 Hrepl Hsp2 Howner Hsp3 Hgroup Hsp4 Hsize Hsp5
         Hy Hm Hd Hsp6 Hh Hmi Hsp7 Hpath.
  destruct (field_first _ _ Hperms) as (c & Hc & Hcp).
  pose proof Hpath as (_ & _ & (d & Hd1 & Hd2)).
  unfold parse_line.
  rewrite (strip_app lead _ trail c d); [|done|done| |by apply perm_not_space| |done].
  - rewrite record_grammar_match by done. reflexivity.
  - unfold record_text. by apply first_char_app.
  - unfold record_text, date_time. by do 12 apply last_char_app.
Qed.

Lemma parse_line_record_witness :
  parse_line ("  " ++ record_text "drwxr-xr-x" "   " "-" " " "hdfs" " " "supergroup" "    "
                                  "0" " " (date_time "2024" "01" "31" "  " "10" "05") " "
                                  "/data/my dir"
                   ++ String "010" "")
  = Some {| item_perms := "drwxr-xr-x"; item_replicas := ""; item_owner := "hdfs";
            item_group := "supergroup"; item_size := "0";
            item_dt_mod := date_time "2024" "01" "31" "  " "10" "05";
            item_path := "/data/my dir" |}.
Proof.
  apply parse_line_record; try done;
    first [ by split | by (split; [done|split; eexists; split; done]) ].
Defined.

(** X5.  Every entry that the parser yields is made of pieces of its
    stripped line, in the order of the record and parted by blanks:
    permissions of the characters [drwx-], owner and group without blanks,
    a size of digits, a date and time of the fixed shape, and a path that
    is the rest of the line. *)
Theorem parse_line_sound (line : string) (i : FSItem) :
  parse_line line = Some i → parsed_from line i.
Proof. apply parse_line_inv. Qed.

Lemma parse_line_sound_witness :
  parse_line "-rw-r--r--   3 hdfs supergroup  1234 2024-01-31 10:05 /data/a b.txt"
  = Some {| item_perms := "-rw-r--r--"; item_replicas := ""; item_owner := "hdfs";
            item_group := "supergroup"; item_size := "1234";
            item_dt_mod := "2024-01-31 10:05"; item_path := "/data/a b.txt" |}
  ∧ parsed_from "-rw-r--r--   3 hdfs supergroup  1234 2024-01-31 10:05 /data/a b.txt"
      {| item_perms := "-rw-r--r--"; item_replicas := ""; item_owner := "hdfs";
         item_group := "supergroup"; item_size := "1234";
         item_dt_mod := "2024-01-31 10:05"; item_path := "/data/a b.txt" |}.
Proof.
  assert (parse_line "-rw-r--r--   3 hdfs supergroup  1234 2024-01-31 10:05 /data/a b.txt"
          = Some {| item_perms := "-rw-r--r--"; item_replicas := ""; item_owner := "hdfs";
                    item_group := "supergroup"; item_size := "1234";
                    item_dt_mod := "2024-01-31 10:05"; item_path := "/data/a b.txt" |})
    as H by (vm_compute; reflexivity).
  split; [exact H|]. exact (parse_line_sound _ _ H).
Defined.

(** X6.  The parser passes over the lines that do not match, a blank
    line among them, and the only entry that it yields and the builder
    refuses is one whose size has more digits than [int] reads: a first
    load of the lines of a text returns, with a tree under a new root, when
    the sizes of the entries below the cap have no more than 4300 digits,
    and raises otherwise. *)
Theorem load_parsed_lines (lines : list string) :
  (∀ blank before after,
     all_chars Re.is_space blank = true →
     _parse_filelist_file (before ++ blank :: after)
     = _parse_filelist_file (before ++ after))
  ∧ (Forall size_readable (take (Z.to_nat 300000) (_parse_filelist_file lines)) →
     ∃ m h nm,
       load_hdfs_file None [] (_parse_filelist_file lines) = Some (m, h, nm)
       ∧ forward h ∧ well_linked h ∧ views_ok h
       ∧ root_node m = 0%nat)
  ∧ (¬ Forall size_readable (take (Z.to_nat 300000) (_parse_filelist_file lines)) →
     load_hdfs_file None [] (_parse_filelist_file lines) = None).
Proof.
  assert (∀ i, i ∈ take (Z.to_nat 300000) (_parse_filelist_file lines) →
               is_Some (PyStr.int_of_str (item_size i)) ↔ size_readable i) as Hint.
  { intros i Hi. apply int_of_str_digits.
    apply (proj1 (Forall_forall _ _) (parse_filelist_sizes lines)).
    apply elem_of_take in Hi as (k & Hk & _). by eapply list_elem_of_lookup_2. }
  split; [|split].
  - intros blank before after Hb. unfold _parse_filelist_file.
    rewrite !omap_app. simpl. by rewrite (parse_line_blank blank Hb).
  - intros Hall.
    destruct (proj2 (first_load_returns (_parse_filelist_file lines)))
      as [[[m h] nm] Hload].
    { apply Forall_forall. intros i Hi. apply Hint; [done|].
      by apply (proj1 (Forall_forall _ _) Hall). }
    exists m, h, nm. split; [done|].
    destruct (first_load_tree _ m h nm Hload) as (? & ? & ? & ? & _). done.
  - intros Hnot.
    destruct (load_hdfs_file None [] (_parse_filelist_file lines)) eqn:Hload; [|done].
    exfalso. apply Hnot.
    pose proof (proj1 (first_load_returns (_parse_filelist_file lines))) as Hall.
    rewrite Hload in Hall. specialize (Hall ltac:(by eexists)).
    apply Forall_forall. intros i Hi. apply Hint; [done|].
    by apply (proj1 (Forall_forall _ _) Hall).
Qed.

(** X7.  The filter writes [visible_children] and nothing else: every
    node keeps its place, its children, its cursor, its recorded sorting
    and its attributes, whether the filter visits it or not. *)
Theorem apply_filter_writes_views_only (fuel self : nat) (pattern : string)
    (h h' : heap) :
  apply_filter fuel self pattern h = Some h' →
  List.length h' = List.length h
  ∧ ∀ n nd, h !! n = Some nd →
            ∃ vis, h' !! n = Some (set_visible_children vis nd).
Proof.
  intros H. pose proof (apply_filter_skeleton _ _ _ _ _ H) as Hsk.
  split; [by apply same_skeleton_length|].
  intros n nd Hn. by apply (same_skeleton_lookup h h').
Qed.

Lemma apply_filter_writes_views_only_witness :
  ∃ h',
    apply_filter 6 0 "f1" heap_mixed_sorted = Some h'
    ∧ List.length h' = List.length heap_mixed_sorted
    ∧ ∀ n nd, heap_mixed_sorted !! n = Some nd →
              ∃ vis, h' !! n = Some (set_visible_children vis nd).
Proof.
  assert (∃ h', apply_filter 6 0 "f1" heap_mixed_sorted = Some h') as [h' H]
    by (eexists; vm_compute; reflexivity).
  exists h'. split; [done|].
  exact (apply_filter_writes_views_only 6 0 "f1" heap_mixed_sorted h' H).
Defined.

(** X8.  The filter has no memory: a filter applied after another gives
    the heap it gives when applied alone, so the last pattern decides and
    the empty pattern undoes every filter. *)
Theorem apply_filter_last_wins (fuel self : nat) (p1 p2 : string) (h h1 : heap) :
  apply_filter fuel self p1 h = Some h1 →
  apply_filter fuel self p2 h1 = apply_filter fuel self p2 h.
Proof.
  intros H1. pose proof (apply_filter_skeleton _ _ _ _ _ H1) as Hsk.
  destruct (apply_filter fuel self p2 h) as [h2|] eqn:H2.
  - destruct (apply_filter_skeleton_Some _ _ _ _ _ _ Hsk H2) as [g Hg].
    rewrite Hg. f_equal. apply list_eq. intros n.
    pose proof (apply_filter_skeleton _ _ _ _ _ H2) as Hsk2.
    destruct (h !! n) as [nd|] eqn:Hn.
    + assert (dir_reachable h self n →
              g !! n = Some (set_visible_children (spec_filter h p2 nd) nd)
              ∧ h2 !! n = Some (set_visible_children (spec_filter h p2 nd) nd)) as Hreach.
      { intros Hr. split; [|by eapply apply_filter_reach].
        destruct (same_skeleton_lookup h h1 n nd Hsk Hn) as [v Hv].
        rewrite (apply_filter_reach _ _ _ _ _ _ _ Hg
                   (same_skeleton_dir_reachable h h1 self n Hsk Hr) Hv).
        by rewrite (same_skeleton_spec_filter h h1). }
      destruct (apply_filter_frame _ _ _ _ _ n Hg) as [Hgn|Hr].
      2:{ apply (same_skeleton_dir_reachable h1 h) in Hr;
            [|by apply same_skeleton_sym].
          destruct (Hreach Hr) as [-> ->]. done. }
      destruct (apply_filter_frame _ _ _ _ _ n H2) as [H2n|Hr].
      2:{ destruct (Hreach Hr) as [-> ->]. done. }
      destruct (apply_filter_frame _ _ _ _ _ n H1) as [H1n|Hr].
      2:{ destruct (Hreach Hr) as [-> ->]. done. }
      congruence.
    + rewrite (same_skeleton_lookup_None h h2 n Hsk2 Hn).
      apply (same_skeleton_lookup_None h1 g n); [by eapply apply_filter_skeleton|].
      by apply (same_skeleton_lookup_None h h1 n).
  - destruct (apply_filter fuel self p2 h1) as [g|] eqn:Hg; [|done].
    destruct (apply_filter_skeleton_Some _ _ _ _ _ _ (same_skeleton_sym _ _ Hsk) Hg)
      as [h2 H2']. congruence.
Qed.

Lemma apply_filter_last_wins_witness :
  ∃ h1,
    apply_filter 6 0 "f1" heap_scenario = Some h1
    ∧ apply_filter 6 0 "" h1 = apply_filter 6 0 "" heap_scenario.
Proof.
  assert (∃ h1, apply_filter 6 0 "f1" heap_scenario = Some h1) as [h1 H]
    by (eexists; vm_compute; reflexivity).
  exists h1. split; [done|].
  exact (apply_filter_last_wins 6 0 "f1" "" heap_scenario h1 H).
Defined.

(** X9.  At every node the filter visits, the visible children are
    children of the node in the order of [all_children], and no folder
    among the children is hidden, whatever the pattern. *)
Theorem apply_filter_keeps_folders (fuel self : nat) (pattern : string)
    (h h' : heap) (n : nat) (nd : FSNode) :
  apply_filter fuel self pattern h = Some h' →
  dir_reachable h self n → h !! n = Some nd →
  ∃ nd', h' !! n = Some nd'
         ∧ all_children nd' = all_children nd
         ∧ visible_children nd' `sublist_of` all_children nd'
         ∧ ∀ c, c ∈ all_children nd' → is_dir_ref h' c = true →
                c ∈ visible_children nd'.
Proof.
  intros H Hr Hn. pose proof (apply_filter_skeleton _ _ _ _ _ H) as Hsk.
  eexists. split; [by eapply apply_filter_reach|]. split; [done|]. simpl.
  unfold spec_filter. split.
  - clear. induction (all_children nd) as [|c l IH]; simpl; [done|].
    destruct (spec_visible h pattern c); by constructor.
  - intros c Hc Hd. rewrite (same_skeleton_is_dir_ref h h') in Hd by done.
    apply list_elem_of_In, filter_In. split; [by apply list_elem_of_In|].
    unfold spec_visible. rewrite Hd. by rewrite orb_true_r.
Qed.

Lemma apply_filter_keeps_folders_witness :
  ∃ h' nd,
    apply_filter 6 0 "zzz" heap_scenario = Some h'
    ∧ dir_reachable heap_scenario 0 1
    ∧ heap_scenario !! 1%nat = Some nd
    ∧ ∃ nd', h' !! 1%nat = Some nd'
             ∧ all_children nd' = all_children nd
             ∧ visible_children nd' `sublist_of` all_children nd'
             ∧ ∀ c, c ∈ all_children nd' → is_dir_ref h' c = true →
                    c ∈ visible_children nd'.
Proof.
  assert (∃ h', apply_filter 6 0 "zzz" heap_scenario = Some h') as [h' H]
    by (eexists; vm_compute; reflexivity).
  assert (∃ nd, heap_scenario !! 1%nat = Some nd ∧ is_dir nd = true)
    as (nd & Hn & Hd) by (eexists; split; [vm_compute; reflexivity|reflexivity]).
  assert (∃ r, heap_scenario !! 0%nat = Some r ∧ 1%nat ∈ all_children r)
    as (r & Hr0 & Hin)
    by (eexists; split; [vm_compute; reflexivity|simpl; by left]).
  assert (dir_reachable heap_scenario 0 1) as Hr
    by exact (dir_reachable_child heap_scenario 0 r 1 nd 1 Hr0 Hin Hn Hd
                (dir_reachable_self heap_scenario 1)).
  exists h', nd. split; [done|]. split; [done|]. split; [done|].
  exact (apply_filter_keeps_folders 6 0 "zzz" heap_scenario h' 1 nd H Hr Hn).
Defined.

(** X10.  A sort that returned has reordered the visible children of
    its node and recorded the sorting, and has done nothing else: no child
    is lost or shown twice, [all_children] and the cursor of the node are as
    before, and no other node is touched, the children of the node
    included. *)
Theorem sort_permutes_visible (self : nat) (s : Sorting) (h h' : heap) :
  sort self s h = Ok h' →
  List.length h' = List.length h
  ∧ (∀ n, n ≠ self → h' !! n = h !! n)
  ∧ ∃ nd vis,
      h !! self = Some nd
      ∧ h' !! self = Some (set_children (all_children nd) vis (Some s) nd)
      ∧ vis ≡ₚ visible_children nd.
Proof.
  intros (nd & vis & Hs & -> & Hp)%sort_inv.
  split; [by rewrite length_insert|].
  split; [intros n Hn; by rewrite list_lookup_insert_ne|].
  exists nd, vis. split; [done|]. split; [|done].
  by apply (lookup_insert_self h self nd).
Qed.

Lemma sort_permutes_visible_witness :
  ∃ h',
    sort 0 (by_size DescendingOrder) heap_mixed = Ok h'
    ∧ List.length h' = List.length heap_mixed
    ∧ (∀ n, n ≠ 0%nat → h' !! n = heap_mixed !! n)
    ∧ ∃ nd vis,
        heap_mixed !! 0%nat = Some nd
        ∧ h' !! 0%nat
          = Some (set_children (all_children nd) vis (Some (by_size DescendingOrder)) nd)
        ∧ vis ≡ₚ visible_children nd.
Proof.
  assert (∃ h', sort 0 (by_size DescendingOrder) heap_mixed = Ok h') as [h' H]
    by (eexists; vm_compute; reflexivity).
  exists h'. split; [done|].
  exact (sort_permutes_visible 0 (by_size DescendingOrder) heap_mixed h' H).
Defined.

(** X11.  The filter forgets the order and the sort does not notice: a
    filter after a sort shows the children of every node it visits in the
    order of [all_children] again, and since the recorded sorting is kept,
    the same sort asked again returns without sorting. *)
Theorem sort_lost_after_filter (fuel root self : nat) (pattern : string) (s : Sorting)
    (h h1 h2 : heap) (nd : FSNode) :
  h !! self = Some nd →
  sort self s h = Ok h1 →
  apply_filter fuel root pattern h1 = Some h2 →
  dir_reachable h1 root self →
  visible_children <$> h2 !! self = Some (spec_filter h pattern nd)
  ∧ sort self s h2 = Ok h2.
Proof.
  intros Hs Hsort Hf Hr.
  pose proof (sort_inv _ _ _ _ Hsort) as (nd' & vis & Hs' & Heq & Hp).
  assert (nd' = nd) as -> by congruence.
  pose (nd1 := set_children (all_children nd) vis (Some s) nd).
  assert (h1 !! self = Some nd1) as Hs1
    by (rewrite Heq; by apply (lookup_insert_self h self nd)).
  pose proof (apply_filter_reach _ _ _ _ _ _ nd1 Hf Hr Hs1) as H2.
  split.
  - rewrite H2. simpl. f_equal. unfold spec_filter. simpl.
    apply List.filter_ext. intros c. unfold spec_visible.
    by rewrite (sort_is_dir_ref self s h h1 c Hsort),
               (sort_name_lower_ref self s h h1 c Hsort).
  - by apply (sort_guard self s h2 _ H2).
Qed.

Lemma sort_lost_after_filter_witness :
  ∃ nd h1 h2,
    heap_mixed !! 0%nat = Some nd
    ∧ sort 0 (by_name AscendingOrder) heap_mixed = Ok h1
    ∧ apply_filter 6 0 "" h1 = Some h2
    ∧ dir_reachable h1 0 0
    ∧ visible_children <$> h2 !! 0%nat = Some (spec_filter heap_mixed "" nd)
    ∧ sort 0 (by_name AscendingOrder) h2 = Ok h2.
Proof.
  assert (∃ nd, heap_mixed !! 0%nat = Some nd) as [nd Hn]
    by (eexists; vm_compute; reflexivity).
  assert (∃ h1, sort 0 (by_name AscendingOrder) heap_mixed = Ok h1) as [h1 H1]
    by (eexists; vm_compute; reflexivity).
  assert (∃ h2, apply_filter 6 0 "" h1 = Some h2) as [h2 H2].
  { assert (h1 = heap_mixed_sorted) as ->
      by (vm_compute in H1; injection H1 as <-; vm_compute; reflexivity).
    eexists; vm_compute; reflexivity. }
  exists nd, h1, h2. split; [done|]. split; [done|]. split; [done|].
  split; [constructor|].
  exact (sort_lost_after_filter 6 0 0 "" (by_name AscendingOrder) heap_mixed h1 h2 nd
           Hn H1 H2 (dir_reachable_self h1 0)).
Defined.

(** X12.  A sort by size of a node whose recorded sorting differs
    returns and keeps the folders before the files in both directions; the
    folders are ordered by lower-cased name and the files by size, in the
    direction of the sort, and folders of one name, and files of one size,
    keep the order they had. *)
Theorem sort_by_size_folders_first (h : heap) (self : nat) (nd : FSNode) (o : SortOrder) :
  h !! self = Some nd →
  children_valid h (visible_children nd) →
  current_sort_state nd ≠ Some (by_size o) →
  ∃ vis,
    sort self (by_size o) h =
      Ok (<[self := set_children (all_children nd) vis (Some (by_size o)) nd]> h)
    ∧ vis ≡ₚ visible_children nd
    ∧ vis = List.filter (is_dir_ref h) vis ++ List.filter (λ c, negb (is_dir_ref h c)) vis
    ∧ StronglySorted (name_order h o) (List.filter (is_dir_ref h) vis)
    ∧ StronglySorted (size_order h o) (List.filter (λ c, negb (is_dir_ref h c)) vis)
    ∧ (∀ n, List.filter (same_kind_and_name h true n) vis
            = List.filter (same_kind_and_name h true n) (visible_children nd))
    ∧ (∀ z, List.filter (file_of_size h z) vis
            = List.filter (file_of_size h z) (visible_children nd)).
Proof.
  intros Hs Hv Hne.
  destruct (sort_known_Ok self (by_size o) h nd Hs Hv) as [h' Hsort].
  { unfold known_column. simpl. unfold Column.Size. lia. }
  rewrite (sort_unfold self (by_size o) h nd Hs Hne) in Hsort |- *.
  simpl in Hsort |- *.
  destruct (PyCmp.list_sort _ _ _) as [vis| |] eqn:Hl; simpl in Hsort; try done.
  exists vis. split; [done|].
  pose proof (λ k, list_sort_stable _ _ _ _ k Hl) as Hstable.
  apply list_sort_spec in Hl as [Hp Hsorted].
  assert (∀ c, c ∈ visible_children nd → is_Some (h !! c)) as Hin
    by (by apply Forall_forall).
  assert (StronglySorted (folders_first_by_size h o) vis) as Hff.
  { eapply StronglySorted_impl_elem; [|exact Hsorted].
    intros a b _ _. apply sorted_by_size_folders_first. }
  split; [done|]. split; [|split; [|split; [|split]]].
  - apply (sorted_blocks (folders_first_by_size h o)); [|done].
    intros a b [[Ha _]|[(Ha & _)|(_ & Hb' & _)]] Hb; congruence.
  - eapply StronglySorted_impl_elem; [|apply StronglySorted_filter, Hff].
    intros a b Ha Hb [[_ Hbf]|[(_ & _ & Hn)|(Haf & _)]]; [|done|].
    + apply list_elem_of_In, filter_In in Hb as [_ Hb]. congruence.
    + apply list_elem_of_In, filter_In in Ha as [_ Ha]. congruence.
  - eapply StronglySorted_impl_elem; [|apply StronglySorted_filter, Hff].
    intros a b Ha Hb [[Haf _]|[(Haf & _)|(_ & _ & Hn)]]; [| |done].
    + apply list_elem_of_In, filter_In in Ha as [_ Ha]. by rewrite Haf in Ha.
    + apply list_elem_of_In, filter_In in Ha as [_ Ha]. by rewrite Haf in Ha.
  - intros n.
    apply (filter_stable_as (sort_key_ref h (by_size o) (descending o))
             (Bool.eqb true (descending o), VStr n)); [done| |done].
    intros c Hc. by apply has_key_by_size_folder, Hin.
  - intros z.
    apply (filter_stable_as (sort_key_ref h (by_size o) (descending o))
             (Bool.eqb false (descending o), VInt z)); [done| |done].
    intros c Hc. by apply has_key_by_size_file, Hin.
Qed.

Lemma sort_by_size_folders_first_witness :
  ∃ nd vis,
    heap_mixed !! 0%nat = Some nd
    ∧ children_valid heap_mixed (visible_children nd)
    ∧ current_sort_state nd ≠ Some (by_size DescendingOrder)
    ∧ sort 0 (by_size DescendingOrder) heap_mixed =
        Ok (<[0%nat := set_children (all_children nd) vis
                         (Some (by_size DescendingOrder)) nd]> heap_mixed)
    ∧ vis ≡ₚ visible_children nd
    ∧ vis = List.filter (is_dir_ref heap_mixed) vis
            ++ List.filter (λ c, negb (is_dir_ref heap_mixed c)) vis
    ∧ StronglySorted (name_order heap_mixed DescendingOrder)
        (List.filter (is_dir_ref heap_mixed) vis)
    ∧ StronglySorted (size_order heap_mixed DescendingOrder)
        (List.filter (λ c, negb (is_dir_ref heap_mixed c)) vis)
    ∧ (∀ n, List.filter (same_kind_and_name heap_mixed true n) vis
            = List.filter (same_kind_and_name heap_mixed true n) (visible_children nd))
    ∧ (∀ z, List.filter (file_of_size heap_mixed z) vis
            = List.filter (file_of_size heap_mixed z) (visible_children nd)).
Proof.
  assert (∃ nd, heap_mixed !! 0%nat = Some nd
                ∧ children_valid heap_mixed (visible_children nd)
                ∧ current_sort_state nd ≠ Some (by_size DescendingOrder))
    as (nd & H1 & H2 & H3).
  { eexists. split; [vm_compute; reflexivity|]. split; [|done].
    repeat constructor; eexists; vm_compute; reflexivity. }
  destruct (sort_by_size_folders_first heap_mixed 0 nd DescendingOrder H1 H2 H3)
    as (vis & H).
  exists nd, vis. tauto.
Defined.

(** X13.  A sort by Modified, Permissions or Owner of a node whose
    recorded sorting differs returns and orders the visible children by the
    text of the column alone, folders and files alike, in the direction of
    the sort; children of one text keep the order they had. *)
Theorem sort_by_text_column (h : heap) (self : nat) (nd : FSNode) (s : Sorting) :
  h !! self = Some nd →
  children_valid h (visible_children nd) →
  current_sort_state nd ≠ Some s →
  text_column (column s) →
  ∃ vis,
    sort self s h = Ok (<[self := set_children (all_children nd) vis (Some s) nd]> h)
    ∧ vis ≡ₚ visible_children nd
    ∧ StronglySorted (text_order h (column s) (order s)) vis
    ∧ ∀ t, List.filter (same_text h (column s) t) vis
           = List.filter (same_text h (column s) t) (visible_children nd).
Proof.
  intros Hs Hv Hne Ht.
  destruct (sort_known_Ok self s h nd Hs Hv) as [h' Hsort].
  { unfold known_column, text_column in *. lia. }
  rewrite (sort_unfold self s h nd Hs Hne) in Hsort |- *.
  destruct (PyCmp.list_sort _ _ _) as [vis| |] eqn:Hl; simpl in Hsort; try done.
  exists vis. split; [done|].
  pose proof (λ k, list_sort_stable _ _ _ _ k Hl) as Hstable.
  apply list_sort_spec in Hl as [Hp Hsorted].
  split; [done|]. split.
  - eapply StronglySorted_impl_elem; [|exact Hsorted].
    intros a b _ _. by apply sorted_by_text.
  - intros t.
    apply (filter_stable_as (sort_key_ref h s (descending (order s))) (false, VStr t));
      [done| |done].
    intros c Hc. apply has_key_text; [done|].
    by apply (proj1 (Forall_forall _ _) Hv).
Qed.

Lemma sort_by_text_column_witness :
  ∃ nd vis,
    heap_mixed !! 0%nat = Some nd
    ∧ children_valid heap_mixed (visible_children nd)
    ∧ current_sort_state nd
      ≠ Some {| column := Column.Permissions; order := AscendingOrder |}
    ∧ text_column Column.Permissions
    ∧ sort 0 {| column := Column.Permissions; order := AscendingOrder |} heap_mixed =
        Ok (<[0%nat := set_children (all_children nd) vis
                         (Some {| column := Column.Permissions; order := AscendingOrder |})
                         nd]> heap_mixed)
    ∧ vis ≡ₚ visible_children nd
    ∧ StronglySorted (text_order heap_mixed Column.Permissions AscendingOrder) vis
    ∧ ∀ t, List.filter (same_text heap_mixed Column.Permissions t) vis
           = List.filter (same_text heap_mixed Column.Permissions t) (visible_children nd).
Proof.
  assert (∃ nd, heap_mixed !! 0%nat = Some nd
                ∧ children_valid heap_mixed (visible_children nd)
                ∧ current_sort_state nd
                  ≠ Some {| column := Column.Permissions; order := AscendingOrder |})
    as (nd & H1 & H2 & H3).
  { eexists. split; [vm_compute; reflexivity|]. split; [|done].
    repeat constructor; eexists; vm_compute; reflexivity. }
  assert (text_column Column.Permissions) as H4
    by (unfold text_column, Column.Permissions; lia).
  destruct (sort_by_text_column heap_mixed 0 nd
              {| column := Column.Permissions; order := AscendingOrder |} H1 H2 H3 H4)
    as (vis & H).
  exists nd, vis. tauto.
Defined.

(** X14.  A sort by a column that the view does not have raises
    [ValueError] as soon as the node shows a child and has another sorting
    recorded: the key of the first child is asked for and refused. *)
Theorem sort_unknown_column_raises (h : heap) (self : nat) (nd : FSNode) (s : Sorting) :
  h !! self = Some nd →
  children_valid h (visible_children nd) →
  visible_children nd ≠ [] →
  current_sort_state nd ≠ Some s →
  ¬ known_column (column s) →
  sort self s h
  = Raise (ValueError ("Unknown column index " ++ PyStr.str_of_int (column s))%string).
Proof.
  intros Hs Hv Hne Hst Hk.
  destruct (visible_children nd) as [|c cs] eqn:Hvis; [done|].
  apply Forall_cons in Hv as [[child Hc] _].
  by apply (sort_unknown_raises self s h nd child c cs).
Qed.

Lemma sort_unknown_column_raises_witness :
  ∃ nd,
    heap_mixed !! 0%nat = Some nd
    ∧ children_valid heap_mixed (visible_children nd)
    ∧ visible_children nd ≠ []
    ∧ current_sort_state nd ≠ Some unknown_sorting
    ∧ ¬ known_column (column unknown_sorting)
    ∧ sort 0 unknown_sorting heap_mixed
      = Raise (ValueError ("Unknown column index "
                           ++ PyStr.str_of_int (column unknown_sorting))%string).
Proof.
  assert (∃ nd, heap_mixed !! 0%nat = Some nd
                ∧ children_valid heap_mixed (visible_children nd)
                ∧ visible_children nd ≠ []
                ∧ current_sort_state nd ≠ Some unknown_sorting)
    as (nd & H1 & H2 & H3 & H4).
  { eexists. split; [vm_compute; reflexivity|]. split; [|done].
    repeat constructor; eexists; vm_compute; reflexivity. }
  assert (¬ known_column (column unknown_sorting)) as H5
    by (unfold known_column; simpl; lia).
  exists nd. split; [done|]. split; [done|]. split; [done|]. split; [done|].
  split; [done|].
  exact (sort_unknown_column_raises heap_mixed 0 nd unknown_sorting H1 H2 H3 H4 H5).
Defined.

(** X15.  Every row that the model counts has an index: for a row from
    0 to [rowCount] minus one, [index] returns an index with that row and
    column whose pointer is the visible child at that position. *)
Theorem index_within_rowCount (m : FSModel) (h : heap) (parent_ : QModelIndex)
    (n row col : Z) :
  proper_index parent_ →
  rowCount m h parent_ = Some n → 0 ≤ row < n →
  ∃ nd c,
    h !! p_item_of m parent_ = Some nd
    ∧ visible_children nd !! Z.to_nat row = Some c
    ∧ index m h row col parent_ = Some (createIndex row col c).
Proof. intros _. apply index_within_rows. Qed.

Lemma index_within_rowCount_witness :
  ∃ nd c,
    proper_index (createIndex 0 0 2)
    ∧ rowCount first_model heap_scenario (createIndex 0 0 2) = Some 2
    ∧ 0 ≤ 1 < 2
    ∧ heap_scenario !! p_item_of first_model (createIndex 0 0 2) = Some nd
    ∧ visible_children nd !! Z.to_nat 1 = Some c
    ∧ index first_model heap_scenario 1 0 (createIndex 0 0 2)
      = Some (createIndex 1 0 c).
Proof.
  assert (rowCount first_model heap_scenario (createIndex 0 0 2) = Some 2) as H1
    by (vm_compute; reflexivity).
  assert (0 ≤ 1 < 2) as H2 by lia.
  assert (proper_index (createIndex 0 0 2)) as H0 by (simpl; lia).
  destruct (index_within_rowCount first_model heap_scenario (createIndex 0 0 2)
              2 1 0 H0 H1 H2) as (nd & c & H).
  exists nd, c. tauto.
Defined.

(** X16.  [index] does not look at the rows fetched: it answers for
    every position of the visible children, a negative row counts from the
    end as in any Python list, and a row past either end is an
    [IndexError]. *)
Theorem index_bounds (m : FSModel) (h : heap) (parent_ : QModelIndex) (nd : FSNode)
    (row col : Z) :
  proper_index parent_ →
  h !! p_item_of m parent_ = Some nd →
  (0 ≤ row < len (visible_children nd) →
   ∃ c, visible_children nd !! Z.to_nat row = Some c
        ∧ index m h row col parent_ = Some (createIndex row col c))
  ∧ (- len (visible_children nd) ≤ row < 0 →
     ∃ c, visible_children nd !! Z.to_nat (len (visible_children nd) + row) = Some c
          ∧ index m h row col parent_ = Some (createIndex row col c))
  ∧ (len (visible_children nd) ≤ row ∨ row < - len (visible_children nd) →
     index m h row col parent_ = None).
Proof.
  intros _ Hn. unfold index. rewrite Hn. simpl. unfold getitem, len.
  split; [|split].
  - intros Hrow.
    destruct (lookup_lt_is_Some_2 (visible_children nd) (Z.to_nat row)) as [c Hc]; [lia|].
    exists c. split; [done|]. destruct (Z.leb_spec 0 row); [|lia]. by rewrite Hc.
  - intros Hrow.
    destruct (lookup_lt_is_Some_2 (visible_children nd)
                (Z.to_nat (Z.of_nat (List.length (visible_children nd)) + row)))
      as [c Hc]; [lia|].
    exists c. split; [done|]. destruct (Z.leb_spec 0 row); [lia|].
    destruct (Z.leb_spec 0 (Z.of_nat (List.length (visible_children nd)) + row)); [|lia].
    by rewrite Hc.
  - intros Hrow. destruct (Z.leb_spec 0 row).
    + destruct Hrow as [Hrow|Hrow]; [|lia].
      rewrite (lookup_ge_None_2 (visible_children nd) (Z.to_nat row)); [done|lia].
    + destruct (Z.leb_spec 0 (Z.of_nat (List.length (visible_children nd)) + row));
        [|done].
      lia.
Qed.

Lemma index_bounds_witness :
  ∃ nd,
    proper_index (createIndex 0 0 1)
    ∧ heap_large !! p_item_of first_model (createIndex 0 0 1) = Some nd
    ∧ (0 ≤ 12000 < len (visible_children nd) →
       ∃ c, visible_children nd !! Z.to_nat 12000 = Some c
            ∧ index first_model heap_large 12000 0 (createIndex 0 0 1)
              = Some (createIndex 12000 0 c))
    ∧ (- len (visible_children nd) ≤ 12000 < 0 →
       ∃ c, visible_children nd !! Z.to_nat (len (visible_children nd) + 12000) = Some c
            ∧ index first_model heap_large 12000 0 (createIndex 0 0 1)
              = Some (createIndex 12000 0 c))
    ∧ (len (visible_children nd) ≤ 12000 ∨ 12000 < - len (visible_children nd) →
       index first_model heap_large 12000 0 (createIndex 0 0 1) = None).
Proof.
  assert (∃ nd, heap_large !! p_item_of first_model (createIndex 0 0 1) = Some nd)
    as [nd Hn] by (eexists; reflexivity).
  assert (proper_index (createIndex 0 0 1)) as H0 by (simpl; lia).
  exists nd. split; [done|]. split; [done|].
  exact (index_bounds first_model heap_large (createIndex 0 0 1) nd 12000 0 H0 Hn).
Defined.

(** X17.  [parent] undoes [index]: in a tree whose children refer back
    to their holder and are shown once, the parent of the index made for a
    row under an index is that index in column 0, and the invalid index for
    a row under the root. *)
Theorem parent_of_index (m : FSModel) (h : heap) (row col : Z) (parent_ idx : QModelIndex) :
  well_linked h → views_ok h →
  parent <$> h !! root_node m = Some None →
  (parent_ = InvalidIndex
   ∨ ∃ r c g, 0 ≤ r ∧ 0 ≤ c ∧ proper_index g ∧ index m h r c g = Some parent_) →
  0 ≤ row → 0 ≤ col →
  index m h row col parent_ = Some idx →
  FSModel_parent m h idx
  = Ok (match parent_ with
        | InvalidIndex => InvalidIndex
        | createIndex r _ p => createIndex r 0 p
        end).
Proof.
  intros Hw Hv Hroot HP _ _ Hidx.
  destruct (index_inv m h row col parent_ idx Hw Hv Hidx)
    as (nd & c & child & Hn & Hg & -> & Hc & Hpc).
  unfold FSModel_parent. rewrite Hc, Hpc.
  destruct HP as [->|(r & c0 & g & Hr & _ & _ & HP)].
  - simpl. by destruct (decide _).
  - destruct (index_inv m h r c0 g parent_ Hw Hv HP)
      as (gn & p & pn & Hgn & Hgp & -> & Hp & Hpp).
    simpl. simpl in Hn.
    destruct (decide (p = root_node m)) as [->|Hne].
    { rewrite Hp in Hroot. simpl in Hroot. congruence. }
    rewrite Hp, Hpp. simpl. rewrite Hgn.
    rewrite getitem_nonneg in Hgp by done.
    rewrite (list_index_NoDup p (visible_children gn) (Z.to_nat r));
      [|by eapply views_ok_NoDup|done].
    by rewrite Z2Nat.id.
Qed.

Lemma parent_of_index_witness :
  well_linked heap_scenario ∧ views_ok heap_scenario
  ∧ parent <$> heap_scenario !! root_node first_model = Some None
  ∧ index first_model heap_scenario 0 0 (createIndex 0 0 1) = Some (createIndex 0 0 2)
  ∧ index first_model heap_scenario 1 3 (createIndex 0 0 2) = Some (createIndex 1 3 4)
  ∧ FSModel_parent first_model heap_scenario (createIndex 1 3 4)
    = Ok (createIndex 0 0 2).
Proof.
  destruct (loaded_tree [file_item "/a/b/f1.txt" "100"; file_item "/a/b/f2.log" "50";
                         dir_item "/a/c"]) as (_ & Hw & Hv & Hroot).
  { repeat constructor; eexists; vm_compute; reflexivity. }
  assert (index first_model heap_scenario 0 0 (createIndex 0 0 1)
          = Some (createIndex 0 0 2)) as H1 by (vm_compute; reflexivity).
  assert (index first_model heap_scenario 1 3 (createIndex 0 0 2)
          = Some (createIndex 1 3 4)) as H2 by (vm_compute; reflexivity).
  split; [exact Hw|]. split; [exact Hv|]. split; [exact Hroot|].
  split; [exact H1|]. split; [exact H2|].
  apply (parent_of_index first_model heap_scenario 1 3 (createIndex 0 0 2)
           (createIndex 1 3 4) Hw Hv Hroot); [|lia|lia|exact H2].
  right. exists 0, 0, (createIndex 0 0 1).
  split; [lia|]. split; [lia|]. split; [simpl; lia|exact H1].
Defined.

(** X18.  For an index whose node has a parent other than the root,
    [parent] returns exactly when that parent is among the visible children
    of its own parent, with the first row that shows it; when a filter has
    hidden it, the call raises the [ValueError] of [list.index]. *)
Theorem parent_needs_visible_parent (m : FSModel) (h : heap) (r col : Z) (c p : nat)
    (child p_node g_node : FSNode) :
  proper_index (createIndex r col c) →
  h !! c = Some child → parent child = Some p → p ≠ root_node m →
  h !! p = Some p_node →
  h !! default (root_node m) (parent p_node) = Some g_node →
  (p ∈ visible_children g_node →
   ∃ row, FSModel_parent m h (createIndex r col c) = Ok (createIndex (Z.of_nat row) 0 p)
          ∧ visible_children g_node !! row = Some p
          ∧ ∀ j, (j < row)%nat → visible_children g_node !! j ≠ Some p)
  ∧ (p ∉ visible_children g_node →
     ∃ msg, FSModel_parent m h (createIndex r col c) = Raise (ValueError msg)).
Proof.
  intros _ Hc Hp Hne Hpn Hg. unfold FSModel_parent. rewrite Hc, Hp.
  destruct (decide (p = root_node m)); [done|]. rewrite Hpn, Hg.
  destruct (list_index p (visible_children g_node)) as [row|] eqn:Hi.
  - split.
    + intros _. exists row. split; [done|]. split; [by apply list_index_lookup|].
      intros j Hj. by apply (list_index_first p _ row).
    + intros Hnot. apply list_index_lookup, list_elem_of_lookup_2 in Hi. done.
  - split; [|intros _; by eexists]. intros Hin. by apply list_index_None in Hi.
Qed.

Lemma parent_needs_visible_parent_witness :
  ∃ h' child p_node g_node,
    apply_filter 4 0 "y" heap_file_parent = Some h'
    ∧ proper_index (createIndex 1 0 3)
    ∧ h' !! 3%nat = Some child ∧ parent child = Some 1%nat
    ∧ 1%nat ≠ root_node first_model
    ∧ h' !! 1%nat = Some p_node
    ∧ h' !! default (root_node first_model) (parent p_node) = Some g_node
    ∧ (1%nat ∉ visible_children g_node)
    ∧ ∃ msg, FSModel_parent first_model h' (createIndex 1 0 3) = Raise (ValueError msg).
Proof.
  assert (∃ h', apply_filter 4 0 "y" heap_file_parent = Some h') as [h' H]
    by (eexists; vm_compute; reflexivity).
  assert (∃ child, h' !! 3%nat = Some child ∧ parent child = Some 1%nat)
    as (child & Hc & Hp).
  { vm_compute in H. injection H as <-. eexists. split; reflexivity. }
  assert (∃ p_node, h' !! 1%nat = Some p_node ∧ parent p_node = Some 0%nat)
    as (p_node & Hpn & Hpp).
  { vm_compute in H. injection H as <-. eexists. split; reflexivity. }
  assert (∃ g_node, h' !! 0%nat = Some g_node ∧ visible_children g_node = [])
    as (g_node & Hg & Hvis).
  { vm_compute in H. injection H as <-. eexists. split; reflexivity. }
  assert (1%nat ≠ root_node first_model) as Hne by done.
  assert (h' !! default (root_node first_model) (parent p_node) = Some g_node) as Hg'
    by (by rewrite Hpp).
  assert (1%nat ∉ visible_children g_node) as Hnot
    by (rewrite Hvis; apply not_elem_of_nil).
  assert (proper_index (createIndex 1 0 3)) as H0 by (simpl; lia).
  exists h', child, p_node, g_node.
  split; [done|]. split; [done|]. split; [done|]. split; [done|]. split; [done|].
  split; [done|]. split; [done|]. split; [done|].
  exact (proj2 (parent_needs_visible_parent first_model h' 1 0 3 1 child p_node g_node
                  H0 Hc Hp Hne Hpn Hg') Hnot).
Defined.

(** X19.  Repeated fetches add a batch each until the end of the list:
    after [k] fetches, [k] at least one, the cursor and the number of rows
    are the minimum of the old cursor plus [k] batches and the number of
    visible children; once that reaches the end all visible children are
    rows and the model has no more to fetch. *)
Theorem fetchMore_times_cursor (k : nat) (m : FSModel) (h : heap) (parent_ : QModelIndex)
    (nd : FSNode) :
  proper_index parent_ →
  h !! p_item_of m parent_ = Some nd →
  BATCH nd = 10000 → (0 < k)%nat →
  ∃ h' nd',
    fetchMore_times k m h parent_ = Some h'
    ∧ h' !! p_item_of m parent_ = Some nd'
    ∧ visible_children nd' = visible_children nd
    ∧ fetched_items nd'
      = Z.min (fetched_items nd + Z.of_nat k * 10000) (len (visible_children nd))
    ∧ rowCount m h' parent_ = Some (fetched_items nd')
    ∧ (∀ n, n ≠ p_item_of m parent_ → h' !! n = h !! n)
    ∧ (len (visible_children nd) ≤ fetched_items nd + Z.of_nat k * 10000 →
       rowCount m h' parent_ = Some (len (visible_children nd))
       ∧ canFetchMore h' parent_ = Some false).
Proof.
  intros _ Hn HB Hk. destruct k as [|k]; [lia|].
  rewrite (fetchMore_times_eq k m h parent_ nd Hn) by lia. rewrite HB.
  set (f := Z.min _ _).
  assert (<[p_item_of m parent_ := set_fetched_items f nd]> h !! p_item_of m parent_
          = Some (set_fetched_items f nd)) as Hn'
    by by apply (lookup_insert_self h _ nd).
  eexists _, _. split; [done|]. split; [exact Hn'|]. split; [done|]. split; [done|].
  assert (rowCount m (<[p_item_of m parent_ := set_fetched_items f nd]> h) parent_
          = Some f) as Hrc.
  { unfold rowCount. rewrite Hn'. simpl. f_equal. subst f. lia. }
  split; [exact Hrc|]. split; [intros n Hne; by rewrite list_lookup_insert_ne|].
  intros Hend. split.
  - rewrite Hrc. f_equal. subst f. lia.
  - destruct parent_ as [|r c p]; [done|]. simpl in *. unfold canFetchMore.
    rewrite Hn'. simpl. f_equal. apply Z.ltb_ge. subst f. lia.
Qed.

Lemma fetchMore_times_cursor_witness :
  ∃ nd h' nd',
    proper_index (createIndex 0 0 1)
    ∧ heap_large !! p_item_of first_model (createIndex 0 0 1) = Some nd
    ∧ BATCH nd = 10000 ∧ (0 < 2)%nat
    ∧ fetchMore_times 2 first_model heap_large (createIndex 0 0 1) = Some h'
    ∧ h' !! p_item_of first_model (createIndex 0 0 1) = Some nd'
    ∧ visible_children nd' = visible_children nd
    ∧ fetched_items nd'
      = Z.min (fetched_items nd + Z.of_nat 2 * 10000) (len (visible_children nd))
    ∧ rowCount first_model h' (createIndex 0 0 1) = Some (fetched_items nd')
    ∧ (∀ n, n ≠ p_item_of first_model (createIndex 0 0 1) → h' !! n = heap_large !! n)
    ∧ (len (visible_children nd) ≤ fetched_items nd + Z.of_nat 2 * 10000 →
       rowCount first_model h' (createIndex 0 0 1) = Some (len (visible_children nd))
       ∧ canFetchMore h' (createIndex 0 0 1) = Some false).
Proof.
  assert (∃ nd, heap_large !! p_item_of first_model (createIndex 0 0 1) = Some nd
                ∧ BATCH nd = 10000) as (nd & Hn & HB)
    by (eexists; split; reflexivity).
  assert (proper_index (createIndex 0 0 1)) as H0 by (simpl; lia).
  assert (0 < 2)%nat as Hk by lia.
  destruct (fetchMore_times_cursor 2 first_model heap_large (createIndex 0 0 1) nd
              H0 Hn HB Hk) as (h' & nd' & H).
  exists nd, h', nd'. split; [done|]. split; [done|]. split; [done|]. split; [done|].
  exact H.
Defined.

(** X20.  On a tree, with a sorting of a column of the view set in the
    model and whatever the view holds expanded, [sort_expanded] returns,
    and all it has done is reorder: every node keeps its place, its
    children, its cursor and its attributes, shows the visible children it
    showed in some order, and records the sorting it recorded or the one of
    the model. *)
Theorem sort_expanded_reorders (isExpanded : QModelIndex → bool) (fuel : nat)
    (m : FSModel) (s : Sorting) (index_ : QModelIndex) (h : heap) :
  proper_index index_ →
  sorting m = Some s → known_column (column s) →
  forward h → views_ok h →
  (p_item_of m index_ < List.length h)%nat →
  (List.length h - p_item_of m index_ < fuel)%nat →
  ∃ h',
    sort_expanded isExpanded fuel (Some m) index_ h = Returns h'
    ∧ List.length h' = List.length h
    ∧ ∀ n nd, h !! n = Some nd →
        ∃ vis st, h' !! n = Some (set_children (all_children nd) vis st nd)
                  ∧ vis ≡ₚ visible_children nd
                  ∧ (st = current_sort_state nd ∨ st = Some s).
Proof.
  intros _ Hs Hk Hf Hv Hlt Hfuel.
  destruct (sort_expanded_ok isExpanded m s Hs Hk fuel index_ h Hf Hv Hlt Hfuel)
    as (h' & Hrun & Hre & _).
  exists h'. split; [done|]. split; [by apply (reordered_length s)|].
  intros n nd Hn. by apply (reordered_lookup s h h').
Qed.

Lemma sort_expanded_reorders_witness :
  ∃ h',
    proper_index InvalidIndex
    ∧ sorting (FSModel_sort first_model Column.Name AscendingOrder)
      = Some (by_name AscendingOrder)
    ∧ known_column (column (by_name AscendingOrder))
    ∧ forward heap_scenario ∧ views_ok heap_scenario
    ∧ (p_item_of (FSModel_sort first_model Column.Name AscendingOrder) InvalidIndex
       < List.length heap_scenario)%nat
    ∧ (List.length heap_scenario
       - p_item_of (FSModel_sort first_model Column.Name AscendingOrder) InvalidIndex
       < 7)%nat
    ∧ sort_expanded (λ _, true) 7
        (Some (FSModel_sort first_model Column.Name AscendingOrder)) InvalidIndex
        heap_scenario = Returns h'
    ∧ List.length h' = List.length heap_scenario
    ∧ ∀ n nd, heap_scenario !! n = Some nd →
        ∃ vis st, h' !! n = Some (set_children (all_children nd) vis st nd)
                  ∧ vis ≡ₚ visible_children nd
                  ∧ (st = current_sort_state nd ∨ st = Some (by_name AscendingOrder)).
Proof.
  destruct (loaded_tree [file_item "/a/b/f1.txt" "100"; file_item "/a/b/f2.log" "50";
                         dir_item "/a/c"]) as (Hf & _ & Hv & _).
  { repeat constructor; eexists; vm_compute; reflexivity. }
  assert (known_column (column (by_name AscendingOrder))) as Hk
    by (unfold known_column; simpl; unfold Column.Name; lia).
  assert (p_item_of (FSModel_sort first_model Column.Name AscendingOrder) InvalidIndex
          < List.length heap_scenario)%nat as Hlt by (vm_compute; lia).
  assert (List.length heap_scenario
          - p_item_of (FSModel_sort first_model Column.Name AscendingOrder) InvalidIndex
          < 7)%nat as Hfuel by (vm_compute; lia).
  destruct (sort_expanded_reorders (λ _, true) 7
              (FSModel_sort first_model Column.Name AscendingOrder)
              (by_name AscendingOrder) InvalidIndex heap_scenario
              I eq_refl Hk Hf Hv Hlt Hfuel) as (h' & H).
  exists h'. split; [done|]. split; [done|]. split; [done|]. split; [done|].
  split; [done|]. split; [done|]. split; [done|]. exact H.
Defined.

(** X21.  What [sort_expanded] does to the node of its index: a file is
    left alone together with all below it; a folder that the model counts
    more than one row for is sorted as [FSNode.sort] sorts it with the
    sorting of the model; a folder of one row or none is neither sorted nor
    marked as sorted.  The nodes made before the node are never touched. *)
Theorem sort_expanded_sorts_folder (isExpanded : QModelIndex → bool) (fuel : nat)
    (m : FSModel) (s : Sorting) (r c : Z) (node : nat) (h : heap) (nd : FSNode) :
  proper_index (createIndex r c node) →
  sorting m = Some s → known_column (column s) →
  forward h → views_ok h →
  h !! node = Some nd →
  (List.length h - node < fuel)%nat →
  ∃ h',
    sort_expanded isExpanded fuel (Some m) (createIndex r c node) h = Returns h'
    ∧ (∀ k, (k < node)%nat → h' !! k = h !! k)
    ∧ (is_dir nd = false → h' = h)
    ∧ (is_dir nd = true →
       1 < Z.min (len (visible_children nd)) (fetched_items nd) →
       ∃ h1, sort node s h = Ok h1 ∧ h' !! node = h1 !! node)
    ∧ (is_dir nd = true →
       Z.min (len (visible_children nd)) (fetched_items nd) ≤ 1 →
       h' !! node = Some nd).
Proof.
  intros _ Hs Hk Hf Hv Hnd Hfuel.
  assert (node < List.length h)%nat as Hlt by by eapply lookup_lt_Some.
  destruct fuel as [|fuel]; [lia|].
  cbn [sort_expanded]. rewrite Hnd.
  destruct (is_dir nd) eqn:Hdir; simpl.
  2:{ exists h. split; [done|]. split; [done|]. split; [done|]. split; [done|]. done. }
  assert (rowCount m h (createIndex r c node)
          = Some (Z.min (len (visible_children nd)) (fetched_items nd))) as Hrc
    by (unfold rowCount; simpl; by rewrite Hnd).
  rewrite Hrc.
  destruct (Z.ltb_spec 1 (Z.min (len (visible_children nd)) (fetched_items nd)))
    as [Hrows|Hrows].
  - rewrite Hs.
    destruct (sort_known_Ok node s h nd Hnd) as [h1 H1];
      [by eapply visible_children_valid|done|].
    unfold sort_result. rewrite H1. simpl.
    pose proof (sort_reordered s node h h1 H1) as Hre.
    destruct (sort_expanded_rows isExpanded m s fuel (createIndex r c node) h1
                (sort_expanded_ok isExpanded m s Hs Hk fuel))
      as (h' & Hloop & _ & Hfr);
      [by eapply reordered_forward|by eapply reordered_views_ok
      |simpl; by rewrite (reordered_length s h h1)
      |simpl; rewrite (reordered_length s h h1) by done; lia|].
    exists h'. split; [done|]. simpl in Hfr. split; [|split; [done|split]].
    + intros k Hlk. rewrite Hfr by lia.
      apply sort_inv in H1 as (nd' & vis & _ & -> & _).
      apply list_lookup_insert_ne. lia.
    + intros _ _. exists h1. split; [done|]. by apply Hfr.
    + intros _ Hle. lia.
  - destruct (sort_expanded_rows isExpanded m s fuel (createIndex r c node) h
                (sort_expanded_ok isExpanded m s Hs Hk fuel))
      as (h' & Hloop & _ & Hfr); [done|done|done|simpl; lia|].
    rewrite Hrc in Hloop.
    exists h'. split; [done|]. simpl in Hfr. split; [|split; [done|split]].
    + intros k Hlk. apply Hfr. lia.
    + intros _ Hgt. lia.
    + intros _ _. rewrite <- Hnd. by apply Hfr.
Qed.

Lemma sort_expanded_sorts_folder_witness :
  ∃ nd h',
    proper_index (createIndex 0 0 2)
    ∧ sorting (FSModel_sort first_model Column.Name DescendingOrder)
      = Some (by_name DescendingOrder)
    ∧ known_column (column (by_name DescendingOrder))
    ∧ forward heap_scenario ∧ views_ok heap_scenario
    ∧ heap_scenario !! 2%nat = Some nd
    ∧ (List.length heap_scenario - 2 < 5)%nat
    ∧ sort_expanded (λ _, false) 5
        (Some (FSModel_sort first_model Column.Name DescendingOrder))
        (createIndex 0 0 2) heap_scenario = Returns h'
    ∧ (∀ k, (k < 2)%nat → h' !! k = heap_scenario !! k)
    ∧ (is_dir nd = false → h' = heap_scenario)
    ∧ (is_dir nd = true →
       1 < Z.min (len (visible_children nd)) (fetched_items nd) →
       ∃ h1, sort 2 (by_name DescendingOrder) heap_scenario = Ok h1
             ∧ h' !! 2%nat = h1 !! 2%nat)
    ∧ (is_dir nd = true →
       Z.min (len (visible_children nd)) (fetched_items nd) ≤ 1 →
       h' !! 2%nat = Some nd).
Proof.
  destruct (loaded_tree [file_item "/a/b/f1.txt" "100"; file_item "/a/b/f2.log" "50";
                         dir_item "/a/c"]) as (Hf & _ & Hv & _).
  { repeat constructor; eexists; vm_compute; reflexivity. }
  assert (known_column (column (by_name DescendingOrder))) as Hk
    by (unfold known_column; simpl; unfold Column.Name; lia).
  assert (∃ nd, heap_scenario !! 2%nat = Some nd) as [nd Hnd]
    by (eexists; vm_compute; reflexivity).
  assert (List.length heap_scenario - 2 < 5)%nat as Hfuel by (vm_compute; lia).
  assert (proper_index (createIndex 0 0 2)) as H0 by (simpl; lia).
  destruct (sort_expanded_sorts_folder (λ _, false) 5
              (FSModel_sort first_model Column.Name DescendingOrder)
              (by_name DescendingOrder) 0 0 2 heap_scenario nd
              H0 eq_refl Hk Hf Hv Hnd Hfuel) as (h' & H).
  exists nd, h'. split; [done|]. split; [done|]. split; [done|]. split; [done|].
  split; [done|]. split; [done|]. split; [done|]. exact H.
Defined.

(** X22.  [save_expansion_state] returns, and returns the nodes at the
    end of a chain of expanded rows from its index, no more and no fewer:
    a node under a collapsed row is not saved even if the view holds it
    expanded, nor is one in a row that the model has not fetched. *)
Theorem save_expansion_state_chains (isExpanded : QModelIndex → bool) (fuel : nat)
    (m : FSModel) (h : heap) (index_ : QModelIndex) :
  proper_index index_ →
  forward h → views_ok h →
  (p_item_of m index_ < List.length h)%nat →
  (List.length h - p_item_of m index_ < fuel)%nat →
  ∃ expanded_nodes,
    save_expansion_state isExpanded fuel (Some m) h index_ = Returns expanded_nodes
    ∧ ∀ q, q ∈ expanded_nodes ↔ expanded_below isExpanded m h index_ q.
Proof.
  intros _ Hf Hv. apply (save_expansion_state_ok isExpanded m h Hf Hv).
Qed.

Lemma save_expansion_state_chains_witness :
  ∃ expanded_nodes,
    proper_index InvalidIndex
    ∧ forward heap_scenario ∧ views_ok heap_scenario
    ∧ (p_item_of first_model InvalidIndex < List.length heap_scenario)%nat
    ∧ (List.length heap_scenario - p_item_of first_model InvalidIndex < 7)%nat
    ∧ save_expansion_state (λ _, true) 7 (Some first_model) heap_scenario InvalidIndex
      = Returns expanded_nodes
    ∧ ∀ q, q ∈ expanded_nodes
           ↔ expanded_below (λ _, true) first_model heap_scenario InvalidIndex q.
Proof.
  destruct (loaded_tree [file_item "/a/b/f1.txt" "100"; file_item "/a/b/f2.log" "50";
                         dir_item "/a/c"]) as (Hf & _ & Hv & _).
  { repeat constructor; eexists; vm_compute; reflexivity. }
  assert (p_item_of first_model InvalidIndex < List.length heap_scenario)%nat as Hlt
    by (vm_compute; lia).
  assert (List.length heap_scenario - p_item_of first_model InvalidIndex < 7)%nat
    as Hfuel by (vm_compute; lia).
  destruct (save_expansion_state_chains (λ _, true) 7 first_model heap_scenario
              InvalidIndex I Hf Hv Hlt Hfuel) as (out & H).
  exists out. split; [done|]. split; [done|]. split; [done|]. split; [done|].
  split; [done|]. exact H.
Defined.
